(** * IntervalQueue

    A model of [src/IntervalQueue.js] together with the part of the
    JavaScript host it relies on (promises, the microtask queue and
    [setTimeout]/[clearTimeout]), and the properties of the scheduler that
    follow from it.

    The object's fields keep their source names.  Everything the class does
    to the host is explicit state passing over [World]: the promise stores,
    the table of armed timers, the queue of pending microtasks and a ghost
    [trace] of what happened, in program order. *)

From stdpp Require Import base numbers option list.

(** ** Values *)

Abbreviation fn_id := nat (only parsing).
Abbreviation handle := nat (only parsing).
Abbreviation promise_id := nat (only parsing).
Abbreviation timer_id := nat (only parsing).

(** JavaScript values that are not promises. [DTypeError] is the error the
    engine raises itself when it reads a property of [undefined]. *)
Inductive data :=
  | DNull
  | DUndefined
  | DVal (n : nat)
  | DTypeError.

(** What [lastFnResult] can hold: [x instanceof Promise] is [VPromise]. *)
Inductive value :=
  | VData (d : data)
  | VPromise (p : promise_id).

Inductive settlement :=
  | Fulfilled (d : data)
  | Rejected (d : data).

(** What one call [fn(...args)] does: return a plain value, throw, or return
    a new promise, either still pending ([None]) or already settled. *)
Inductive outcome :=
  | Returns (d : data)
  | Throws (e : data)
  | ReturnsPromise (init : option settlement).

(** The caller-supplied operations are opaque: a function is known by its
    identity, and [call] tells what invoking it yields. *)
Class Behaviour := call : fn_id → list value → outcome.

(** [QueuedFunction] is the pair [[fn, args]]. *)
Record QueuedFunction := { fn : fn_id; args : list value }.

Inductive StartTimer := Before | After.

Record IntervalQueueOptions := {
  awaitLastQueue : bool;
  startTimer : StartTimer;
  loop : bool;
  timerForFirst : bool
}.

#[global] Instance data_eq_dec : EqDecision data.
Proof. solve_decision. Defined.
#[global] Instance value_eq_dec : EqDecision value.
Proof. solve_decision. Defined.
#[global] Instance settlement_eq_dec : EqDecision settlement.
Proof. solve_decision. Defined.
#[global] Instance QueuedFunction_eq_dec : EqDecision QueuedFunction.
Proof. solve_decision. Defined.
#[global] Instance StartTimer_eq_dec : EqDecision StartTimer.
Proof. solve_decision. Defined.

(** ** The object *)

Record IntervalQueue := {
  intervalTime : Z;
  isTriggering : bool;
  queue : list QueuedFunction;
  returnPromises : list handle;
  lastFnResult : value;
  options : IntervalQueueOptions;
  isFirst : bool;
  paused : bool;
  _currentTimeout : option timer_id
}.

(** ** The host *)

(** The three reactions the engine attaches to an operation's promise:
    [.then(x => promise.resolve(x))] (with the handle it closes over, which
    is [undefined] when [returnPromises] was empty), the [.catch(() => {})]
    that [trigger] awaits, and [.finally(() => this._createTimeout())]. *)
Inductive reaction :=
  | RThen (promise : option handle)
  | RAwaitCatch
  | RFinally.

(** Jobs of the microtask queue. [JCatch] is the reaction of the
    [.catch(e => promise.reject(e))] chained on the promise [.then] returns,
    [JResume] is the rest of [trigger] after its [await]. *)
Inductive job :=
  | JThen (promise : option handle) (st : settlement)
  | JCatch (promise : option handle) (st : settlement)
  | JAwaitCatch
  | JResume
  | JFinally (st : settlement).

(** A promise returned by an operation. *)
Record pcell := { pstate : option settlement; reactions : list reaction }.

(** Who called [add]: the user of the queue, or line 129 of [trigger]. *)
Inductive origin := ByCaller | ByLoop.

(** Ghost observations. *)
Inductive obs :=
  | OAdd (o : origin) (q : QueuedFunction) (p : handle)
  | ODequeue (q : QueuedFunction) (p : option handle)
  | OInvoke (q : QueuedFunction)
  | OSettle (p : handle) (r : settlement)
  | OUncaught (e : data).

#[global] Instance origin_eq_dec : EqDecision origin.
Proof. solve_decision. Defined.
#[global] Instance obs_eq_dec : EqDecision obs.
Proof. solve_decision. Defined.

Record Host := {
  handles : list (option settlement);
  promises : list pcell;
  timers : list (timer_id * Z);
  next_timer : timer_id;
  microtasks : list job;
  trace : list obs
}.

Record World := { this : IntervalQueue; host : Host }.

(** ** Field updates *)

Definition set_intervalTime (t : Z) (q : IntervalQueue) : IntervalQueue :=
  {| intervalTime := t; isTriggering := isTriggering q; queue := queue q;
     returnPromises := returnPromises q; lastFnResult := lastFnResult q;
     options := options q; isFirst := isFirst q; paused := paused q;
     _currentTimeout := _currentTimeout q |}.

Definition set_isTriggering (b : bool) (q : IntervalQueue) : IntervalQueue :=
  {| intervalTime := intervalTime q; isTriggering := b; queue := queue q;
     returnPromises := returnPromises q; lastFnResult := lastFnResult q;
     options := options q; isFirst := isFirst q; paused := paused q;
     _currentTimeout := _currentTimeout q |}.

Definition set_queue (l : list QueuedFunction) (q : IntervalQueue) : IntervalQueue :=
  {| intervalTime := intervalTime q; isTriggering := isTriggering q; queue := l;
     returnPromises := returnPromises q; lastFnResult := lastFnResult q;
     options := options q; isFirst := isFirst q; paused := paused q;
     _currentTimeout := _currentTimeout q |}.

Definition set_returnPromises (l : list handle) (q : IntervalQueue) : IntervalQueue :=
  {| intervalTime := intervalTime q; isTriggering := isTriggering q; queue := queue q;
     returnPromises := l; lastFnResult := lastFnResult q;
     options := options q; isFirst := isFirst q; paused := paused q;
     _currentTimeout := _currentTimeout q |}.

Definition set_lastFnResult (v : value) (q : IntervalQueue) : IntervalQueue :=
  {| intervalTime := intervalTime q; isTriggering := isTriggering q; queue := queue q;
     returnPromises := returnPromises q; lastFnResult := v;
     options := options q; isFirst := isFirst q; paused := paused q;
     _currentTimeout := _currentTimeout q |}.

Definition set_isFirst (b : bool) (q : IntervalQueue) : IntervalQueue :=
  {| intervalTime := intervalTime q; isTriggering := isTriggering q; queue := queue q;
     returnPromises := returnPromises q; lastFnResult := lastFnResult q;
     options := options q; isFirst := b; paused := paused q;
     _currentTimeout := _currentTimeout q |}.

Definition set_paused (b : bool) (q : IntervalQueue) : IntervalQueue :=
  {| intervalTime := intervalTime q; isTriggering := isTriggering q; queue := queue q;
     returnPromises := returnPromises q; lastFnResult := lastFnResult q;
     options := options q; isFirst := isFirst q; paused := b;
     _currentTimeout := _currentTimeout q |}.

Definition set_currentTimeout (t : option timer_id) (q : IntervalQueue) : IntervalQueue :=
  {| intervalTime := intervalTime q; isTriggering := isTriggering q; queue := queue q;
     returnPromises := returnPromises q; lastFnResult := lastFnResult q;
     options := options q; isFirst := isFirst q; paused := paused q;
     _currentTimeout := t |}.

Definition set_handles (l : list (option settlement)) (h : Host) : Host :=
  {| handles := l; promises := promises h; timers := timers h;
     next_timer := next_timer h; microtasks := microtasks h; trace := trace h |}.

Definition set_promises (l : list pcell) (h : Host) : Host :=
  {| handles := handles h; promises := l; timers := timers h;
     next_timer := next_timer h; microtasks := microtasks h; trace := trace h |}.

Definition set_timers (l : list (timer_id * Z)) (h : Host) : Host :=
  {| handles := handles h; promises := promises h; timers := l;
     next_timer := next_timer h; microtasks := microtasks h; trace := trace h |}.

Definition set_next_timer (n : timer_id) (h : Host) : Host :=
  {| handles := handles h; promises := promises h; timers := timers h;
     next_timer := n; microtasks := microtasks h; trace := trace h |}.

Definition set_microtasks (l : list job) (h : Host) : Host :=
  {| handles := handles h; promises := promises h; timers := timers h;
     next_timer := next_timer h; microtasks := l; trace := trace h |}.

Definition set_trace (l : list obs) (h : Host) : Host :=
  {| handles := handles h; promises := promises h; timers := timers h;
     next_timer := next_timer h; microtasks := microtasks h; trace := l |}.

Definition on_this (f : IntervalQueue → IntervalQueue) (w : World) : World :=
  {| this := f (this w); host := host w |}.

Definition on_host (f : Host → Host) (w : World) : World :=
  {| this := this w; host := f (host w) |}.

(** ** Host primitives *)

Definition log (o : obs) (w : World) : World :=
  on_host (set_trace (trace (host w) ++ [o])) w.

(** [setTimeout(callback, delay)]: every callback the class installs is the
    same closure, so a timer is its identity and its delay. *)
Definition setTimeout (delay : Z) (w : World) : World * timer_id :=
  let t := next_timer (host w) in
  (on_host (set_next_timer (S t)) (on_host (set_timers (timers (host w) ++ [(t, delay)])) w), t).

(** [clearTimeout(x)]: nothing happens for [null] or a timer that is gone. *)
Definition clearTimeout (x : option timer_id) (w : World) : World :=
  match x with
  | None => w
  | Some t => on_host (set_timers (filter (λ a, a.1 ≠ t) (timers (host w)))) w
  end.

Definition armed (t : timer_id) (w : World) : bool :=
  bool_decide (t ∈ (timers (host w)).*1).

Definition enqueue (j : job) (w : World) : World :=
  on_host (set_microtasks (microtasks (host w) ++ [j])) w.

Definition job_of (st : settlement) (r : reaction) : job :=
  match r with
  | RThen promise => JThen promise st
  | RAwaitCatch => JAwaitCatch
  | RFinally => JFinally st
  end.

(** [p.then(..)], [p.catch(..)], [p.finally(..)]: the reaction waits while
    [p] is pending and becomes a microtask at once when [p] is settled. *)
Definition subscribe (p : promise_id) (r : reaction) (w : World) : World :=
  match promises (host w) !! p with
  | Some c =>
      match pstate c with
      | None =>
          on_host (set_promises
            (<[p := {| pstate := None; reactions := reactions c ++ [r] |}]> (promises (host w)))) w
      | Some st => enqueue (job_of st r) w
      end
  | None => w (* not a promise of the store; [lastFnResult] never holds one *)
  end.

(** [promise.resolve(x)] and [promise.reject(e)] on a result promise: the
    call is recorded, and only the first one changes the promise. *)
Definition settle_handle (p : handle) (r : settlement) (w : World) : World :=
  let w := log (OSettle p r) w in
  match handles (host w) !! p with
  | Some None => on_host (set_handles (<[p := Some r]> (handles (host w)))) w
  | _ => w
  end.

(** The result promises whose reference nobody has: those created by the
    re-[add] of line 129, whose return value [trigger] drops. The promises
    [add] returns to the caller are the caller's to handle. *)
Definition discarded (p : handle) (tr : list obs) : bool :=
  existsb (λ o, match o with
                | OAdd ByLoop _ p' => bool_decide (p' = p)
                | _ => false
                end) tr.

(** [promise.reject(e)] on a result promise. A promise that becomes
    rejected with no handler on it is reported by the host as an unhandled
    rejection: that is the case of every discarded promise. *)
Definition reject_handle (p : handle) (e : data) (w : World) : World :=
  let unhandled :=
    bool_decide (handles (host w) !! p = Some None) && discarded p (trace (host w)) in
  let w := settle_handle p (Rejected e) w in
  if unhandled then log (OUncaught e) w else w.

(** [x instanceof Promise] *)
Definition instanceof_Promise (v : value) : option promise_id :=
  match v with
  | VPromise p => Some p
  | VData _ => None
  end.

(** ** The class *)

Definition default_options : IntervalQueueOptions :=
  {| awaitLastQueue := true; startTimer := Before; loop := false; timerForFirst := false |}.

(** [new IntervalQueue(intervalTime, options)] in a fresh host. *)
Definition new_IntervalQueue (t : Z) (o : IntervalQueueOptions) : World :=
  {| this := {| intervalTime := t; isTriggering := false; queue := [];
                returnPromises := []; lastFnResult := VData DNull; options := o;
                isFirst := true; paused := false; _currentTimeout := None |};
     host := {| handles := []; promises := []; timers := []; next_timer := 0;
                microtasks := []; trace := [] |} |}.

Definition _createTimeout (w : World) : World :=
  let w := on_this (set_isFirst false) w in
  let r := setTimeout (intervalTime (this w)) w in
  on_this (set_currentTimeout (Some r.2)) r.1.

Definition _createResultPromise (w : World) : World * handle :=
  (on_host (set_handles (handles (host w) ++ [None])) w, length (handles (host w))).

Definition clearLoop (w : World) : World :=
  on_this (set_isTriggering false) (clearTimeout (_currentTimeout (this w)) w).

(** The first three lines of [add]: push the entry, create its result
    promise, push the promise. *)
Definition push_entry (o : origin) (q : QueuedFunction) (w : World) : World * handle :=
  let w := on_this (set_queue (queue (this w) ++ [q])) w in
  let r := _createResultPromise w in
  let w := on_this (set_returnPromises (returnPromises (this r.1) ++ [r.2])) r.1 in
  (log (OAdd o q r.2) w, r.2).

(** [add] and [trigger] call each other ([add] ends with [this.trigger()],
    [trigger] re-adds the entry when [loop] is set), so each is written over
    the other as [rec], and [trigger_fuel] ties the knot. *)
Definition add_with (rec : World → option World) (o : origin) (q : QueuedFunction)
    (w : World) : option (World * handle) :=
  let r := push_entry o q w in
  w' ← rec r.1; Some (w', r.2).

(** Lines 125-126 of [trigger]: [this.queue.shift()] and
    [this.returnPromises.shift()]. [shift()] of an empty array changes
    nothing and yields [undefined]. *)
Definition shift (w : World) : World :=
  let w' := on_this (set_returnPromises (tail (returnPromises (this w))))
              (on_this (set_queue (tail (queue (this w)))) w) in
  match head (queue (this w)) with
  | Some queued => log (ODequeue queued (head (returnPromises (this w)))) w'
  | None => w'
  end.

Section Methods.
Context `{Behaviour}.

(** Lines 131-143 of [trigger]: run the function, wire its result to the
    result promise, start the next timer. A throw at line 131 rejects the
    promise of the async [trigger] and nothing after it runs. *)
Definition invoke (queued : QueuedFunction) (promise : option handle) (w : World) : World :=
  let w := log (OInvoke queued) w in
  match call (fn queued) (args queued) with
  | Throws e => log (OUncaught e) w
  | Returns d =>
      let w := on_this (set_lastFnResult (VData d)) w in
      match promise with
      | Some p => _createTimeout (settle_handle p (Fulfilled d) w)
      | None => log (OUncaught DTypeError) w
      end
  | ReturnsPromise init =>
      let p := length (promises (host w)) in
      let w := on_host (set_promises (promises (host w) ++ [{| pstate := init; reactions := [] |}])) w in
      let w := on_this (set_lastFnResult (VPromise p)) w in
      let w := subscribe p (RThen promise) w in
      match startTimer (options (this w)) with
      | After => subscribe p RFinally w
      | Before => _createTimeout w
      end
  end.

(** Lines 125-143 of [trigger], which is also what resumes after the
    [await]. When the queue is empty [queued] is [undefined], and
    [queued[0]] throws. *)
Definition dispatch_with (rec : World → option World) (w : World) : option World :=
  let promise := head (returnPromises (this w)) in
  match head (queue (this w)) with
  | None => Some (log (OUncaught DTypeError) (shift w))
  | Some queued =>
      let w := shift w in
      w' ← (if loop (options (this w))
            then fst <$> add_with rec ByLoop queued w
            else Some w);
      Some (invoke queued promise w')
  end.

Definition trigger_body (rec : World → option World) (w : World) : option World :=
  if paused (this w) then Some w
  else if isTriggering (this w) then Some w
  else match queue (this w) with
       | [] => Some (on_this (set_isFirst true) w)
       | _ :: _ =>
           let w := on_this (set_isTriggering true) w in
           if timerForFirst (options (this w)) && isFirst (this w)
           then Some (_createTimeout w)
           else
             match (if awaitLastQueue (options (this w))
                    then instanceof_Promise (lastFnResult (this w)) else None) with
             | Some p => Some (subscribe p RAwaitCatch w)
             | None => dispatch_with rec w
             end
       end.

Fixpoint trigger_fuel (n : nat) (w : World) : option World :=
  match n with
  | O => None
  | S n => trigger_body (trigger_fuel n) w
  end.

(** Two levels are all the nesting there is (see [trigger_fuel_enough]). *)
Definition fuel : nat := 2.

Definition trigger (w : World) : World := default w (trigger_fuel fuel w).

(** The continuation of [trigger] after [await]. *)
Definition resume (w : World) : World := default w (dispatch_with (trigger_fuel fuel) w).

Definition add (q : QueuedFunction) (w : World) : World * handle :=
  default (w, 0) (add_with (trigger_fuel fuel) ByCaller q w).

Definition runNext (w : World) : World := trigger (clearLoop w).

Definition setIntervalTime (t : Z) (w : World) : World :=
  runNext (on_this (set_intervalTime t) w).

Definition pause (w : World) : World :=
  clearLoop (on_this (set_isFirst true) (on_this (set_paused true) w)).

Definition unpause (w : World) : World :=
  trigger (on_this (set_paused false) w).

(** ** The event loop *)

(** The callback of every timer: [this.isTriggering = false; this.trigger()]. *)
Definition timeout_callback (w : World) : World :=
  trigger (on_this (set_isTriggering false) w).

(** One job of the microtask queue. A promise rejected with no handler on
    it is reported by the host: the promise [.finally] returns, the promise
    of the [.catch] chain when [promise] is [undefined], and a discarded
    result promise (see [reject_handle]). *)
Definition run_job (j : job) (w : World) : World :=
  match j with
  | JThen promise (Fulfilled d) =>
      match promise with
      | Some p => enqueue (JCatch promise (Fulfilled DUndefined)) (settle_handle p (Fulfilled d) w)
      | None => enqueue (JCatch promise (Rejected DTypeError)) w
      end
  | JThen promise (Rejected e) => enqueue (JCatch promise (Rejected e)) w
  | JCatch _ (Fulfilled _) => w
  | JCatch promise (Rejected e) =>
      match promise with
      | Some p => reject_handle p e w
      | None => log (OUncaught DTypeError) w
      end
  | JAwaitCatch => enqueue JResume w
  | JResume => resume w
  | JFinally st =>
      let w := _createTimeout w in
      match st with
      | Rejected e => log (OUncaught e) w
      | Fulfilled _ => w
      end
  end.

(** An operation's promise settles: its reactions become microtasks, in
    the order they were attached. *)
Definition settle_promise (p : promise_id) (st : settlement) (w : World) : World :=
  match promises (host w) !! p with
  | Some c =>
      match pstate c with
      | None =>
          let w := on_host (set_promises
                     (<[p := {| pstate := Some st; reactions := [] |}]> (promises (host w)))) w in
          on_host (set_microtasks (microtasks (host w) ++ (job_of st <$> reactions c))) w
      | Some _ => w
      end
  | None => w
  end.

Inductive event :=
  | EAdd (q : QueuedFunction)
  | ESetIntervalTime (t : Z)
  | EClearLoop
  | ERunNext
  | EPause
  | EUnpause
  | ETimeout (t : timer_id)
  | ESettle (p : promise_id) (st : settlement)
  | EMicrotask.

(** One step of the world. The caller may use the queue at any point, a
    pending promise may settle at any point, a microtask runs when there
    is one, and an armed timer fires only when no microtask is left.
    An event that cannot happen leaves the world as it is. *)
Definition step (e : event) (w : World) : World :=
  match e with
  | EAdd q => (add q w).1
  | ESetIntervalTime t => setIntervalTime t w
  | EClearLoop => clearLoop w
  | ERunNext => runNext w
  | EPause => pause w
  | EUnpause => unpause w
  | ETimeout t =>
      match microtasks (host w) with
      | [] => if armed t w then timeout_callback (clearTimeout (Some t) w) else w
      | _ :: _ => w
      end
  | ESettle p st => settle_promise p st w
  | EMicrotask =>
      match microtasks (host w) with
      | [] => w
      | j :: js => run_job j (on_host (set_microtasks js) w)
      end
  end.

Definition run (es : list event) (w : World) : World := foldl (flip step) w es.

Definition reachable (w : World) : Prop :=
  ∃ t o es, w = run es (new_IntervalQueue t o).

End Methods.

(** ** Reading the trace *)

(** The submissions, in order: every entry [add] pushed, with the result
    promise created for it. *)
Definition added (tr : list obs) : list (QueuedFunction * handle) :=
  omap (λ o, match o with OAdd _ q p => Some (q, p) | _ => None end) tr.

(** The entries taken off the queue, in order, each with the result promise
    taken off [returnPromises] with it. *)
Definition dequeued (tr : list obs) : list (QueuedFunction * option handle) :=
  omap (λ o, match o with ODequeue q p => Some (q, p) | _ => None end) tr.

(** The functions run, in order. *)
Definition invoked (tr : list obs) : list QueuedFunction :=
  omap (λ o, match o with OInvoke q => Some q | _ => None end) tr.


(** The calls of [promise.resolve] and [promise.reject] on [p]. *)
Definition settlements (p : handle) (tr : list obs) : list settlement :=
  omap (λ x, match x with
             | OSettle p' r => if decide (p' = p) then Some r else None
             | _ => None
             end) tr.

Definition with_handle (x : QueuedFunction * handle) : QueuedFunction * option handle :=
  (x.1, Some x.2).

(** What is waiting: entry [i] of the queue with result promise [i]. *)
Definition waiting (w : World) : list (QueuedFunction * handle) :=
  zip (queue (this w)) (returnPromises (this w)).

(** What [w'] has observed beyond [w]. *)
Definition since (w w' : World) : list obs :=
  drop (length (trace (host w))) (trace (host w')).

(** The trace only grows: [w'] has seen all that [w] has. *)
Definition extends (w w' : World) : Prop :=
  ∃ tr, trace (host w') = trace (host w) ++ tr.

(** Observations that say nothing about the queue. *)
Definition quiet (o : obs) : Prop :=
  match o with
  | OSettle _ _ | OUncaught _ => True
  | _ => False
  end.

(** [w'] differs from [w] in nothing the queue discipline depends on. *)
Record frame (w w' : World) : Prop := {
  fr_queue : queue (this w') = queue (this w);
  fr_promises : returnPromises (this w') = returnPromises (this w);
  fr_options : options (this w') = options (this w);
  fr_handles : length (handles (host w')) = length (handles (host w));
  fr_trace : ∃ tr, trace (host w') = trace (host w) ++ tr ∧ Forall quiet tr
}.

(** A property of worlds that the building blocks of the class preserve.
    With [loop] off nothing runs between taking an entry and invoking it, so
    the two are one block there. *)
Record closed (P : World → Prop) : Prop := {
  cl_frame : ∀ w w', frame w w' → P w → P w';
  cl_push : ∀ o q w, P w → P (push_entry o q w).1;
  cl_shift_empty : ∀ w, queue (this w) = [] → P w → P (shift w);
  cl_shift_loop : ∀ w, loop (options (this w)) = true → P w → P (shift w);
  cl_invoke_loop : ∀ q w, loop (options (this w)) = true → P w → P (log (OInvoke q) w);
  cl_shift_invoke : ∀ q w,
    loop (options (this w)) = false → head (queue (this w)) = Some q →
    P w → P (log (OInvoke q) (shift w))
}.

(** [P] in a queue whose options are [o]. *)
Definition under (o : IntervalQueueOptions) (P : World → Prop) (w : World) : Prop :=
  P w ∧ options (this w) = o.

(** The queue discipline. *)
Record fifo (w : World) : Prop := {
  fifo_length : length (queue (this w)) = length (returnPromises (this w));
  fifo_order :
    dequeued (trace (host w)) ++ (with_handle <$> waiting w)
    = with_handle <$> added (trace (host w));
  fifo_alloc : ∀ x, x ∈ added (trace (host w)) → x.2 < length (handles (host w));
  fifo_fresh : NoDup (added (trace (host w))).*2
}.

(** The two arrays have the same length. *)
Definition aligned (w : World) : Prop :=
  length (queue (this w)) = length (returnPromises (this w)).

(** Without [loop], the functions run are the entries taken, in the order
    they were taken. *)
Definition in_order (w : World) : Prop :=
  loop (options (this w)) = false →
  invoked (trace (host w)) = (dequeued (trace (host w))).*1.

(** The events of a run in which the caller does nothing but [add]. *)
Definition add_only (e : event) : bool :=
  match e with
  | EAdd _ | ETimeout _ | ESettle _ _ | EMicrotask => true
  | _ => false
  end.

(** What will take the current round further: an armed timer, a round
    suspended at its [await], or a [finally] yet to arm the timer. *)
Definition reaction_round (r : reaction) : nat :=
  match r with
  | RThen _ => 0
  | RAwaitCatch | RFinally => 1
  end.

Definition job_round (j : job) : nat :=
  match j with
  | JThen _ _ | JCatch _ _ => 0
  | JAwaitCatch | JResume | JFinally _ => 1
  end.

Definition cell_round (c : pcell) : nat := sum_list_with reaction_round (reactions c).

Definition pending_rounds (w : World) : nat :=
  length (timers (host w))
  + sum_list_with cell_round (promises (host w))
  + sum_list_with job_round (microtasks (host w)).

(** [w'] has the flag of [w] and at most [k] more pending continuations. *)
Definition rounds (k : nat) (w w' : World) : Prop :=
  isTriggering (this w') = isTriggering (this w)
  ∧ pending_rounds w' ≤ pending_rounds w + k.

(** One round at a time: at most one continuation is pending, none when
    the flag is down, and every entry taken so far was run before the next
    one was taken. *)
Record single (w : World) : Prop := {
  sg_one : pending_rounds w ≤ 1;
  sg_idle : isTriggering (this w) = false → pending_rounds w = 0;
  sg_order : invoked (trace (host w)) = (dequeued (trace (host w))).*1
}.

(** ** Sample operations and worlds *)

(** Six functions to run the class on: [() => {}], an [async] function
    whose promise is still pending, [() => { throw 2 }], [() => 3],
    [async () => 4] and [async () => { throw 5 }]. *)
Definition demo : Behaviour :=
  λ f _, match f with
         | 0 => Returns DUndefined
         | 1 => ReturnsPromise None
         | 2 => Throws (DVal 2)
         | 3 => Returns (DVal 3)
         | 4 => ReturnsPromise (Some (Fulfilled (DVal 4)))
         | _ => ReturnsPromise (Some (Rejected (DVal 5)))
         end.

Definition op (f : fn_id) : QueuedFunction := {| fn := f; args := [] |}.

(** [new IntervalQueue()] *)
Definition fresh : World := new_IntervalQueue 2000 default_options.

(** [new IntervalQueue(2000, { loop: true })] *)
Definition fresh_loop : World :=
  new_IntervalQueue 2000
    {| awaitLastQueue := true; startTimer := Before; loop := true; timerForFirst := false |}.

(** [new IntervalQueue(2000, { timerForFirst: true })] *)
Definition fresh_delayed : World :=
  new_IntervalQueue 2000
    {| awaitLastQueue := true; startTimer := Before; loop := false; timerForFirst := true |}.

(** [add(async () => 4)], the microtasks, then the timer: the queue is
    empty again and no round is in progress. *)
Definition idle_after_async : World :=
  @run demo [EAdd (op 4); EMicrotask; EMicrotask; ETimeout 0] fresh.

(** [add] of a function whose promise is pending, then [add(() => 3)]. *)
Definition busy_with_async : World :=
  @run demo [EAdd (op 1); EAdd (op 3)] fresh.

(** [add(() => {})], then [add(() => 3)]. *)
Definition two_sync : World :=
  @run demo [EAdd (op 0); EAdd (op 3)] fresh.

(** [new IntervalQueue(2000, { loop: true })] after [add(() => {})]: the
    entry has run once and is back in the queue. *)
Definition looping : World := @run demo [EAdd (op 0)] fresh_loop.

(** [add(() => { throw 2 })] on a new queue. *)
Definition after_throw : World := @run demo [EAdd (op 2)] fresh.

(** [add(() => { throw 2 })], then [add(() => 3)]. *)
Definition stalled : World := @run demo [EAdd (op 2); EAdd (op 3)] fresh.

(** [add] of a function whose promise is pending and of three more
    functions; the timer fires and the round waits for the promise;
    [runNext()] starts a second round, which waits for it too; the promise is
    fulfilled and both rounds go on: each runs an entry and arms a timer. *)
Definition two_timers : World :=
  @run demo
    [EAdd (op 1); EAdd (op 3); EAdd (op 0); EAdd (op 3); ETimeout 0; ERunNext;
     ESettle 0 (Fulfilled (DVal 1));
     EMicrotask; EMicrotask; EMicrotask; EMicrotask; EMicrotask; EMicrotask]
    fresh.


(** The events that do not call [clearLoop]. *)
Definition gentle (e : event) : bool :=
  match e with
  | EClearLoop | ERunNext | ESetIntervalTime _ | EPause => false
  | _ => true
  end.

(** A queue whose flag is up with nothing left to lower it. *)
Definition stuck (w : World) : Prop :=
  isTriggering (this w) = true
  ∧ timers (host w) = []
  ∧ microtasks (host w) = []
  ∧ promises (host w) = [].

(** The result promise a reaction or a job would settle. *)
Definition reaction_handle (r : reaction) : option handle :=
  match r with
  | RThen p => p
  | _ => None
  end.

Definition job_handle (j : job) : option handle :=
  match j with
  | JThen p _ | JCatch p _ => p
  | _ => None
  end.

(** The result promise [h] is pending and nothing in the world refers to
    it any more: it is not in [returnPromises], no reaction and no job would
    settle it, and nobody has called its [resolve] or [reject]. *)
Record dangling (h : handle) (w : World) : Prop := {
  dg_pending : handles (host w) !! h = Some None;
  dg_queue : h ∉ returnPromises (this w);
  dg_reactions : ∀ i c r,
    promises (host w) !! i = Some c → r ∈ reactions c → reaction_handle r ≠ Some h;
  dg_jobs : ∀ j, j ∈ microtasks (host w) → job_handle j ≠ Some h;
  dg_silent : settlements h (trace (host w)) = []
}.

(** With [loop]: a running [async] function and [() => 3] behind it, two
    rounds suspended on the same promise by two calls of [runNext], and a
    [clearLoop()] by the caller between the two resumptions. *)
Definition nested_round : World :=
  @run demo
    [EAdd (op 1); EAdd (op 3); ERunNext; ESettle 0 (Fulfilled (DVal 1));
     EMicrotask; EMicrotask; EMicrotask; EMicrotask;
     ERunNext; ERunNext; ESettle 1 (Fulfilled (DVal 1));
     EMicrotask; EMicrotask; EMicrotask; EMicrotask; EMicrotask;
     EClearLoop; EMicrotask]
    fresh_loop.

(** An [async] function is running and [() => 3] waits behind it; the
    timer has fired, so a round is suspended on the running function's
    promise; then [pause()]. *)
Definition paused_mid_round : World :=
  @run demo [EAdd (op 1); EAdd (op 3); ETimeout 0; EPause] fresh.

(** ... and then the running function's promise resolves and the
    microtasks run. Nobody has called [unpause()]. *)
Definition resumed_while_paused : World :=
  @run demo [ESettle 0 (Fulfilled (DVal 1)); EMicrotask; EMicrotask; EMicrotask; EMicrotask]
    paused_mid_round.

(** Who may still settle the result promise [h]: it waits in
    [returnPromises], a [then] reaction or a job holds it, or it has been
    settled. [tokens] counts these. *)
Definition holds (h : handle) (o : option handle) : nat :=
  if decide (o = Some h) then 1 else 0.

Definition reaction_token (h : handle) (r : reaction) : nat :=
  holds h (reaction_handle r).

Definition job_token (h : handle) (j : job) : nat :=
  match j with
  | JThen p _ => holds h p
  | JCatch p (Rejected _) => holds h p
  | _ => 0
  end.

Definition tokens (h : handle) (w : World) : nat :=
  sum_list_with (λ p, holds h (Some p)) (returnPromises (this w))
  + sum_list_with (λ c, sum_list_with (reaction_token h) (reactions c)) (promises (host w))
  + sum_list_with (job_token h) (microtasks (host w))
  + length (settlements h (trace (host w))).

(** [h] is created between [w] and [w']. *)
Definition created (h : handle) (w w' : World) : nat :=
  if decide (length (handles (host w)) ≤ h < length (handles (host w'))) then 1 else 0.

(** A settled result promise was settled by a recorded call. *)
Definition sound (h : handle) (w : World) : Prop :=
  ∀ r, handles (host w) !! h = Some (Some r) → r ∈ settlements h (trace (host w)).

(** From [w] to [w'] result promises are only added, [h] gains at most [k]
    tokens beyond the one of its creation, and its state stays sound. *)
Definition upto (h : handle) (k : nat) (w w' : World) : Prop :=
  length (handles (host w)) ≤ length (handles (host w'))
  ∧ tokens h w' ≤ tokens h w + k + created h w w'
  ∧ (sound h w → sound h w').

(** The rounds suspended at the [await] of line 123: they go on to run an
    entry without any timer. *)
Definition await_reaction (r : reaction) : nat :=
  match r with
  | RAwaitCatch => 1
  | _ => 0
  end.

Definition await_job (j : job) : nat :=
  match j with
  | JAwaitCatch | JResume => 1
  | _ => 0
  end.

Definition awaiting (w : World) : nat :=
  sum_list_with (λ c, sum_list_with await_reaction (reactions c)) (promises (host w))
  + sum_list_with await_job (microtasks (host w)).

(** [w'] has at most [k] more suspended rounds and functions run than [w]. *)
Definition paced (k : nat) (w w' : World) : Prop :=
  awaiting w' + length (invoked (trace (host w')))
  ≤ awaiting w + length (invoked (trace (host w))) + k.

(** [w'] has the flag of [w], has seen all that [w] has, and no function
    was run and no round suspended in between. *)
Definition calm (w w' : World) : Prop :=
  isTriggering (this w') = isTriggering (this w) ∧ paced 0 w w' ∧ extends w w'.

(** [w'] is paused if [w] is, has the queue of [w], and no function was
    run and no round suspended in between. *)
Definition still (w w' : World) : Prop :=
  paused (this w') = paused (this w) ∧ paced 0 w w' ∧ frame w w'.

(** [lastFnResult], when it is a promise, is one of the store. *)
Definition valid_last (w : World) : Prop :=
  ∀ p, lastFnResult (this w) = VPromise p → p < length (promises (host w)).

(** The promise of the function run last has settled (or the function
    returned none). *)
Definition last_settled (w : World) : Prop :=
  ∀ p, lastFnResult (this w) = VPromise p →
       ∃ c st, promises (host w) !! p = Some c ∧ pstate c = Some st.

(** A round suspended at the [await] has an entry to run and waits for the
    promise in [lastFnResult]; its continuation is a microtask only once
    that promise has settled. *)
Record steady (w : World) : Prop := {
  sd_last : valid_last w;
  sd_queue : 1 ≤ awaiting w → queue (this w) ≠ [];
  sd_on : ∀ i c, promises (host w) !! i = Some c →
            1 ≤ sum_list_with await_reaction (reactions c) →
            lastFnResult (this w) = VPromise i;
  sd_job : 1 ≤ sum_list_with await_job (microtasks (host w)) → last_settled w
}.

(** A round in progress has something to take it further. *)
Definition live (w : World) : Prop :=
  isTriggering (this w) = true → 1 ≤ pending_rounds w.

(** [new IntervalQueue(2000, { startTimer: 'after' })] *)
Definition fresh_after : World :=
  new_IntervalQueue 2000
    {| awaitLastQueue := true; startTimer := After; loop := false; timerForFirst := false |}.

(** Functions that do not throw: [() => {}], an [async] function whose
    promise is pending, and [() => 3]. *)
Definition polite : Behaviour :=
  λ f _, match f with
         | 0 => Returns DUndefined
         | 1 => ReturnsPromise None
         | _ => Returns (DVal 3)
         end.

(** An idle queue that is not paused is at a first run. *)
Definition first_when_idle (w : World) : Prop :=
  paused (this w) = false → isTriggering (this w) = false → isFirst (this w) = true.

(** [new IntervalQueue(2000, { loop: true, awaitLastQueue: false })] *)
Definition fresh_cycle : World :=
  new_IntervalQueue 2000
    {| awaitLastQueue := false; startTimer := Before; loop := true; timerForFirst := false |}.

(** The functions that can be run before a timer expires: one when the
    flag is down (the next [add] runs its entry), else one for each
    suspended round. *)
Definition ready (w : World) : nat :=
  if isTriggering (this w) then awaiting w else 1.

(** The timer callbacks run by the events [es] from [w] on. *)
Definition fires (e : event) (w : World) : nat :=
  match e with
  | ETimeout t =>
      match microtasks (host w) with
      | [] => if armed t w then 1 else 0
      | _ :: _ => 0
      end
  | _ => 0
  end.

Fixpoint fired `{Behaviour} (es : list event) (w : World) : nat :=
  match es with
  | [] => 0
  | e :: es => fires e w + fired es (step e w)
  end.

(** The functions the events [es] add. *)
Definition adds (es : list event) : list QueuedFunction :=
  omap (λ e, match e with EAdd q => Some q | _ => None end) es.

(** The timer the queue holds, if it is still armed, runs for the current
    [intervalTime]; timer ids are not reused. *)
Definition timely (w : World) : Prop :=
  Forall (λ a, a.1 < next_timer (host w)) (timers (host w))
  ∧ ∀ t d, _currentTimeout (this w) = Some t →
           (t, d) ∈ timers (host w) → d = intervalTime (this w).

(** * Properties *)

(** ** Termination of the mutual recursion *)

Section Fuel.
Context `{Behaviour}.

Lemma trigger_body_busy rec w :
  isTriggering (this w) = true → trigger_body rec w = Some w.
Proof. intros Hw. unfold trigger_body. rewrite Hw. by destruct (paused (this w)). Qed.

Lemma trigger_fuel_busy n w :
  isTriggering (this w) = true → trigger_fuel (S n) w = Some w.
Proof. apply trigger_body_busy. Qed.

Lemma push_entry_isTriggering o q w :
  isTriggering (this (push_entry o q w).1) = isTriggering (this w).
Proof. done. Qed.

Lemma shift_isTriggering w : isTriggering (this (shift w)) = isTriggering (this w).
Proof. unfold shift. by destruct (head (queue (this w))). Qed.

Lemma shift_options w : options (this (shift w)) = options (this w).
Proof. unfold shift. by destruct (head (queue (this w))). Qed.

(** Inside a round the flag is up, so the nested [this.trigger()] of a
    re-[add] returns at once whatever it is. *)
Lemma add_with_busy rec o q w :
  (∀ w', isTriggering (this w') = true → rec w' = Some w') →
  isTriggering (this w) = true →
  add_with rec o q w = Some (push_entry o q w).
Proof.
  intros Hrec Hw. unfold add_with.
  rewrite Hrec by done. by destruct (push_entry o q w).
Qed.

Lemma dispatch_with_busy rec w :
  (∀ w', isTriggering (this w') = true → rec w' = Some w') →
  isTriggering (this w) = true →
  dispatch_with rec w = dispatch_with Some w.
Proof.
  intros Hrec Hw. unfold dispatch_with.
  destruct (head (queue (this w))) as [queued|]; [|done].
  destruct (loop (options (this (shift w)))); [|done].
  rewrite !add_with_busy; try done; by rewrite shift_isTriggering.
Qed.

Lemma trigger_body_ext rec w :
  (∀ w', isTriggering (this w') = true → rec w' = Some w') →
  trigger_body rec w = trigger_body Some w.
Proof.
  intros Hrec. unfold trigger_body.
  repeat case_match; try done; by apply dispatch_with_busy.
Qed.

Lemma dispatch_with_is_Some rec w :
  (∀ w', is_Some (rec w')) → is_Some (dispatch_with rec w).
Proof.
  intros Hrec. unfold dispatch_with, add_with.
  destruct (head (queue (this w))) as [queued|]; [|done].
  destruct (loop (options (this (shift w)))); [|done].
  destruct (Hrec (push_entry ByLoop queued (shift w)).1) as [w' ->]. done.
Qed.

Lemma trigger_body_is_Some rec w :
  (∀ w', is_Some (rec w')) → is_Some (trigger_body rec w).
Proof.
  intros Hrec. unfold trigger_body.
  repeat case_match; try done; by apply dispatch_with_is_Some.
Qed.

Lemma trigger_fuel_unfold n w :
  trigger_fuel (S (S n)) w = trigger_body Some w.
Proof.
  cbn [trigger_fuel]. apply trigger_body_ext.
  intros w' Hw'. by apply trigger_body_busy.
Qed.

(** With [fuel] or more the round always returns, and always the same. *)
Lemma trigger_fuel_enough n w :
  fuel ≤ n → trigger_fuel n w = Some (trigger w).
Proof.
  intros Hn. unfold trigger, fuel in *.
  destruct n as [|[|n]]; [lia..|].
  rewrite !trigger_fuel_unfold.
  by destruct (trigger_body_is_Some Some w) as [w' ->].
Qed.

Lemma trigger_eq w : trigger_body Some w = Some (trigger w).
Proof. rewrite <-(trigger_fuel_unfold 0). by apply trigger_fuel_enough. Qed.

Lemma dispatch_with_ext rec rec' w :
  (∀ w', rec w' = rec' w') → dispatch_with rec w = dispatch_with rec' w.
Proof.
  intros Hrec. unfold dispatch_with, add_with.
  destruct (head (queue (this w))); [|done].
  destruct (loop (options (this (shift w)))); [|done].
  by rewrite Hrec.
Qed.

Lemma resume_fuel_enough n w :
  fuel ≤ n → dispatch_with (trigger_fuel n) w = Some (resume w).
Proof.
  intros Hn. unfold resume.
  rewrite (dispatch_with_ext _ (trigger_fuel fuel)).
  - destruct (dispatch_with_is_Some (trigger_fuel fuel) w) as [w' ->]; [|done].
    intros w'. by rewrite trigger_fuel_enough.
  - intros w'. by rewrite !trigger_fuel_enough.
Qed.

Lemma resume_eq w : dispatch_with (λ w', Some (trigger w')) w = Some (resume w).
Proof.
  rewrite <-(resume_fuel_enough fuel) by done.
  apply dispatch_with_ext. intros w'. by rewrite trigger_fuel_enough.
Qed.

Lemma add_fuel_enough n q w :
  fuel ≤ n →
  add_with (trigger_fuel n) ByCaller q w
  = Some (trigger (push_entry ByCaller q w).1, (push_entry ByCaller q w).2).
Proof. intros Hn. unfold add_with. by rewrite trigger_fuel_enough. Qed.

Lemma add_eq q w :
  add q w = (trigger (push_entry ByCaller q w).1, (push_entry ByCaller q w).2).
Proof. unfold add. by rewrite add_fuel_enough. Qed.

End Fuel.

(** ** Frames *)

Section Frames.
Context `{Behaviour}.

Lemma frame_refl w : frame w w.
Proof. split; try done. exists []. by rewrite app_nil_r. Qed.

Lemma frame_trans w1 w2 w3 : frame w1 w2 → frame w2 w3 → frame w1 w3.
Proof.
  intros [Hq Hp Ho Hh (tr & Ht & Hf)] [Hq' Hp' Ho' Hh' (tr' & Ht' & Hf')].
  split; try congruence.
  exists (tr ++ tr'). split; [|by apply Forall_app].
  by rewrite Ht', Ht, app_assoc.
Qed.

(** Tactic for the one-step frames below. *)
Ltac frame_now :=
  split; simpl; try done; exists []; by rewrite app_nil_r.

Lemma frame_isTriggering b w : frame w (on_this (set_isTriggering b) w).
Proof. frame_now. Qed.

Lemma frame_isFirst b w : frame w (on_this (set_isFirst b) w).
Proof. frame_now. Qed.

Lemma frame_paused b w : frame w (on_this (set_paused b) w).
Proof. frame_now. Qed.

Lemma frame_lastFnResult v w : frame w (on_this (set_lastFnResult v) w).
Proof. frame_now. Qed.

Lemma frame_intervalTime t w : frame w (on_this (set_intervalTime t) w).
Proof. frame_now. Qed.

Lemma frame_promises l w : frame w (on_host (set_promises l) w).
Proof. frame_now. Qed.

Lemma frame_microtasks l w : frame w (on_host (set_microtasks l) w).
Proof. frame_now. Qed.

Lemma frame_enqueue j w : frame w (enqueue j w).
Proof. frame_now. Qed.

Lemma frame_createTimeout w : frame w (_createTimeout w).
Proof. frame_now. Qed.

Lemma frame_clearTimeout x w : frame w (clearTimeout x w).
Proof. destruct x; frame_now. Qed.

Lemma frame_clearLoop w : frame w (clearLoop w).
Proof.
  unfold clearLoop. eapply frame_trans; [apply frame_clearTimeout|].
  apply frame_isTriggering.
Qed.

Lemma frame_log o w : quiet o → frame w (log o w).
Proof. intros Ho. split; simpl; try done. exists [o]. by rewrite Forall_singleton. Qed.

Lemma frame_subscribe p r w : frame w (subscribe p r w).
Proof.
  unfold subscribe. destruct (promises (host w) !! p) as [c|]; [|apply frame_refl].
  destruct (pstate c); [apply frame_enqueue|apply frame_promises].
Qed.

Lemma frame_settle_handle p r w : frame w (settle_handle p r w).
Proof.
  unfold settle_handle.
  eapply frame_trans; [apply (frame_log (OSettle p r)); done|].
  destruct (handles (host (log (OSettle p r) w)) !! p) as [[?|]|]; try apply frame_refl.
  split; simpl; try done; [by rewrite length_insert|].
  exists []. by rewrite app_nil_r.
Qed.

Lemma frame_reject_handle p e w : frame w (reject_handle p e w).
Proof.
  unfold reject_handle. cbv zeta. destruct (_ && _); [|apply frame_settle_handle].
  eapply frame_trans; [apply frame_settle_handle|by apply frame_log].
Qed.

Lemma frame_settle_promise p st w : frame w (settle_promise p st w).
Proof.
  unfold settle_promise. destruct (promises (host w) !! p) as [c|]; [|apply frame_refl].
  destruct (pstate c); [apply frame_refl|]. frame_now.
Qed.

(** After the call itself nothing of [invoke] touches the queue. *)
Lemma frame_invoke q p w : frame (log (OInvoke q) w) (invoke q p w).
Proof.
  unfold invoke. cbv zeta. destruct (call (fn q) (args q)) as [d|e|init].
  - eapply frame_trans; [apply (frame_lastFnResult (VData d))|].
    destruct p as [p|]; [|by apply frame_log].
    eapply frame_trans; [apply frame_settle_handle|apply frame_createTimeout].
  - by apply frame_log.
  - eapply frame_trans; [apply frame_promises|].
    eapply frame_trans; [apply frame_lastFnResult|].
    eapply frame_trans; [apply frame_subscribe|].
    match goal with |- context [startTimer ?o] => destruct (startTimer o) end.
    + apply frame_createTimeout.
    + apply frame_subscribe.
Qed.

End Frames.

(** ** Closed properties hold along every run *)

Section Closure.
Context `{Behaviour} (P : World → Prop) (HP : closed P) (o : IntervalQueueOptions).

Local Abbreviation Q := (under o P).

Lemma under_frame w w' : frame w w' → Q w → Q w'.
Proof.
  intros Hf [HPw Ho]. split; [by eapply cl_frame|].
  by rewrite (fr_options _ _ Hf).
Qed.

Lemma under_push og q w : Q w → Q (push_entry og q w).1.
Proof. intros [HPw Ho]. split; [by apply cl_push|done]. Qed.

Lemma under_invoke q p w :
  Q (log (OInvoke q) w) → Q (invoke q p w).
Proof. apply under_frame, frame_invoke. Qed.

Lemma under_dispatch rec w w' :
  (∀ v v', Q v → rec v = Some v' → Q v') →
  Q w → dispatch_with rec w = Some w' → Q w'.
Proof.
  intros Hrec [HPw Ho]. unfold dispatch_with, add_with.
  destruct (head (queue (this w))) as [queued|] eqn:Hhd.
  - rewrite shift_options, Ho.
    destruct (loop o) eqn:Hloop.
    + destruct (rec _) as [v'|] eqn:Hv; [|done]. intros [= <-].
      apply Hrec in Hv as [HPv Hov].
      * apply under_invoke. split; [|done].
        apply cl_invoke_loop; [done|congruence|done].
      * apply under_push. split; [|by rewrite shift_options].
        apply cl_shift_loop; [done|congruence|done].
    + intros [= <-]. apply under_invoke. split.
      * apply cl_shift_invoke; [done|congruence|done..].
      * simpl. by rewrite shift_options.
  - intros [= <-]. apply (under_frame (shift w)); [by apply frame_log|].
    split; [|by rewrite shift_options].
    apply cl_shift_empty; [done| |done]. by destruct (queue (this w)).
Qed.

Lemma under_trigger_body rec w w' :
  (∀ v v', Q v → rec v = Some v' → Q v') →
  Q w → trigger_body rec w = Some w' → Q w'.
Proof.
  intros Hrec HQ. unfold trigger_body.
  destruct (paused (this w)); [by intros [= <-]|].
  destruct (isTriggering (this w)); [by intros [= <-]|].
  destruct (queue (this w)) eqn:Hq.
  { intros [= <-]. eapply under_frame; [apply frame_isFirst|done]. }
  clear Hq.
  assert (Q (on_this (set_isTriggering true) w)) as HQ'.
  { eapply under_frame; [apply frame_isTriggering|done]. }
  destruct (_ && _).
  { intros [= <-]. eapply under_frame; [apply frame_createTimeout|done]. }
  destruct (if awaitLastQueue _ then _ else _) as [p|].
  { intros [= <-]. eapply under_frame; [apply frame_subscribe|done]. }
  by apply under_dispatch.
Qed.

Lemma under_trigger_fuel n w w' : Q w → trigger_fuel n w = Some w' → Q w'.
Proof.
  revert w w'. induction n as [|n IH]; intros w w' HQ; [done|].
  cbn [trigger_fuel]. by apply under_trigger_body.
Qed.

Lemma under_trigger w : Q w → Q (trigger w).
Proof.
  intros HQ. eapply under_trigger_fuel; [done|].
  by apply (trigger_fuel_enough fuel).
Qed.

Lemma under_resume w : Q w → Q (resume w).
Proof.
  intros HQ. eapply under_dispatch; [|done|apply (resume_fuel_enough fuel); done].
  intros v v'. apply under_trigger_fuel.
Qed.

Lemma under_add q w : Q w → Q (add q w).1.
Proof. intros HQ. rewrite add_eq. by apply under_trigger, under_push. Qed.

Lemma under_clearLoop w : Q w → Q (clearLoop w).
Proof. apply under_frame, frame_clearLoop. Qed.

Lemma under_runNext w : Q w → Q (runNext w).
Proof. intros HQ. by apply under_trigger, under_clearLoop. Qed.

Lemma under_run_job j w : Q w → Q (run_job j w).
Proof.
  intros HQ. destruct j as [[p|] [d|e]|[p|] [d|e]| | |st]; simpl; try done.
  - eapply under_frame; [apply frame_enqueue|].
    eapply under_frame; [apply frame_settle_handle|done].
  - eapply under_frame; [apply frame_enqueue|done].
  - eapply under_frame; [apply frame_enqueue|done].
  - eapply under_frame; [apply frame_enqueue|done].
  - eapply under_frame; [apply frame_reject_handle|done].
  - eapply under_frame; [by apply frame_log|done].
  - eapply under_frame; [apply frame_enqueue|done].
  - by apply under_resume.
  - assert (Q (_createTimeout w)) as HQ'.
    { eapply under_frame; [apply frame_createTimeout|done]. }
    destruct st; [done|]. eapply under_frame; [by apply frame_log|done].
Qed.

Lemma under_step e w : Q w → Q (step e w).
Proof.
  intros HQ. destruct e; simpl.
  - by apply under_add.
  - apply under_runNext. eapply under_frame; [apply frame_intervalTime|done].
  - by apply under_clearLoop.
  - by apply under_runNext.
  - apply under_clearLoop.
    eapply under_frame; [apply frame_isFirst|].
    eapply under_frame; [apply frame_paused|done].
  - apply under_trigger. eapply under_frame; [apply frame_paused|done].
  - destruct (microtasks (host w)); [|done].
    destruct (armed t w); [|done].
    apply under_trigger.
    eapply under_frame; [apply frame_isTriggering|].
    eapply under_frame; [apply (frame_clearTimeout (Some t))|done].
  - eapply under_frame; [apply frame_settle_promise|done].
  - destruct (microtasks (host w)) as [|j js]; [done|].
    apply under_run_job. eapply under_frame; [apply frame_microtasks|done].
Qed.

Lemma under_run es w : Q w → Q (run es w).
Proof.
  revert w. induction es as [|e es IH]; intros w HQ; [done|].
  simpl. by apply IH, under_step.
Qed.

End Closure.

Section ClosedRuns.
Context `{Behaviour}.

Lemma closed_step P e w : closed P → P w → P (step e w).
Proof.
  intros HP HPw.
  by apply (under_step P HP (options (this w)) e w).
Qed.

Lemma closed_run P es w : closed P → P w → P (run es w).
Proof.
  intros HP HPw.
  by apply (under_run P HP (options (this w)) es w).
Qed.

Lemma options_run es w : options (this (run es w)) = options (this w).
Proof.
  assert (closed (λ _, True)) as HT by (by split).
  by apply (under_run _ HT (options (this w)) es w).
Qed.

End ClosedRuns.

(** ** The queue discipline is kept *)

Section Fifo.
Context `{Behaviour}.

Lemma added_app tr tr' : added (tr ++ tr') = added tr ++ added tr'.
Proof. apply omap_app. Qed.

Lemma dequeued_app tr tr' : dequeued (tr ++ tr') = dequeued tr ++ dequeued tr'.
Proof. apply omap_app. Qed.

Lemma invoked_app tr tr' : invoked (tr ++ tr') = invoked tr ++ invoked tr'.
Proof. apply omap_app. Qed.

Lemma quiet_silent tr :
  Forall quiet tr → added tr = [] ∧ dequeued tr = [] ∧ invoked tr = [].
Proof.
  induction 1 as [|x tr Hx _ (IHa & IHd & IHi)]; [done|].
  by destruct x.
Qed.

Lemma fifo_same w w' :
  queue (this w') = queue (this w) →
  returnPromises (this w') = returnPromises (this w) →
  length (handles (host w')) = length (handles (host w)) →
  added (trace (host w')) = added (trace (host w)) →
  dequeued (trace (host w')) = dequeued (trace (host w)) →
  fifo w → fifo w'.
Proof.
  intros Hq Hp Hh Ha Hd [Hlen Hord Hal Hfr].
  split; unfold waiting in *; rewrite ?Hq, ?Hp, ?Hh, ?Ha, ?Hd; done.
Qed.

Lemma fifo_frame w w' : frame w w' → fifo w → fifo w'.
Proof.
  intros [Hq Hp _ Hh (tr & Ht & Hquiet)].
  destruct (quiet_silent tr Hquiet) as (Ha & Hd & _).
  apply fifo_same; try done.
  - by rewrite Ht, added_app, Ha, app_nil_r.
  - by rewrite Ht, dequeued_app, Hd, app_nil_r.
Qed.

Lemma fifo_push o q w : fifo w → fifo (push_entry o q w).1.
Proof.
  intros [Hlen Hord Hal Hfr].
  split; unfold waiting; simpl.
  - rewrite !length_app. simpl. lia.
  - rewrite added_app, dequeued_app. simpl. rewrite app_nil_r.
    rewrite zip_with_app by done. simpl.
    rewrite !fmap_app, app_assoc. by f_equal.
  - intros x. rewrite added_app, length_app. simpl.
    intros [Hx| ->%list_elem_of_singleton]%elem_of_app; simpl; [|lia].
    apply Hal in Hx. lia.
  - rewrite added_app, fmap_app. simpl.
    apply NoDup_app. split_and!; [done| |apply NoDup_singleton].
    intros p (x & -> & Hx)%list_elem_of_fmap Hp%list_elem_of_singleton.
    apply Hal in Hx. lia.
Qed.

Lemma fifo_shift w : fifo w → fifo (shift w).
Proof.
  intros [Hlen Hord Hal Hfr]. unfold shift, waiting in *.
  destruct (queue (this w)) as [|q rest] eqn:Hq;
    destruct (returnPromises (this w)) as [|p prest] eqn:Hp; simplify_eq/=.
  - split; unfold waiting; simpl; by rewrite ?Hq, ?Hp.
  - split; unfold waiting; simpl;
      rewrite ?added_app, ?dequeued_app, ?Hq, ?Hp; simpl;
      rewrite ?app_nil_r, <-?app_assoc; done.
Qed.

Lemma fifo_log_invoke q w : fifo w → fifo (log (OInvoke q) w).
Proof.
  apply fifo_same; simpl; try done.
  - by rewrite added_app, app_nil_r.
  - by rewrite dequeued_app, app_nil_r.
Qed.

Lemma fifo_closed : closed fifo.
Proof.
  split.
  - apply fifo_frame.
  - apply fifo_push.
  - intros w _. apply fifo_shift.
  - intros w _. apply fifo_shift.
  - intros q w _. apply fifo_log_invoke.
  - intros q w _ _ Hw. by apply fifo_log_invoke, fifo_shift.
Qed.

Lemma fifo_new t o : fifo (new_IntervalQueue t o).
Proof.
  split; simpl; [done|done| |apply NoDup_nil_2].
  by intros x ?%elem_of_nil.
Qed.

Lemma fifo_reachable w : reachable w → fifo w.
Proof.
  intros (t & o & es & ->). apply closed_run; [apply fifo_closed|apply fifo_new].
Qed.

End Fifo.

(** ** [clearLoop] *)

Section ClearLoop.
Context `{Behaviour}.

Lemma armed_clearTimeout t t' w :
  armed t' (clearTimeout (Some t) w) = if decide (t' = t) then false else armed t' w.
Proof.
  unfold armed. simpl. case_decide as Ht; subst.
  - apply bool_decide_eq_false.
    intros ([a d] & -> & [Ha _]%list_elem_of_filter)%list_elem_of_fmap.
    by apply Ha.
  - apply bool_decide_ext. rewrite !list_elem_of_fmap.
    split; intros (a & -> & Ha).
    + apply list_elem_of_filter in Ha as [_ Ha]. by exists a.
    + exists a. split; [done|]. by apply list_elem_of_filter.
Qed.

(** What the proofs about [runNext] and [pause] need of [clearLoop]. *)
Lemma clearLoop_effect w :
  isTriggering (this (clearLoop w)) = false
  ∧ (∀ t, _currentTimeout (this w) = Some t → armed t (clearLoop w) = false)
  ∧ isFirst (this (clearLoop w)) = isFirst (this w)
  ∧ paused (this (clearLoop w)) = paused (this w)
  ∧ queue (this (clearLoop w)) = queue (this w)
  ∧ returnPromises (this (clearLoop w)) = returnPromises (this w)
  ∧ lastFnResult (this (clearLoop w)) = lastFnResult (this w)
  ∧ options (this (clearLoop w)) = options (this w)
  ∧ trace (host (clearLoop w)) = trace (host w).
Proof.
  unfold clearLoop. split_and!; try (by destruct (_currentTimeout (this w))).
  intros t ->.
  change (armed t (on_this (set_isTriggering false) (clearTimeout (Some t) w)))
    with (armed t (clearTimeout (Some t) w)).
  rewrite armed_clearTimeout. by rewrite decide_True.
Qed.


End ClearLoop.

(** ** What a dispatch does *)

Section Dispatch.
Context `{Behaviour}.

Lemma closed_trigger P w : closed P → P w → P (trigger w).
Proof. intros HP HPw. by apply (under_trigger P HP (options (this w)) w). Qed.

Lemma closed_resume P w : closed P → P w → P (resume w).
Proof. intros HP HPw. by apply (under_resume P HP (options (this w)) w). Qed.

Lemma closed_add P q w : closed P → P w → P (add q w).1.
Proof. intros HP HPw. by apply (under_add P HP (options (this w)) q w). Qed.

Lemma extends_closed w0 : closed (extends w0).
Proof.
  split.
  - intros w w' [_ _ _ _ (tr' & Ht' & _)] [tr Ht].
    exists (tr ++ tr'). by rewrite Ht', Ht, app_assoc.
  - intros o q w [tr Ht]. eexists. simpl. by rewrite Ht, <-app_assoc.
  - intros w Hq [tr Ht]. unfold shift. rewrite Hq. simpl. by exists tr.
  - intros w _ [tr Ht]. unfold shift.
    destruct (head (queue (this w))); [|by exists tr].
    eexists. simpl. by rewrite Ht, <-app_assoc.
  - intros q w _ [tr Ht]. eexists. simpl. by rewrite Ht, <-app_assoc.
  - intros q w _ Hq [tr Ht]. unfold shift. rewrite Hq.
    eexists. simpl. by rewrite Ht, <-!app_assoc.
Qed.

Lemma extends_refl w : extends w w.
Proof. exists []. by rewrite app_nil_r. Qed.

Lemma trigger_extends w : extends w (trigger w).
Proof. apply closed_trigger; [apply extends_closed|apply extends_refl]. Qed.

Lemma since_app w w' tr :
  trace (host w') = trace (host w) ++ tr → since w w' = tr.
Proof. intros Ht. unfold since. by rewrite Ht, drop_app_length. Qed.

Lemma invoke_trace q p w :
  ∃ tr, trace (host (invoke q p w)) = trace (host w) ++ OInvoke q :: tr.
Proof.
  destruct (frame_invoke q p w) as [_ _ _ _ (tr & Ht & _)].
  exists tr. rewrite Ht. simpl. by rewrite <-app_assoc.
Qed.

Lemma shift_trace w q :
  head (queue (this w)) = Some q →
  trace (host (shift w))
  = trace (host w) ++ [ODequeue q (head (returnPromises (this w)))].
Proof. intros Hq. unfold shift. by rewrite Hq. Qed.

Lemma resume_loop w q :
  loop (options (this w)) = true →
  head (queue (this w)) = Some q →
  resume w = invoke q (head (returnPromises (this w)))
               (trigger (push_entry ByLoop q (shift w)).1).
Proof.
  intros Hloop Hq. pose proof (resume_eq w) as Hr.
  unfold dispatch_with, add_with in Hr.
  rewrite Hq, shift_options, Hloop in Hr. simpl in Hr. by injection Hr as <-.
Qed.

Lemma resume_once w q :
  loop (options (this w)) = false →
  head (queue (this w)) = Some q →
  resume w = invoke q (head (returnPromises (this w))) (shift w).
Proof.
  intros Hloop Hq. pose proof (resume_eq w) as Hr.
  unfold dispatch_with in Hr.
  rewrite Hq, shift_options, Hloop in Hr. simpl in Hr. by injection Hr as <-.
Qed.

(** A round that passes every gate is the dispatch, with the flag up. *)
Lemma trigger_dispatch w :
  paused (this w) = false →
  isTriggering (this w) = false →
  queue (this w) ≠ [] →
  timerForFirst (options (this w)) && isFirst (this w) = false →
  awaitLastQueue (options (this w)) = false
    ∨ instanceof_Promise (lastFnResult (this w)) = None →
  trigger w = resume (on_this (set_isTriggering true) w).
Proof.
  intros Hp Ht Hq Hf Ha. pose proof (trigger_eq w) as Hr.
  unfold trigger_body in Hr. rewrite Hp, Ht in Hr.
  destruct (queue (this w)) as [|q rest] eqn:Hqueue; [done|].
  simpl in Hr. rewrite Hf in Hr.
  assert ((if awaitLastQueue (options (this w))
           then instanceof_Promise (lastFnResult (this w)) else None) = None) as Hgate.
  { destruct Ha as [-> | ->]; [done|by destruct (awaitLastQueue _)]. }
  rewrite Hgate in Hr.
  pose proof (resume_fuel_enough fuel (on_this (set_isTriggering true) w)) as Hr'.
  rewrite dispatch_with_busy in Hr'; try done.
  - specialize (Hr' (le_n _)). congruence.
  - intros w' Hw'. by apply trigger_fuel_busy.
Qed.

(** Every dispatch takes the head entry with the head result promise and
    then runs it. *)
Lemma resume_invokes w q :
  head (queue (this w)) = Some q →
  ∃ mid post,
    since w (resume w)
    = ODequeue q (head (returnPromises (this w))) :: mid ++ OInvoke q :: post.
Proof.
  intros Hq. destruct (loop (options (this w))) eqn:Hloop.
  - rewrite (resume_loop w q) by done.
    destruct (trigger_extends (push_entry ByLoop q (shift w)).1) as [mid Hmid].
    destruct (invoke_trace q (head (returnPromises (this w)))
                (trigger (push_entry ByLoop q (shift w)).1)) as [post Hpost].
    exists (OAdd ByLoop q (length (handles (host w))) :: mid), post.
    apply since_app. rewrite Hpost, Hmid. simpl.
    rewrite (shift_trace w q) by done.
    assert (handles (host (shift w)) = handles (host w)) as ->.
    { unfold shift. by rewrite Hq. }
    by rewrite <-!app_assoc.
  - rewrite (resume_once w q) by done.
    destruct (invoke_trace q (head (returnPromises (this w))) (shift w)) as [post Hpost].
    exists [], post. apply since_app.
    rewrite Hpost, (shift_trace w q) by done. by rewrite <-app_assoc.
Qed.

End Dispatch.

(** ** [add] and [runNext] on a queue that can dispatch *)

Section Immediate.
Context `{Behaviour}.

Lemma push_entry_trace o q w :
  trace (host (push_entry o q w).1)
  = trace (host w) ++ [OAdd o q (length (handles (host w)))].
Proof. done. Qed.

Lemma head_Some_nonempty {A} (l : list A) x : head l = Some x → l ≠ [].
Proof. by destruct l. Qed.

(** C3, as the code has it. On a queue that is idle (empty, no round in
    progress), not paused and without [timerForFirst], the entry passed to
    [add] is run before [add] returns, provided the round does not have to
    await the last result: [awaitLastQueue] is off, or [lastFnResult] is
    not a promise. *)
Theorem add_runs_first_entry_at_once q w :
  queue (this w) = [] →
  isTriggering (this w) = false →
  paused (this w) = false →
  timerForFirst (options (this w)) = false →
  awaitLastQueue (options (this w)) = false
    ∨ instanceof_Promise (lastFnResult (this w)) = None →
  OInvoke q ∈ since w (add q w).1.
Proof.
  intros Hq Ht Hp Hf Ha. rewrite add_eq. cbn [fst].
  set (w1 := (push_entry ByCaller q w).1).
  assert (head (queue (this w1)) = Some q) as Hhd by (simpl; by rewrite Hq).
  rewrite trigger_dispatch; try done.
  - destruct (resume_invokes (on_this (set_isTriggering true) w1) q Hhd)
      as (mid & post & Hs).
    unfold since in *. simpl in Hs.
    rewrite length_app, <-drop_drop in Hs.
    apply (f_equal (λ l, OInvoke q ∈ l)) in Hs.
    assert (∀ n l, OInvoke q ∈ drop n l → OInvoke q ∈ l) as Hdrop.
    { intros n l Hin. rewrite <-(take_drop n l). apply elem_of_app. by right. }
    eapply Hdrop. rewrite Hs.
    apply elem_of_cons. right. apply elem_of_app. right. apply elem_of_cons. by left.
  - by eapply head_Some_nonempty.
  - simpl. by rewrite Hf.
Qed.

(** C7, as the code has it. [runNext()] is [clearLoop()] followed by one
    round: the timer the queue holds is cancelled, and whatever the flag
    and the timer were, the round goes through its gates. Paused, it does
    nothing; on an empty queue it only sets [isFirst]; with
    [timerForFirst] on a first run it arms a timer; when it has to await
    the last result it dispatches only once that promise has settled; in
    every other case the head entry is run before [runNext] returns. *)
Theorem runNext_is_clearLoop_then_round w :
  runNext w = trigger (clearLoop w)
  ∧ (∀ t, _currentTimeout (this w) = Some t → armed t (clearLoop w) = false)
  ∧ (paused (this w) = true → runNext w = clearLoop w)
  ∧ (paused (this w) = false → queue (this w) = [] →
     runNext w = on_this (set_isFirst true) (clearLoop w))
  ∧ (paused (this w) = false → queue (this w) ≠ [] →
     timerForFirst (options (this w)) && isFirst (this w) = true →
     runNext w = _createTimeout (on_this (set_isTriggering true) (clearLoop w)))
  ∧ (∀ p, paused (this w) = false → queue (this w) ≠ [] →
     timerForFirst (options (this w)) && isFirst (this w) = false →
     awaitLastQueue (options (this w)) = true →
     lastFnResult (this w) = VPromise p →
     runNext w = subscribe p RAwaitCatch (on_this (set_isTriggering true) (clearLoop w)))
  ∧ (∀ q, paused (this w) = false → head (queue (this w)) = Some q →
     timerForFirst (options (this w)) && isFirst (this w) = false →
     awaitLastQueue (options (this w)) = false
       ∨ instanceof_Promise (lastFnResult (this w)) = None →
     OInvoke q ∈ since w (runNext w)).
Proof.
  destruct (clearLoop_effect w)
    as (Ht & Harmed & Hfirst & Hpaused & Hqueue & _ & Hlast & Hopt & Htrace).
  unfold runNext.
  pose proof (trigger_eq (clearLoop w)) as Hr. unfold trigger_body in Hr.
  rewrite Ht, Hpaused, Hqueue in Hr.
  split_and!.
  - done.
  - done.
  - intros Hp. rewrite Hp in Hr. congruence.
  - intros Hp Hq. rewrite Hp, Hq in Hr. congruence.
  - intros Hp Hq Hf. rewrite Hp in Hr.
    destruct (queue (this w)); [done|].
    cbn [on_this this options isFirst set_isTriggering] in Hr.
    rewrite Hopt, Hfirst, Hf in Hr. congruence.
  - intros p Hp Hq Hf Ha Hl. rewrite Hp in Hr.
    destruct (queue (this w)); [done|].
    cbn [on_this this options isFirst set_isTriggering lastFnResult] in Hr.
    rewrite Hopt, Hfirst, Hf, Ha, Hlast, Hl in Hr. simpl in Hr. congruence.
  - intros q Hp Hq Hf Ha.
    rewrite trigger_dispatch.
    + destruct (resume_invokes (on_this (set_isTriggering true) (clearLoop w)) q)
        as (mid & post & Hs).
      { cbn [on_this this set_isTriggering queue]. by rewrite Hqueue. }
      unfold since in *.
      cbn [on_this this host set_isTriggering returnPromises] in Hs.
      rewrite Htrace in Hs. rewrite Hs.
      apply elem_of_cons. right. apply elem_of_app. right. apply elem_of_cons. by left.
    + by rewrite Hpaused.
    + done.
    + rewrite Hqueue. by eapply head_Some_nonempty.
    + by rewrite Hopt, Hfirst.
    + by rewrite Hopt, Hlast.
Qed.

Lemma shift_nonempty w q :
  head (queue (this w)) = Some q →
  shift w = log (ODequeue q (head (returnPromises (this w))))
              (on_this (set_returnPromises (tail (returnPromises (this w))))
                 (on_this (set_queue (tail (queue (this w)))) w)).
Proof. intros Hq. unfold shift. by rewrite Hq. Qed.

Lemma resume_loop_trace q w :
  loop (options (this w)) = true →
  head (queue (this w)) = Some q →
  ∃ mid post,
    since w (resume w)
    = ODequeue q (head (returnPromises (this w)))
        :: OAdd ByLoop q (length (handles (host w))) :: mid ++ OInvoke q :: post.
Proof.
  intros Hloop Hq. rewrite (resume_loop w q) by done.
  set (w1 := (push_entry ByLoop q (shift w)).1).
  destruct (trigger_extends w1) as [mid Hmid].
  destruct (invoke_trace q (head (returnPromises (this w))) (trigger w1)) as [post Hpost].
  exists mid, post. apply since_app. rewrite Hpost, Hmid.
  unfold w1. rewrite push_entry_trace, (shift_trace w q) by done.
  rewrite (shift_nonempty w q) by done. simpl. by rewrite <-!app_assoc.
Qed.

(** C6. With [loop] set, a dispatch first puts the same function and
    arguments back at the tail of the queue, with a result promise that
    did not exist before, and only then runs the entry it took. *)
Theorem loop_requeues_before_invoking q w :
  loop (options (this w)) = true →
  head (queue (this w)) = Some q →
  let p' := length (handles (host w)) in
  let w1 := (push_entry ByLoop q (shift w)).1 in
  queue (this w1) = tail (queue (this w)) ++ [q]
  ∧ returnPromises (this w1) = tail (returnPromises (this w)) ++ [p']
  ∧ handles (host w) !! p' = None
  ∧ handles (host w1) !! p' = Some None
  ∧ resume w = invoke q (head (returnPromises (this w))) (trigger w1)
  ∧ ∃ mid post,
      since w (resume w)
      = ODequeue q (head (returnPromises (this w)))
          :: OAdd ByLoop q p' :: mid ++ OInvoke q :: post.
Proof.
  intros Hloop Hq p' w1. pose proof (shift_nonempty w q Hq) as Hshift.
  split_and!.
  - unfold w1. by rewrite Hshift.
  - unfold w1. by rewrite Hshift.
  - by apply lookup_ge_None.
  - unfold w1. rewrite Hshift. simpl. apply list_lookup_middle. done.
  - by apply resume_loop.
  - by apply resume_loop_trace.
Qed.

End Immediate.

(** ** One round at a time, when the caller only adds *)

Section Single.
Context `{Behaviour}.

Lemma rounds_refl w : rounds 0 w w.
Proof. split; [done|lia]. Qed.

Lemma rounds_trans k1 k2 w1 w2 w3 :
  rounds k1 w1 w2 → rounds k2 w2 w3 → rounds (k1 + k2) w1 w3.
Proof. intros [Hf1 Hp1] [Hf2 Hp2]. split; [congruence|lia]. Qed.

Lemma rounds_weaken k k' w w' : k ≤ k' → rounds k w w' → rounds k' w w'.
Proof. intros Hk [Hf Hp]. split; [done|lia]. Qed.

Lemma rounds_log o w : rounds 0 w (log o w).
Proof. split; [done|]. unfold pending_rounds. simpl. lia. Qed.

Lemma rounds_lastFnResult v w : rounds 0 w (on_this (set_lastFnResult v) w).
Proof. split; [done|]. unfold pending_rounds. simpl. lia. Qed.

Lemma rounds_createTimeout w : rounds 1 w (_createTimeout w).
Proof. split; [done|]. unfold pending_rounds. simpl. rewrite length_app. simpl. lia. Qed.

Lemma rounds_enqueue j w : rounds (job_round j) w (enqueue j w).
Proof.
  split; [done|]. unfold pending_rounds. simpl.
  rewrite sum_list_with_app. simpl. lia.
Qed.

Lemma sum_list_with_insert {A} (f : A → nat) l i x y :
  l !! i = Some x →
  sum_list_with f (<[i:=y]> l) + f x = sum_list_with f l + f y.
Proof.
  revert i. induction l as [|a l IH]; intros [|i] Hi; simplify_eq/=; [lia|].
  specialize (IH i Hi). lia.
Qed.

Lemma job_of_round st r : job_round (job_of st r) = reaction_round r.
Proof. by destruct r. Qed.

Lemma rounds_subscribe p r w : rounds (reaction_round r) w (subscribe p r w).
Proof.
  unfold subscribe. destruct (promises (host w) !! p) as [c|] eqn:Hc.
  - destruct (pstate c) as [st|].
    + rewrite <-(job_of_round st r). apply rounds_enqueue.
    + split; [done|]. unfold pending_rounds. simpl.
      pose proof (sum_list_with_insert cell_round _ _ _
        {| pstate := None; reactions := reactions c ++ [r] |} Hc) as Hs.
      assert (cell_round {| pstate := None; reactions := reactions c ++ [r] |}
              = cell_round c + reaction_round r) as Hcell.
      { unfold cell_round. simpl. rewrite sum_list_with_app. simpl. lia. }
      lia.
  - split; [done|lia].
Qed.

Lemma rounds_settle_handle p r w : rounds 0 w (settle_handle p r w).
Proof.
  unfold settle_handle.
  destruct (handles (host (log (OSettle p r) w)) !! p) as [[?|]|];
    split; try done; unfold pending_rounds; simpl; lia.
Qed.

Lemma rounds_reject_handle p e w : rounds 0 w (reject_handle p e w).
Proof.
  unfold reject_handle. cbv zeta. destruct (_ && _); [|apply rounds_settle_handle].
  eapply (rounds_trans 0 0); [apply rounds_settle_handle|apply rounds_log].
Qed.

Lemma rounds_settle_promise p st w : rounds 0 w (settle_promise p st w).
Proof.
  unfold settle_promise. destruct (promises (host w) !! p) as [c|] eqn:Hc;
    [|apply rounds_refl].
  destruct (pstate c); [apply rounds_refl|].
  split; [done|]. unfold pending_rounds. simpl.
  pose proof (sum_list_with_insert cell_round _ _ _
    {| pstate := Some st; reactions := [] |} Hc) as Hs.
  assert (cell_round {| pstate := Some st; reactions := [] |} = 0) as Hcell by done.
  rewrite sum_list_with_app.
  assert (sum_list_with job_round (job_of st <$> reactions c) = cell_round c) as ->.
  { unfold cell_round. induction (reactions c) as [|r rs IH]; [done|].
    rewrite fmap_cons. simpl. rewrite job_of_round. by f_equal. }
  lia.
Qed.

Lemma rounds_push o q w : rounds 0 w (push_entry o q w).1.
Proof. split; [done|]. unfold pending_rounds. simpl. lia. Qed.

Lemma rounds_shift w : rounds 0 w (shift w).
Proof.
  unfold shift. destruct (head (queue (this w)));
    split; try done; unfold pending_rounds; simpl; lia.
Qed.

Lemma rounds_alloc c w :
  cell_round c = 0 →
  rounds 0 w (on_host (set_promises (promises (host w) ++ [c])) w).
Proof.
  intros Hc. split; [done|]. unfold pending_rounds. simpl.
  rewrite sum_list_with_app. simpl. lia.
Qed.

Lemma rounds_invoke q p w : rounds 1 w (invoke q p w).
Proof.
  unfold invoke. cbv zeta.
  destruct (call (fn q) (args q)) as [d|e|init].
  - destruct p as [p|].
    + eapply (rounds_trans 0 1); [apply rounds_log|].
      eapply (rounds_trans 0 1); [apply rounds_lastFnResult|].
      eapply (rounds_trans 0 1); [apply rounds_settle_handle|].
      apply rounds_createTimeout.
    + apply (rounds_weaken 0); [lia|].
      eapply (rounds_trans 0 0); [apply rounds_log|].
      eapply (rounds_trans 0 0); [apply rounds_lastFnResult|].
      apply rounds_log.
  - apply (rounds_weaken 0); [lia|].
    eapply (rounds_trans 0 0); apply rounds_log.
  - eapply (rounds_trans 0 1); [apply rounds_log|].
    eapply (rounds_trans 0 1);
      [by apply (rounds_alloc {| pstate := init; reactions := [] |})|].
    eapply (rounds_trans 0 1); [apply rounds_lastFnResult|].
    eapply (rounds_trans 0 1); [eapply (rounds_subscribe _ (RThen p))|].
    match goal with |- context [startTimer ?o] => destruct (startTimer o) end.
    + apply rounds_createTimeout.
    + eapply (rounds_subscribe _ RFinally).
Qed.

Lemma order_frame w w' :
  frame w w' →
  invoked (trace (host w)) = (dequeued (trace (host w))).*1 →
  invoked (trace (host w')) = (dequeued (trace (host w'))).*1.
Proof.
  intros [_ _ _ _ (tr & Ht & Hquiet)] Hw.
  destruct (quiet_silent tr Hquiet) as (_ & Hd & Hi).
  by rewrite Ht, invoked_app, dequeued_app, Hd, Hi, !app_nil_r.
Qed.

(** A dispatch inside a round: the flag is up, so the re-[add] of [loop]
    starts nothing, and the entry taken is run before anything else is. *)
Lemma single_dispatch w w' :
  isTriggering (this w) = true →
  pending_rounds w = 0 →
  invoked (trace (host w)) = (dequeued (trace (host w))).*1 →
  dispatch_with Some w = Some w' →
  single w' ∧ isTriggering (this w') = true.
Proof.
  intros Hflag Hpend Horder. unfold dispatch_with, add_with.
  destruct (rounds_shift w) as [Hf1 Hp1].
  destruct (head (queue (this w))) as [queued|] eqn:Hq.
  - set (w1 := if loop (options (this (shift w)))
               then (push_entry ByLoop queued (shift w)).1 else shift w).
    assert (rounds 0 (shift w) w1) as [Hf2 Hp2].
    { unfold w1. destruct (loop _); [apply rounds_push|apply rounds_refl]. }
    assert (invoked (trace (host (log (OInvoke queued) w1)))
            = (dequeued (trace (host (log (OInvoke queued) w1)))).*1) as Horder'.
    { unfold w1. destruct (loop _); simpl;
        rewrite (shift_trace w queued) by done;
        rewrite !invoked_app, !dequeued_app; simpl;
        rewrite !app_nil_r, ?app_nil_l, fmap_app, Horder; done. }
    intros Hr.
    assert (w' = invoke queued (head (returnPromises (this w))) w1) as ->.
    { unfold w1. destruct (loop _); simpl in Hr; by injection Hr as <-. }
    destruct (rounds_invoke queued (head (returnPromises (this w))) w1) as [Hf3 Hp3].
    split; [split|]; try congruence; try lia.
    eapply order_frame; [apply frame_invoke|done].
  - intros [= <-]. split; [split|]; simpl; try congruence.
    + change (pending_rounds (log (OUncaught DTypeError) (shift w)))
        with (pending_rounds (shift w)). lia.
    + unfold shift. rewrite Hq. simpl.
      by rewrite invoked_app, dequeued_app, !app_nil_r.
Qed.

Lemma single_frame0 w w' :
  rounds 0 w w' → frame w w' → single w → single w'.
Proof.
  intros [Hf Hp] Hfr [Hone Hidle Horder]. split.
  - lia.
  - rewrite Hf. intros Hi%Hidle. lia.
  - by eapply order_frame.
Qed.

Lemma single_trigger w : single w → single (trigger w).
Proof.
  intros Hw. pose proof (trigger_eq w) as Hr. unfold trigger_body in Hr.
  destruct (paused (this w)); [congruence|].
  destruct (isTriggering (this w)) eqn:Hflag; [congruence|].
  destruct Hw as [Hone Hidle Horder]. specialize (Hidle Hflag).
  destruct (queue (this w)) eqn:Hq.
  { injection Hr as <-.
    change (pending_rounds w = 0)
      with (pending_rounds (on_this (set_isFirst true) w) = 0) in Hidle.
    split; [lia|done|done]. }
  set (w1 := on_this (set_isTriggering true) w) in *.
  assert (pending_rounds w1 = 0) as Hp1 by done.
  destruct (_ && _).
  { injection Hr as <-. destruct (rounds_createTimeout w1) as [Hf Hp].
    split; [lia| |done]. rewrite Hf. done. }
  destruct (if awaitLastQueue _ then _ else _) as [p|].
  { injection Hr as <-. destruct (rounds_subscribe p RAwaitCatch w1) as [Hf Hp].
    split; [simpl in Hp; lia|by rewrite Hf|].
    eapply order_frame; [apply frame_subscribe|done]. }
  by apply single_dispatch in Hr as [? _].
Qed.

Lemma single_resume w :
  isTriggering (this w) = true →
  pending_rounds w = 0 →
  invoked (trace (host w)) = (dequeued (trace (host w))).*1 →
  single (resume w).
Proof.
  intros Hflag Hpend Horder.
  pose proof (resume_fuel_enough fuel w (le_n _)) as Hr.
  rewrite dispatch_with_busy in Hr; try done.
  - by apply single_dispatch in Hr as [? _].
  - intros w' Hw'. by apply trigger_fuel_busy.
Qed.

Lemma single_run_job j js w :
  microtasks (host w) = j :: js →
  single w → single (run_job j (on_host (set_microtasks js) w)).
Proof.
  intros Hm [Hone Hidle Horder].
  set (w1 := on_host (set_microtasks js) w).
  assert (pending_rounds w = pending_rounds w1 + job_round j) as Hpop.
  { unfold pending_rounds, w1. rewrite Hm. simpl. lia. }
  assert (job_round j = 0 → single w1) as Hw1.
  { intros Hj. split; [lia| |done]. intros Hi%Hidle. lia. }
  assert (job_round j = 1 → isTriggering (this w1) = true ∧ pending_rounds w1 = 0) as Hw1'.
  { intros Hj. split; [|lia].
    destruct (isTriggering (this w)) eqn:Hflag; [done|]. specialize (Hidle eq_refl). lia. }
  destruct j as [[p|] [d|e]|[p|] [d|e]| | |st]; simpl in *.
  - eapply single_frame0; [apply (rounds_enqueue (JCatch _ _))|apply frame_enqueue|].
    eapply single_frame0; [apply rounds_settle_handle|apply frame_settle_handle|].
    by apply Hw1.
  - eapply single_frame0; [apply (rounds_enqueue (JCatch _ _))|apply frame_enqueue|].
    by apply Hw1.
  - eapply single_frame0; [apply (rounds_enqueue (JCatch _ _))|apply frame_enqueue|].
    by apply Hw1.
  - eapply single_frame0; [apply (rounds_enqueue (JCatch _ _))|apply frame_enqueue|].
    by apply Hw1.
  - by apply Hw1.
  - eapply single_frame0; [apply rounds_reject_handle|apply frame_reject_handle|].
    by apply Hw1.
  - by apply Hw1.
  - eapply single_frame0; [apply rounds_log|by apply frame_log|]. by apply Hw1.
  - destruct Hw1' as [Hflag Hp]; [done|].
    destruct (rounds_enqueue JResume w1) as [Hf' Hp'].
    split; [simpl in Hp'; lia|simpl; by rewrite Hflag|].
    eapply order_frame; [apply frame_enqueue|done].
  - destruct Hw1' as [Hflag Hp]; [done|]. by apply single_resume.
  - destruct Hw1' as [Hflag Hp]; [done|].
    assert (single (_createTimeout w1)) as Hc.
    { destruct (rounds_createTimeout w1) as [Hf' Hp'].
      split; [lia|simpl; by rewrite Hflag|].
      eapply order_frame; [apply frame_createTimeout|done]. }
    destruct st; [done|].
    eapply single_frame0; [apply rounds_log|by apply frame_log|done].
Qed.

Lemma single_push o q w : single w → single (push_entry o q w).1.
Proof.
  intros [Hone Hidle Horder]. destruct (rounds_push o q w) as [Hf Hp].
  split; [lia|rewrite Hf; intros Hi%Hidle; lia|].
  simpl. by rewrite invoked_app, dequeued_app, !app_nil_r.
Qed.

(** The timer that fires was the only thing pending. *)
Lemma pending_rounds_fired t w :
  armed t w = true → pending_rounds w ≤ 1 →
  pending_rounds (clearTimeout (Some t) w) = 0.
Proof.
  unfold armed, pending_rounds. simpl.
  intros Hin%bool_decide_eq_true Hone.
  destruct (timers (host w)) as [|[t' d] [|? ?]]; simpl in *.
  - by apply elem_of_nil in Hin.
  - apply list_elem_of_singleton in Hin as ->.
    rewrite filter_cons_False by (by intros []). simpl. lia.
  - lia.
Qed.

Lemma single_step e w : add_only e = true → single w → single (step e w).
Proof.
  intros He Hw. destruct e; try done; simpl.
  - rewrite add_eq. by apply single_trigger, single_push.
  - destruct (microtasks (host w)); [|done].
    destruct (armed t w) eqn:Harmed; [|done].
    apply single_trigger. destruct Hw as [Hone Hidle Horder].
    pose proof (pending_rounds_fired t w Harmed Hone) as Hp.
    split; [simpl; change (pending_rounds _) with (pending_rounds (clearTimeout (Some t) w)); lia
           |intros _; done|done].
  - eapply single_frame0;
      [apply rounds_settle_promise|apply frame_settle_promise|done].
  - destruct (microtasks (host w)) as [|j js] eqn:Hm; [done|].
    by apply single_run_job.
Qed.

Lemma single_run es w :
  forallb add_only es = true → single w → single (run es w).
Proof.
  revert w. induction es as [|e es IH]; intros w Hes Hw; [done|].
  apply andb_prop in Hes as [He Hes]. simpl. by apply IH, single_step.
Qed.

Lemma single_new t o : single (new_IntervalQueue t o).
Proof. split; try done. unfold pending_rounds. simpl. lia. Qed.

End Single.

(** ** Order of dispatch *)

Section Order.
Context `{Behaviour}.

Lemma in_order_closed : closed in_order.
Proof.
  split; unfold in_order.
  - intros w w' [_ _ Ho _ (tr & Ht & Hquiet)] HP Hloop.
    destruct (quiet_silent tr Hquiet) as (_ & Hd & Hi).
    rewrite Ht, invoked_app, dequeued_app, Hd, Hi, !app_nil_r.
    apply HP. by rewrite <-Ho.
  - intros o q w HP Hloop. simpl.
    rewrite invoked_app, dequeued_app, !app_nil_r. by apply HP.
  - intros w Hq HP Hloop. rewrite shift_options in Hloop.
    unfold shift. rewrite Hq. simpl. by apply HP.
  - intros w Hloop _. rewrite shift_options. congruence.
  - intros q w Hloop _. simpl. congruence.
  - intros q w Hloop Hq HP _. unfold shift. rewrite Hq. simpl.
    rewrite !invoked_app, !dequeued_app, !app_nil_r. simpl.
    rewrite fmap_app, HP by done. done.
Qed.

Lemma aligned_closed : closed aligned.
Proof.
  split; unfold aligned.
  - intros w w' [Hq Hp _ _ _]. by rewrite Hq, Hp.
  - intros o q w Hw. simpl. rewrite !length_app, Hw. done.
  - intros w _ Hw. unfold shift.
    destruct (queue (this w)); destruct (returnPromises (this w)); simplify_eq/=; done.
  - intros w _ Hw. unfold shift.
    destruct (queue (this w)); destruct (returnPromises (this w)); simplify_eq/=; done.
  - done.
  - intros q w _ _ Hw. unfold shift.
    destruct (queue (this w)); destruct (returnPromises (this w)); simplify_eq/=; done.
Qed.

Lemma with_handle_fst l : (with_handle <$> l).*1 = l.*1.
Proof. induction l as [|x l IH]; [done|]. simpl. by f_equal. Qed.

Lemma fifo_run_order w :
  fifo w →
  invoked (trace (host w)) = (dequeued (trace (host w))).*1 →
  invoked (trace (host w)) ++ queue (this w) = (added (trace (host w))).*1.
Proof.
  intros [Hlen Hord _ _] ->.
  apply (f_equal (fmap fst)) in Hord.
  rewrite fmap_app, !with_handle_fst in Hord. rewrite <-Hord.
  f_equal. unfold waiting. rewrite fst_zip; [done|lia].
Qed.

(** C5. Entries are dispatched in the order of their submission. In every
    run, the entries taken off the queue so far, each with the result
    promise taken with it, followed by what is waiting, are exactly the
    submissions in order, each with the result promise its [add] created; a
    submission by the [loop] option takes its place in that order when it is
    re-added, at the tail. When the caller does nothing but [add] (and in
    any run with [loop] off) every entry is run before the next one is
    taken, so the functions run so far followed by the queue are the
    submissions in order. A dispatch takes the head entry with the head
    result promise and runs that entry, and [add] appends at the tail. *)
Theorem dispatch_is_fifo t o es :
  let w := run es (new_IntervalQueue t o) in
  dequeued (trace (host w)) ++ (with_handle <$> waiting w)
    = with_handle <$> added (trace (host w))
  ∧ (forallb add_only es = true ∨ loop o = false →
     invoked (trace (host w)) = (dequeued (trace (host w))).*1
     ∧ invoked (trace (host w)) ++ queue (this w) = (added (trace (host w))).*1)
  ∧ (∀ q, head (queue (this w)) = Some q →
     ∃ mid post,
       since w (resume w)
       = ODequeue q (head (returnPromises (this w))) :: mid ++ OInvoke q :: post)
  ∧ (∀ og q, queue (this (push_entry og q w).1) = queue (this w) ++ [q]
             ∧ returnPromises (this (push_entry og q w).1)
               = returnPromises (this w) ++ [length (handles (host w))]).
Proof.
  intros w.
  assert (fifo w) as Hfifo.
  { apply closed_run; [apply fifo_closed|apply fifo_new]. }
  split_and!.
  - by apply fifo_order.
  - intros Hcase.
    assert (invoked (trace (host w)) = (dequeued (trace (host w))).*1) as Horder.
    { destruct Hcase as [Hes | Hloop].
      - apply sg_order, single_run; [done|apply single_new].
      - pose proof (closed_run in_order es (new_IntervalQueue t o) in_order_closed) as Hin.
        apply Hin; [by intros _|]. by rewrite options_run. }
    split; [done|]. by apply fifo_run_order.
  - apply resume_invokes.
  - done.
Qed.

Lemma with_handle_inj x y : with_handle x = with_handle y → x = y.
Proof. destruct x, y. unfold with_handle. simpl. congruence. Qed.

(** C9. The queue and the result promises have the same length in every
    reachable state, the promise at index [i] is the one created by the
    [add] that submitted the entry at index [i], and every operation, the
    firing of a timer, every microtask and every round keep the two
    lengths equal. *)
Theorem queue_and_promises_aligned :
  (∀ e w, aligned w → aligned (step e w))
  ∧ (∀ w, aligned w → aligned (trigger w) ∧ aligned (resume w))
  ∧ (∀ w, reachable w →
       aligned w
       ∧ ∀ i q p,
           queue (this w) !! i = Some q →
           returnPromises (this w) !! i = Some p →
           added (trace (host w)) !! (length (dequeued (trace (host w))) + i)
           = Some (q, p)).
Proof.
  split_and!.
  - intros e w. apply closed_step, aligned_closed.
  - intros w Hw. split.
    + by apply closed_trigger; [apply aligned_closed|].
    + by apply closed_resume; [apply aligned_closed|].
  - intros w [Hlen Hord _ _]%fifo_reachable. split; [done|].
    intros i q p Hq Hp.
    apply (f_equal (λ l, l !! (length (dequeued (trace (host w))) + i))) in Hord.
    rewrite lookup_app_r, !list_lookup_fmap in Hord by lia.
    replace (length (dequeued (trace (host w))) + i
             - length (dequeued (trace (host w)))) with i in Hord by lia.
    assert (waiting w !! i = Some (q, p)) as Hwait.
    { unfold waiting. apply lookup_zip_with_Some. by exists q, p. }
    rewrite Hwait in Hord. simpl in Hord.
    destruct (added (trace (host w)) !! _) as [x|]; [|done].
    simpl in Hord. f_equal. apply with_handle_inj. congruence.
Qed.



End Order.

(** ** [pause] *)

Section Pause.
Context `{Behaviour}.

Lemma trigger_busy w : isTriggering (this w) = true → trigger w = w.
Proof.
  intros Hw. pose proof (trigger_eq w) as Hr.
  rewrite trigger_body_busy in Hr by done. congruence.
Qed.

Lemma trigger_paused w : paused (this w) = true → trigger w = w.
Proof.
  intros Hw. pose proof (trigger_eq w) as Hr.
  unfold trigger_body in Hr. rewrite Hw in Hr. congruence.
Qed.

(** What [pause()] itself establishes: the queue is paused and marked as
    at a first run, the timer it holds is cancelled, the flag is down, and
    the entries stay where they are. A round started while paused does
    nothing. *)
Lemma pause_effect w :
  paused (this (pause w)) = true
  ∧ isFirst (this (pause w)) = true
  ∧ isTriggering (this (pause w)) = false
  ∧ (∀ t, _currentTimeout (this w) = Some t → armed t (pause w) = false)
  ∧ queue (this (pause w)) = queue (this w)
  ∧ returnPromises (this (pause w)) = returnPromises (this w)
  ∧ trigger (pause w) = pause w.
Proof.
  unfold pause.
  set (w1 := on_this (set_isFirst true) (on_this (set_paused true) w)).
  destruct (clearLoop_effect w1)
    as (Ht & Harmed & Hfirst & Hpaused & Hqueue & Hrp & _).
  split_and!; try done.
  by apply trigger_paused.
Qed.

End Pause.

(** ** An operation that throws *)

Section Stuck.
Context `{Behaviour}.

(** Once stuck, only an operation that calls [clearLoop] changes anything
    but the queue. *)
Lemma stuck_step e w :
  gentle e = true → stuck w →
  step e w = match e with
             | EAdd q => (push_entry ByCaller q w).1
             | EUnpause => on_this (set_paused false) w
             | _ => w
             end.
Proof.
  intros He (Ht & Htm & Hm & Hp). destruct e; try done; simpl.
  - rewrite add_eq. simpl. by apply trigger_busy.
  - by apply trigger_busy.
  - rewrite Hm. unfold armed. rewrite Htm. done.
  - unfold settle_promise. by rewrite Hp.
  - by rewrite Hm.
Qed.

Lemma stuck_run es w q :
  forallb gentle es = true → stuck w → head (queue (this w)) = Some q →
  stuck (run es w)
  ∧ head (queue (this (run es w))) = Some q
  ∧ invoked (trace (host (run es w))) = invoked (trace (host w))
  ∧ ∀ p, p < length (handles (host w)) →
         handles (host (run es w)) !! p = handles (host w) !! p.
Proof.
  revert w. induction es as [|e es IH]; intros w Hes Hw Hq; [done|].
  apply andb_prop in Hes as [He Hes].
  change (run (e :: es) w) with (run es (step e w)).
  rewrite stuck_step by done.
  set (w' := match e with
             | EAdd q => (push_entry ByCaller q w).1
             | EUnpause => on_this (set_paused false) w
             | _ => w
             end).
  assert (stuck w' ∧ head (queue (this w')) = Some q
          ∧ invoked (trace (host w')) = invoked (trace (host w))
          ∧ length (handles (host w)) ≤ length (handles (host w'))
          ∧ ∀ p, p < length (handles (host w)) →
                 handles (host w') !! p = handles (host w) !! p) as (Hs & Hh & Hi & Hlen & Hl).
  { destruct (queue (this w)) as [|q' rest] eqn:Hqueue; simplify_eq/=.
    destruct e; try done; subst w'; simpl; rewrite ?Hqueue; split_and!; try done.
    - by rewrite invoked_app, app_nil_r.
    - rewrite length_app. lia.
    - intros p Hp. by apply lookup_app_l. }
  destruct (IH w') as (Hs' & Hh' & Hi' & Hl'); try done.
  split_and!; try done; [congruence|].
  intros p Hp. rewrite Hl' by lia. by apply Hl.
Qed.

End Stuck.

(** ** A result promise nothing refers to is never settled *)

Section Dangling.
Context `{Behaviour} (h : handle).

Lemma settlements_app p tr tr' :
  settlements p (tr ++ tr') = settlements p tr ++ settlements p tr'.
Proof. apply omap_app. Qed.

Lemma dangling_same w w' :
  handles (host w') = handles (host w) →
  returnPromises (this w') = returnPromises (this w) →
  promises (host w') = promises (host w) →
  microtasks (host w') = microtasks (host w) →
  settlements h (trace (host w')) = settlements h (trace (host w)) →
  dangling h w → dangling h w'.
Proof.
  intros Hh Hr Hp Hm Hs [? ? ? ? ?]. split; rewrite ?Hh, ?Hr, ?Hp, ?Hm, ?Hs; done.
Qed.

Lemma dangling_log o w :
  (∀ r, o ≠ OSettle h r) → dangling h w → dangling h (log o w).
Proof.
  intros Ho. apply dangling_same; try done. simpl.
  rewrite settlements_app. destruct o; simpl; rewrite ?app_nil_r; try done.
  case_decide; [|by rewrite app_nil_r]. subst. by destruct (Ho r).
Qed.

Lemma dangling_createTimeout w : dangling h w → dangling h (_createTimeout w).
Proof. by apply dangling_same. Qed.

Lemma dangling_clearTimeout x w : dangling h w → dangling h (clearTimeout x w).
Proof. destruct x; by apply dangling_same. Qed.

Lemma dangling_clearLoop w : dangling h w → dangling h (clearLoop w).
Proof.
  intros Hw. unfold clearLoop.
  by apply (dangling_same (clearTimeout (_currentTimeout (this w)) w)),
    dangling_clearTimeout.
Qed.

Lemma dangling_enqueue j w :
  job_handle j ≠ Some h → dangling h w → dangling h (enqueue j w).
Proof.
  intros Hj [? ? ? Hjobs ?]. split; try done. simpl.
  intros j' [Hj' | ->%list_elem_of_singleton]%elem_of_app; [by apply Hjobs|done].
Qed.

Lemma job_of_handle st r : job_handle (job_of st r) = reaction_handle r.
Proof. by destruct r. Qed.

Lemma dangling_subscribe p r w :
  reaction_handle r ≠ Some h → dangling h w → dangling h (subscribe p r w).
Proof.
  intros Hr Hw. unfold subscribe.
  destruct (promises (host w) !! p) as [c|] eqn:Hc; [|done].
  destruct (pstate c) as [st|].
  { apply dangling_enqueue; [by rewrite job_of_handle|done]. }
  destruct Hw as [? ? Hreact ? ?]. split; try done. simpl.
  intros i c' r' [(-> & <- & _) | [_ Hi]]%list_lookup_insert_Some; simpl.
  - intros [Hr' | ->%list_elem_of_singleton]%elem_of_app; [by eapply Hreact|done].
  - by eapply Hreact.
Qed.

Lemma dangling_settle_handle p r w :
  p ≠ h → dangling h w → dangling h (settle_handle p r w).
Proof.
  intros Hp Hw. unfold settle_handle.
  assert (dangling h (log (OSettle p r) w)) as Hw'.
  { apply dangling_log; [congruence|done]. }
  destruct (handles (host (log (OSettle p r) w)) !! p) as [[?|]|]; try done.
  destruct Hw' as [Hpend ? ? ? ?]. split; try done.
  simpl. by rewrite list_lookup_insert_ne.
Qed.

Lemma dangling_reject_handle p e w :
  p ≠ h → dangling h w → dangling h (reject_handle p e w).
Proof.
  intros Hp Hw. unfold reject_handle. cbv zeta.
  destruct (_ && _); [|by apply dangling_settle_handle].
  apply dangling_log; [done|]. by apply dangling_settle_handle.
Qed.

Lemma dangling_settle_promise p st w :
  dangling h w → dangling h (settle_promise p st w).
Proof.
  intros Hw. unfold settle_promise.
  destruct (promises (host w) !! p) as [c|] eqn:Hc; [|done].
  destruct (pstate c); [done|].
  destruct Hw as [? ? Hreact Hjobs ?]. split; try done; simpl.
  - intros i c' r' [(-> & <- & _) | [_ Hi]]%list_lookup_insert_Some; simpl.
    + by intros ?%elem_of_nil.
    + by eapply Hreact.
  - intros j [Hj | (r & -> & Hr)%list_elem_of_fmap]%elem_of_app; [by apply Hjobs|].
    rewrite job_of_handle. by eapply Hreact.
Qed.

Lemma dangling_push o q w : dangling h w → dangling h (push_entry o q w).1.
Proof.
  intros [Hpend Hq ? ? Hs]. split; try done; simpl.
  - by apply lookup_app_l_Some.
  - intros [Hin | ->%list_elem_of_singleton]%elem_of_app; [done|].
    apply lookup_lt_Some in Hpend. lia.
  - by rewrite settlements_app, Hs.
Qed.

Lemma dangling_shift w : dangling h w → dangling h (shift w).
Proof.
  intros Hw. unfold shift.
  assert (dangling h (on_this (set_returnPromises (tail (returnPromises (this w))))
                        (on_this (set_queue (tail (queue (this w)))) w))) as Hw'.
  { destruct Hw as [? Hq ? ? ?]. split; try done. simpl.
    intros Hin. apply Hq. destruct (returnPromises (this w)); [done|].
    by apply elem_of_cons; right. }
  destruct (head (queue (this w))); [|done]. by apply dangling_log.
Qed.

Lemma dangling_invoke q promise w :
  promise ≠ Some h → dangling h w → dangling h (invoke q promise w).
Proof.
  intros Hp Hw. unfold invoke. cbv zeta.
  assert (dangling h (log (OInvoke q) w)) as Hw' by (by apply dangling_log).
  destruct (call (fn q) (args q)) as [d|e|init].
  - destruct promise as [p|].
    + apply dangling_createTimeout, dangling_settle_handle; [congruence|].
      by apply (dangling_same (log (OInvoke q) w)).
    + apply dangling_log; [done|]. by apply (dangling_same (log (OInvoke q) w)).
  - by apply dangling_log.
  - match goal with |- context [subscribe ?p (RThen promise) ?v] =>
      assert (dangling h (subscribe p (RThen promise) v)) as Hw''
    end.
    { apply dangling_subscribe; [done|].
      destruct Hw' as [? ? Hreact ? ?]. split; try done. simpl.
      intros i c r [Hi | [_ Hi]]%lookup_app_Some; [by eapply Hreact|].
      apply list_lookup_singleton_Some in Hi as [_ <-]. by intros ?%elem_of_nil. }
    match goal with |- context [startTimer ?o] => destruct (startTimer o) end.
    + by apply dangling_createTimeout.
    + by apply dangling_subscribe.
Qed.

Lemma dangling_dispatch rec w w' :
  (∀ v v', dangling h v → rec v = Some v' → dangling h v') →
  dangling h w → dispatch_with rec w = Some w' → dangling h w'.
Proof.
  intros Hrec Hw. unfold dispatch_with, add_with.
  assert (head (returnPromises (this w)) ≠ Some h) as Hhd.
  { intros Hhd. apply (dg_queue h w Hw).
    destruct (returnPromises (this w)); simplify_eq/=. by apply elem_of_cons; left. }
  destruct (head (queue (this w))) as [queued|].
  - destruct (loop _).
    + destruct (rec _) as [v'|] eqn:Hv; [|done]. intros [= <-].
      apply dangling_invoke; [done|].
      eapply Hrec; [|done]. by apply dangling_push, dangling_shift.
    + intros [= <-]. by apply dangling_invoke, dangling_shift.
  - intros [= <-]. by apply dangling_log, dangling_shift.
Qed.

Lemma dangling_trigger_body rec w w' :
  (∀ v v', dangling h v → rec v = Some v' → dangling h v') →
  dangling h w → trigger_body rec w = Some w' → dangling h w'.
Proof.
  intros Hrec Hw. unfold trigger_body.
  destruct (paused (this w)); [by intros [= <-]|].
  destruct (isTriggering (this w)); [by intros [= <-]|].
  destruct (queue (this w)) eqn:Hq.
  { intros [= <-]. by apply (dangling_same w). }
  clear Hq.
  assert (dangling h (on_this (set_isTriggering true) w)) as Hw'
    by (by apply (dangling_same w)).
  destruct (_ && _).
  { intros [= <-]. by apply dangling_createTimeout. }
  destruct (if awaitLastQueue _ then _ else _) as [p|].
  { intros [= <-]. by apply dangling_subscribe. }
  by apply dangling_dispatch.
Qed.

Lemma dangling_trigger_fuel n w w' :
  dangling h w → trigger_fuel n w = Some w' → dangling h w'.
Proof.
  revert w w'. induction n as [|n IH]; intros w w' Hw; [done|].
  cbn [trigger_fuel]. by apply dangling_trigger_body.
Qed.

Lemma dangling_trigger w : dangling h w → dangling h (trigger w).
Proof.
  intros Hw. eapply dangling_trigger_fuel; [done|].
  by apply (trigger_fuel_enough fuel).
Qed.

Lemma dangling_resume w : dangling h w → dangling h (resume w).
Proof.
  intros Hw. eapply dangling_dispatch; [|done|apply (resume_fuel_enough fuel); done].
  intros v v'. apply dangling_trigger_fuel.
Qed.

Lemma dangling_run_job j js w :
  microtasks (host w) = j :: js →
  dangling h w → dangling h (run_job j (on_host (set_microtasks js) w)).
Proof.
  intros Hm Hw.
  assert (job_handle j ≠ Some h) as Hj.
  { apply (dg_jobs h w Hw). rewrite Hm. by apply elem_of_cons; left. }
  assert (dangling h (on_host (set_microtasks js) w)) as Hw'.
  { destruct Hw as [? ? ? Hjobs ?]. split; try done. simpl.
    intros j' Hj'. apply Hjobs. rewrite Hm. by apply elem_of_cons; right. }
  destruct j as [[p|] [d|e]|[p|] [d|e]| | |st]; simpl in *; try done.
  - apply dangling_enqueue; [simpl; congruence|].
    apply dangling_settle_handle; [congruence|done].
  - by apply dangling_enqueue.
  - by apply dangling_enqueue.
  - by apply dangling_enqueue.
  - apply dangling_reject_handle; [congruence|done].
  - by apply dangling_log.
  - by apply dangling_enqueue.
  - by apply dangling_resume.
  - destruct st; [by apply dangling_createTimeout|].
    by apply dangling_log, dangling_createTimeout.
Qed.

Lemma dangling_step e w : dangling h w → dangling h (step e w).
Proof.
  intros Hw. destruct e; simpl.
  - rewrite add_eq. by apply dangling_trigger, dangling_push.
  - apply dangling_trigger, dangling_clearLoop. by apply (dangling_same w).
  - by apply dangling_clearLoop.
  - by apply dangling_trigger, dangling_clearLoop.
  - apply dangling_clearLoop. by apply (dangling_same w).
  - apply dangling_trigger. by apply (dangling_same w).
  - destruct (microtasks (host w)); [|done].
    destruct (armed t w); [|done].
    apply dangling_trigger.
    apply (dangling_same (clearTimeout (Some t) w)); try done.
    by apply dangling_clearTimeout.
  - by apply dangling_settle_promise.
  - destruct (microtasks (host w)) as [|j js] eqn:Hm; [done|].
    by apply dangling_run_job.
Qed.

Lemma dangling_run es w : dangling h w → dangling h (run es w).
Proof.
  revert w. induction es as [|e es IH]; intros w Hw; [done|].
  simpl. by apply IH, dangling_step.
Qed.

End Dangling.

(** * The queue at work

    The properties above on the sample operations, and the runs on which
    the queue does not do what is expected of it. *)

Lemma add_runs_first_entry_at_once_witness :
  OInvoke (op 3) ∈ since fresh (@add demo (op 3) fresh).1.
Proof.
  apply (@add_runs_first_entry_at_once demo (op 3) fresh); try reflexivity.
  right. reflexivity.
Defined.

(** C3 as stated fails: the queue is idle, not paused and has no
    [timerForFirst], but the last function returned a promise (long since
    resolved), so with [awaitLastQueue] (the default) the round awaits it:
    [add] returns before the entry has run, and the entry runs two
    microtasks later. *)
Lemma add_after_async_result_is_deferred :
  queue (this idle_after_async) = []
  ∧ isTriggering (this idle_after_async) = false
  ∧ paused (this idle_after_async) = false
  ∧ timerForFirst (options (this idle_after_async)) = false
  ∧ timers (host idle_after_async) = []
  ∧ microtasks (host idle_after_async) = []
  ∧ (OInvoke (op 3) ∉ trace (host (@add demo (op 3) idle_after_async).1))
  ∧ since idle_after_async (@add demo (op 3) idle_after_async).1
    = [OAdd ByCaller (op 3) 1]
  ∧ since idle_after_async
      (@run demo [EMicrotask; EMicrotask] (@add demo (op 3) idle_after_async).1)
    = [OAdd ByCaller (op 3) 1; ODequeue (op 3) (Some 1); OInvoke (op 3);
       OSettle 1 (Fulfilled (DVal 3))].
Proof.
  split_and!; try reflexivity.
  apply (bool_decide_unpack _). vm_compute. exact I.
Qed.

Lemma runNext_is_clearLoop_then_round_witness :
  OInvoke (op 3) ∈ since two_sync (@runNext demo two_sync).
Proof.
  destruct (@runNext_is_clearLoop_then_round demo two_sync)
    as (_ & _ & _ & _ & _ & _ & Hdispatch).
  apply Hdispatch; try reflexivity.
  right. reflexivity.
Defined.

(** C7 as stated fails: the queue is not paused, not empty and has no
    [timerForFirst], but the function that is running returned a promise
    that is still pending, so the round of [runNext] awaits it and the next
    entry is not run. *)
Lemma runNext_awaits_the_last_result :
  paused (this busy_with_async) = false
  ∧ queue (this busy_with_async) = [op 3]
  ∧ timerForFirst (options (this busy_with_async)) = false
  ∧ @runNext demo busy_with_async = @trigger demo (clearLoop busy_with_async)
  ∧ (OInvoke (op 3) ∉ trace (host (@runNext demo busy_with_async)))
  ∧ since busy_with_async (@runNext demo busy_with_async) = []
  ∧ queue (this (@runNext demo busy_with_async)) = [op 3].
Proof.
  split_and!; try reflexivity.
  apply (bool_decide_unpack _). vm_compute. exact I.
Qed.

Lemma loop_requeues_before_invoking_witness :
  ∃ mid post,
    since looping (@resume demo looping)
    = ODequeue (op 0) (Some 1) :: OAdd ByLoop (op 0) 2 :: mid ++ OInvoke (op 0) :: post.
Proof.
  destruct (@loop_requeues_before_invoking demo (op 0) looping eq_refl eq_refl)
    as (_ & _ & _ & _ & _ & Htrace).
  exact Htrace.
Defined.

Lemma dispatch_is_fifo_witness :
  invoked (trace (host two_sync)) ++ queue (this two_sync)
  = (added (trace (host two_sync))).*1.
Proof.
  destruct (@dispatch_is_fifo demo 2000%Z default_options [EAdd (op 0); EAdd (op 3)])
    as (_ & Horder & _).
  apply Horder. left. reflexivity.
Defined.

(** The side condition of the run order is needed: with [loop] on, when
    the caller lowers the flag between two resumed rounds, the re-[add]
    inside the second starts a round of its own, which runs the next entry
    before the entry just taken. The entries are still taken in order. *)
Lemma nested_round_runs_out_of_order :
  (dequeued (trace (host nested_round))).*1 = [op 1; op 1; op 3; op 1; op 3]
  ∧ invoked (trace (host nested_round)) = [op 1; op 1; op 3; op 3; op 1].
Proof. split; reflexivity. Qed.

Lemma queue_and_promises_aligned_witness :
  aligned (@step demo ERunNext two_sync)
  ∧ added (trace (host two_sync)) !! (length (dequeued (trace (host two_sync))) + 0)
    = Some (op 3, 1).
Proof.
  destruct (@queue_and_promises_aligned demo) as (Hstep & _ & Hreach).
  split.
  - apply Hstep. reflexivity.
  - destruct (Hreach two_sync) as [_ Hpair].
    + exists 2000%Z, default_options, [EAdd (op 0); EAdd (op 3)]. reflexivity.
    + apply Hpair; reflexivity.
Defined.

(** C1 on the code. A function that returns a value fulfils its result
    promise with it, and an [async] function passes on the value its
    promise resolves with or the error it rejects with. A function that
    throws does neither: the throw leaves [trigger] at line 131, the result
    promise that [add] returned has already been taken off [returnPromises],
    nothing else refers to it, and whatever happens afterwards it is never
    settled. *)
Theorem thrown_operation_never_settles_its_handle :
  handles (host (@run demo [EAdd (op 3)] fresh)) !! 0 = Some (Some (Fulfilled (DVal 3)))
  ∧ handles (host (@run demo [EAdd (op 4); EMicrotask] fresh)) !! 0
    = Some (Some (Fulfilled (DVal 4)))
  ∧ handles (host (@run demo [EAdd (op 5); EMicrotask; EMicrotask] fresh)) !! 0
    = Some (Some (Rejected (DVal 5)))
  ∧ (@add demo (op 2) fresh).2 = 0
  ∧ trace (host after_throw)
    = [OAdd ByCaller (op 2) 0; ODequeue (op 2) (Some 0); OInvoke (op 2); OUncaught (DVal 2)]
  ∧ returnPromises (this after_throw) = []
  ∧ ∀ es, handles (host (@run demo es after_throw)) !! 0 = Some None
          ∧ settlements 0 (trace (host (@run demo es after_throw))) = [].
Proof.
  split_and!; try reflexivity.
  assert (dangling 0 after_throw) as Hd.
  { split; try reflexivity.
    - change (returnPromises (this after_throw)) with (@nil nat).
      by intros ?%elem_of_nil.
    - change (promises (host after_throw)) with (@nil pcell).
      intros i c r Hi. by rewrite lookup_nil in Hi.
    - change (microtasks (host after_throw)) with (@nil job).
      by intros j ?%elem_of_nil. }
  intros es.
  destruct (@dangling_run demo 0 es after_throw Hd) as [Hpending _ _ _ Hsilent].
  done.
Qed.

(** C2 on the code. When a function throws, the round ends at line 131:
    no timer is armed and [isTriggering] stays up. Until the caller calls
    [clearLoop], [runNext], [setIntervalTime] or [pause], no timer fires, no
    microtask runs, every [add] finds the flag up, and the entry that was
    waiting is never run. *)
Theorem thrown_operation_stalls_the_queue es :
  forallb gentle es = true →
  isTriggering (this (@run demo es stalled)) = true
  ∧ timers (host (@run demo es stalled)) = []
  ∧ microtasks (host (@run demo es stalled)) = []
  ∧ head (queue (this (@run demo es stalled))) = Some (op 3)
  ∧ invoked (trace (host (@run demo es stalled))) = [op 2].
Proof.
  intros Hes.
  destruct (@stuck_run demo es stalled (op 3) Hes) as ((Ht & Htm & Hm & _) & Hq & Hi & _);
    try done.
Qed.

Lemma thrown_operation_stalls_the_queue_witness :
  head (queue (this (@run demo [ETimeout 0; EMicrotask; EAdd (op 0); EUnpause] stalled)))
  = Some (op 3)
  ∧ invoked (trace (host (@run demo [ETimeout 0; EMicrotask; EAdd (op 0); EUnpause] stalled)))
    = [op 2].
Proof.
  destruct (thrown_operation_stalls_the_queue [ETimeout 0; EMicrotask; EAdd (op 0); EUnpause])
    as (_ & _ & _ & Hq & Hi).
  - reflexivity.
  - split; [exact Hq|exact Hi].
Defined.

(** An [async] function that rejects does not stall the queue: the timer
    is armed, and when it fires the entry behind it runs. *)
Lemma rejected_operation_does_not_stall :
  invoked (trace (host (@run demo
    [EAdd (op 5); EAdd (op 3); EMicrotask; EMicrotask; ETimeout 0; EMicrotask; EMicrotask]
    fresh)))
  = [op 5; op 3].
Proof. reflexivity. Qed.

(** C8 on the code. After a [runNext()] during a suspended round two
    rounds have gone on and two timers are armed, of which the queue holds
    the second. [clearLoop()] cancels that one only: the first stays armed,
    and when it fires the next entry is run, though the loop was stopped. *)
Theorem clearLoop_leaves_a_timer_armed :
  timers (host two_timers) = [(1, 2000%Z); (2, 2000%Z)]
  ∧ _currentTimeout (this two_timers) = Some 2
  ∧ queue (this two_timers) = [op 3]
  ∧ invoked (trace (host two_timers)) = [op 1; op 3; op 0]
  ∧ isTriggering (this (clearLoop two_timers)) = false
  ∧ timers (host (clearLoop two_timers)) = [(1, 2000%Z)]
  ∧ armed 1 (clearLoop two_timers) = true
  ∧ invoked (since (clearLoop two_timers) (@step demo (ETimeout 1) (clearLoop two_timers)))
    = [op 3].
Proof. split_and!; reflexivity. Qed.

(** C4 on the code. A round that is suspended on the last result when
    [pause()] is called goes on when that promise settles: the entry that
    was waiting is run although the queue is paused and [unpause()] was
    never called, a timer is armed, and [isFirst] is false. *)
Theorem pause_does_not_stop_a_suspended_round :
  paused (this paused_mid_round) = true
  ∧ isFirst (this paused_mid_round) = true
  ∧ timers (host paused_mid_round) = []
  ∧ queue (this paused_mid_round) = [op 3]
  ∧ invoked (trace (host paused_mid_round)) = [op 1]
  ∧ paused (this resumed_while_paused) = true
  ∧ isFirst (this resumed_while_paused) = false
  ∧ timers (host resumed_while_paused) = [(1, 2000%Z)]
  ∧ queue (this resumed_while_paused) = []
  ∧ invoked (trace (host resumed_while_paused)) = [op 1; op 3].
Proof. split_and!; reflexivity. Qed.

(** * Further properties of the class *)

(** ** What one call of [add] does *)

Section Calls.
Context `{Behaviour}.


Lemma invoke_Throws q promise e w :
  call (fn q) (args q) = Throws e →
  invoke q promise w = log (OUncaught e) (log (OInvoke q) w).
Proof. intros Hc. unfold invoke. by rewrite Hc. Qed.

(** Inside a round the re-[add] of [loop] only appends. *)
Lemma resume_busy w q :
  isTriggering (this w) = true →
  head (queue (this w)) = Some q →
  resume w
  = invoke q (head (returnPromises (this w)))
      (if loop (options (this w)) then (push_entry ByLoop q (shift w)).1 else shift w).
Proof.
  intros Hflag Hq. destruct (loop (options (this w))) eqn:Hloop.
  - rewrite (resume_loop w q) by done. rewrite trigger_busy; [done|].
    simpl. by rewrite shift_isTriggering.
  - by apply resume_once.
Qed.

(** The round that [add] starts on an idle queue. *)
Lemma add_idle q w :
  queue (this w) = [] →
  isTriggering (this w) = false →
  paused (this w) = false →
  timerForFirst (options (this w)) && isFirst (this w) = false →
  awaitLastQueue (options (this w)) = false
    ∨ instanceof_Promise (lastFnResult (this w)) = None →
  (add q w).1
  = let w1 := on_this (set_isTriggering true) (push_entry ByCaller q w).1 in
    invoke q (head (returnPromises (this w1)))
      (if loop (options (this w)) then (push_entry ByLoop q (shift w1)).1 else shift w1).
Proof.
  intros Hq Hflag Hp Hf Ha. rewrite add_eq. cbn [fst].
  rewrite trigger_dispatch; try done.
  - rewrite (resume_busy _ q); [done|done|]. simpl. by rewrite Hq.
  - simpl. by destruct (queue (this w)).
Qed.

(** X1. While a round is in progress or the queue is paused, [add] only
    appends: the entry goes to the tail of the queue with a new, pending
    result promise, which is returned; nothing is run and no timer is
    created or cancelled. *)
Theorem add_while_busy_only_enqueues q w :
  isTriggering (this w) = true ∨ paused (this w) = true →
  (add q w).2 = length (handles (host w))
  ∧ handles (host (add q w).1) = handles (host w) ++ [None]
  ∧ queue (this (add q w).1) = queue (this w) ++ [q]
  ∧ returnPromises (this (add q w).1)
    = returnPromises (this w) ++ [length (handles (host w))]
  ∧ trace (host (add q w).1)
    = trace (host w) ++ [OAdd ByCaller q (length (handles (host w)))]
  ∧ timers (host (add q w).1) = timers (host w)
  ∧ microtasks (host (add q w).1) = microtasks (host w)
  ∧ promises (host (add q w).1) = promises (host w)
  ∧ isTriggering (this (add q w).1) = isTriggering (this w)
  ∧ paused (this (add q w).1) = paused (this w)
  ∧ isFirst (this (add q w).1) = isFirst (this w)
  ∧ lastFnResult (this (add q w).1) = lastFnResult (this w).
Proof.
  intros Hw. rewrite add_eq. cbn [fst snd].
  assert (trigger (push_entry ByCaller q w).1 = (push_entry ByCaller q w).1) as ->.
  { destruct Hw as [Hflag | Hp]; [by apply trigger_busy|by apply trigger_paused]. }
  done.
Qed.

(** X2. A function that returns a plain value, added to an idle queue
    (empty, no round in progress, not paused, no timer for the first entry,
    nothing to await), is run inside [add], and its result promise, the one
    [add] returns, is fulfilled with that value by the time [add] returns,
    by one call of [resolve]. The value becomes [lastFnResult], the spacing
    timer is armed with the current interval and held, and [isFirst] is
    cleared. With [loop] the entry is back in the queue, else the queue is
    empty. *)
Theorem sync_result_fulfils_handle q d w :
  call (fn q) (args q) = Returns d →
  queue (this w) = [] →
  returnPromises (this w) = [] →
  isTriggering (this w) = false →
  paused (this w) = false →
  timerForFirst (options (this w)) && isFirst (this w) = false →
  awaitLastQueue (options (this w)) = false
    ∨ instanceof_Promise (lastFnResult (this w)) = None →
  let h := (add q w).2 in
  let w' := (add q w).1 in
  h = length (handles (host w))
  ∧ handles (host w') !! h = Some (Some (Fulfilled d))
  ∧ settlements h (since w w') = [Fulfilled d]
  ∧ invoked (since w w') = [q]
  ∧ lastFnResult (this w') = VData d
  ∧ timers (host w') = timers (host w) ++ [(next_timer (host w), intervalTime (this w))]
  ∧ _currentTimeout (this w') = Some (next_timer (host w))
  ∧ isFirst (this w') = false
  ∧ isTriggering (this w') = true
  ∧ queue (this w') = (if loop (options (this w)) then [q] else []).
Proof.
  intros Hc Hq Hrp Hflag Hp Hf Ha h w'.
  assert (h = length (handles (host w))) as Hh by (unfold h; by rewrite add_eq).
  unfold w'. rewrite add_idle by done. rewrite Hh. clear h w' Hh.
  assert (∀ hs : list (option settlement),
    (hs ++ [None]) !! length hs = Some (@None settlement)) as Hmid.
  { intros hs. by apply list_lookup_middle. }
  assert (∀ hs : list (option settlement),
    ((hs ++ [None]) ++ [None]) !! length hs = Some (@None settlement)) as Hmid'.
  { intros hs. rewrite <-app_assoc. by apply list_lookup_middle. }
  destruct w as [[it flag qu rp last opts first pa cur] [hs ps ts nt ms tr]].
  simpl in *. subst. unfold shift, since. simpl.
  destruct (loop opts); simpl; unfold invoke; rewrite Hc; simpl;
    unfold settle_handle; simpl; rewrite ?Hmid, ?Hmid'; simpl;
    (split_and!; try done;
     [ apply list_lookup_insert_eq; rewrite ?length_app; simpl; lia
     | rewrite <-?app_assoc, drop_app_length; simpl; by rewrite decide_True
     | rewrite <-?app_assoc, drop_app_length; simpl; done ]).
Qed.

(** X3. With [timerForFirst], the first entry added to an idle queue (or
    the first after the queue has drained or was paused: [isFirst] is set)
    is not run by [add]: a timer is armed with the current interval and
    held. When that timer fires, the entry is run, unless the round then has
    to await the last result. *)
Theorem timerForFirst_delays_first_entry q w :
  timerForFirst (options (this w)) = true →
  isFirst (this w) = true →
  queue (this w) = [] →
  isTriggering (this w) = false →
  paused (this w) = false →
  let w' := (add q w).1 in
  let t := next_timer (host w) in
  since w w' = [OAdd ByCaller q (length (handles (host w)))]
  ∧ queue (this w') = [q]
  ∧ timers (host w') = timers (host w) ++ [(t, intervalTime (this w))]
  ∧ _currentTimeout (this w') = Some t
  ∧ isFirst (this w') = false
  ∧ isTriggering (this w') = true
  ∧ (microtasks (host w) = [] →
     awaitLastQueue (options (this w)) = false
       ∨ instanceof_Promise (lastFnResult (this w)) = None →
     OInvoke q ∈ since w' (step (ETimeout t) w')).
Proof.
  intros Hf Hfirst Hq Hflag Hp w' t.
  assert (w' = _createTimeout (on_this (set_isTriggering true) (push_entry ByCaller q w).1))
    as Hw'.
  { unfold w'. rewrite add_eq. cbn [fst].
    set (w1 := (push_entry ByCaller q w).1).
    assert (paused (this w1) = false) as Hp1 by done.
    assert (isTriggering (this w1) = false) as Hflag1 by done.
    assert (queue (this w1) = [q]) as Hq1 by (simpl; by rewrite Hq).
    assert (options (this w1) = options (this w)) as Ho1 by done.
    assert (isFirst (this w1) = isFirst (this w)) as Hfirst1 by done.
    pose proof (trigger_eq w1) as Hr. unfold trigger_body in Hr.
    rewrite Hp1, Hflag1, Hq1 in Hr.
    cbn [on_this this options isFirst set_isTriggering] in Hr.
    rewrite Ho1, Hfirst1, Hf, Hfirst in Hr. by injection Hr as <-. }
  rewrite Hw'. split_and!; try done.
  - unfold since. simpl. by rewrite drop_app_length.
  - simpl. by rewrite Hq.
  - intros Hm Ha. rewrite <-Hw'.
    assert (armed t w' = true) as Harmed.
    { rewrite Hw'. unfold armed. simpl. apply bool_decide_eq_true.
      rewrite fmap_app. apply elem_of_app. right. by apply elem_of_cons; left. }
    assert (microtasks (host w') = []) as Hm' by (by rewrite Hw').
    simpl. rewrite Hm', Harmed. unfold timeout_callback.
    set (v := on_this (set_isTriggering false) (clearTimeout (Some t) w')).
    change (OInvoke q ∈ since v (trigger v)).
    assert (head (queue (this v)) = Some q) as Hhd.
    { unfold v. rewrite Hw'. simpl. by rewrite Hq. }
    rewrite trigger_dispatch.
    + destruct (resume_invokes (on_this (set_isTriggering true) v) q Hhd)
        as (mid & post & Hs).
      change (OInvoke q ∈ since (on_this (set_isTriggering true) v)
                (resume (on_this (set_isTriggering true) v))).
      rewrite Hs. apply elem_of_cons. right. apply elem_of_app. right.
      by apply elem_of_cons; left.
    + unfold v. rewrite Hw'. done.
    + done.
    + by eapply head_Some_nonempty.
    + unfold v. rewrite Hw'. simpl. apply andb_false_r.
    + unfold v. rewrite Hw'. done.
Qed.

End Calls.

(** ** The result of an asynchronous function *)

Section Async.
Context `{Behaviour}.

(** Bring a world built from updates of a record to a record again. *)
Ltac world_nf H :=
  cbv beta iota zeta delta
    [on_host on_this set_intervalTime set_isTriggering set_queue set_returnPromises
     set_lastFnResult set_isFirst set_paused set_currentTimeout set_handles
     set_promises set_timers set_next_timer set_microtasks set_trace this host
     intervalTime isTriggering queue returnPromises lastFnResult options isFirst
     paused _currentTimeout handles promises timers next_timer microtasks trace
     pstate reactions log enqueue _createTimeout setTimeout fst snd run_job step
     settle_handle reject_handle settle_promise job_of] in H.

Ltac world_nf_goal :=
  cbv beta iota zeta delta
    [on_host on_this set_intervalTime set_isTriggering set_queue set_returnPromises
     set_lastFnResult set_isFirst set_paused set_currentTimeout set_handles
     set_promises set_timers set_next_timer set_microtasks set_trace this host
     intervalTime isTriggering queue returnPromises lastFnResult options isFirst
     paused _currentTimeout handles promises timers next_timer microtasks trace
     pstate reactions log enqueue _createTimeout setTimeout fst snd
     settle_handle subscribe shift push_entry _createResultPromise job_of].

Lemma lookup_snoc_here {A} (l : list A) x : (l ++ [x]) !! length l = Some x.
Proof. by apply list_lookup_middle. Qed.

Lemma lookup_snoc2_here {A} (l : list A) x y : ((l ++ [x]) ++ [y]) !! length l = Some x.
Proof. rewrite <-app_assoc. by apply list_lookup_middle. Qed.

Lemma insert_snoc_here {A} (l : list A) x y : <[length l := y]> (l ++ [x]) = l ++ [y].
Proof. rewrite insert_app_r_alt by lia. by rewrite Nat.sub_diag. Qed.

Lemma insert_snoc2_here {A} (l : list A) x y z :
  <[length l := z]> ((l ++ [x]) ++ [y]) = (l ++ [z]) ++ [y].
Proof.
  rewrite <-!app_assoc. rewrite insert_app_r_alt by lia. by rewrite Nat.sub_diag.
Qed.

(** A promise whose reactions are those of one dispatch settles: the
    microtasks pass its outcome on to the result promise. *)
Lemma deliver p h st fin u :
  fin = [] ∨ fin = [RFinally] →
  promises (host u) !! p = Some {| pstate := None; reactions := RThen (Some h) :: fin |} →
  handles (host u) !! h = Some None →
  microtasks (host u) = [] →
  let u' := run [ESettle p st; EMicrotask; EMicrotask; EMicrotask] u in
  handles (host u') !! h = Some (Some st)
  ∧ microtasks (host u') = []
  ∧ ∃ tr, trace (host u') = trace (host u) ++ tr ∧ settlements h tr = [st].
Proof.
  intros Hfin Hcell Hh Hm u'.
  assert (h < length (handles (host u))) as Hlt by (by eapply lookup_lt_Some).
  destruct u as [[it flag qu rp last opts first pa cur] [hs ps ts nt ms tr]].
  simpl in Hcell, Hh, Hm, Hlt. subst ms.
  unfold u', run. cbn [foldl flip]. clear u'.
  match goal with |- context [step (ESettle p st) ?v] =>
    remember (step (ESettle p st) v) as u1 eqn:Hu1 end.
  world_nf Hu1. rewrite Hcell in Hu1. world_nf Hu1.
  destruct st as [d|e], Hfin as [-> | ->]; simpl in Hu1; subst u1;
    repeat (match goal with |- context [step EMicrotask {| this := ?a; host := ?b |}] =>
      let v := fresh "v" in let Hv := fresh "Hv" in
      remember (step EMicrotask {| this := a; host := b |}) as v eqn:Hv;
      world_nf Hv; rewrite ?Hh in Hv;
      try (rewrite bool_decide_eq_true_2 in Hv by done);
      cbn [andb] in Hv;
      try (match type of Hv with context [discarded ?a ?b] => destruct (discarded a b) end);
      world_nf Hv; simpl in Hv; subst v end);
    simpl; (split_and!; [by apply list_lookup_insert_eq|done|]);
    (eexists; split; [rewrite <-?app_assoc; reflexivity|]); simpl;
    by rewrite decide_True.
Qed.

Lemma subscribe_last r c ps v :
  promises (host v) = ps ++ [c] →
  pstate c = None →
  subscribe (length ps) r v
  = on_host (set_promises (ps ++ [{| pstate := None; reactions := reactions c ++ [r] |}])) v.
Proof.
  intros Hps Hc. unfold subscribe.
  by rewrite Hps, lookup_snoc_here, Hc, insert_snoc_here.
Qed.

Lemma invoke_pending q h v :
  call (fn q) (args q) = ReturnsPromise None →
  invoke q (Some h) v
  = match startTimer (options (this v)) with
    | Before =>
        _createTimeout
          (on_host (set_promises (promises (host v)
             ++ [{| pstate := None; reactions := [RThen (Some h)] |}]))
             (on_this (set_lastFnResult (VPromise (length (promises (host v)))))
                (log (OInvoke q) v)))
    | After =>
        on_host (set_promises (promises (host v)
          ++ [{| pstate := None; reactions := [RThen (Some h); RFinally] |}]))
          (on_this (set_lastFnResult (VPromise (length (promises (host v)))))
             (log (OInvoke q) v))
    end.
Proof.
  intros Hc. unfold invoke. rewrite Hc. cbv zeta.
  change (promises (host (log (OInvoke q) v))) with (promises (host v)).
  set (v1 := on_this (set_lastFnResult (VPromise (length (promises (host v)))))
               (on_host (set_promises (promises (host v)
                  ++ [{| pstate := None; reactions := [] |}])) (log (OInvoke q) v))).
  rewrite (subscribe_last (RThen (Some h)) {| pstate := None; reactions := [] |}
             (promises (host v)) v1) by done.
  cbn [reactions app].
  set (v2 := on_host _ v1).
  change (options (this v2)) with (options (this v)).
  destruct (startTimer (options (this v))); [done|].
  unfold v2.
  rewrite (subscribe_last RFinally {| pstate := None; reactions := [RThen (Some h)] |}
             (promises (host v))) by done.
  done.
Qed.

(** The world [add] leaves when the function returns a pending promise. *)
Lemma add_pending q w :
  call (fn q) (args q) = ReturnsPromise None →
  queue (this w) = [] →
  returnPromises (this w) = [] →
  isTriggering (this w) = false →
  paused (this w) = false →
  timerForFirst (options (this w)) && isFirst (this w) = false →
  awaitLastQueue (options (this w)) = false
    ∨ instanceof_Promise (lastFnResult (this w)) = None →
  let h := length (handles (host w)) in
  let p := length (promises (host w)) in
  let u := (add q w).1 in
  (add q w).2 = h
  ∧ (∃ fin, (fin = [] ∨ fin = [RFinally])
       ∧ promises (host u) !! p
         = Some {| pstate := None; reactions := RThen (Some h) :: fin |})
  ∧ handles (host u) !! h = Some None
  ∧ microtasks (host u) = microtasks (host w)
  ∧ lastFnResult (this u) = VPromise p
  ∧ ∃ tr, trace (host u) = trace (host w) ++ tr
          ∧ settlements h tr = [] ∧ invoked tr = [q].
Proof.
  intros Hc Hq Hrp Hflag Hp Hf Ha h p u.
  split; [by rewrite add_eq|].
  unfold u, h, p. rewrite add_idle by done. clear u h p.
  cbv zeta. cbn [push_entry fst returnPromises this on_this set_isTriggering log
    on_host set_returnPromises _createResultPromise snd handles host set_queue
    set_handles].
  rewrite Hrp. cbn [app head]. rewrite invoke_pending by done.
  unfold shift. cbn [queue this on_this set_isTriggering log on_host set_queue
    set_returnPromises push_entry fst snd _createResultPromise returnPromises].
  rewrite Hq. cbn [app head tail].
  destruct (loop (options (this w))), (startTimer _);
    (split_and!;
     [ eexists; split; [|apply lookup_snoc_here]; auto
     | cbn; rewrite ?lookup_snoc2_here, ?lookup_snoc_here; done
     | done
     | done
     | eexists; split; [cbn; rewrite <-!app_assoc; reflexivity|]; by cbn ]).
Qed.

(** X4. A function that returns a promise still pending, added to an
    idle queue with no microtask waiting, is run inside [add]; its result
    promise stays pending and its promise becomes [lastFnResult]. When that
    promise settles, three microtasks later at most the result promise has
    the same outcome, fulfilled with the value or rejected with the error,
    by one call of [resolve] or [reject], whatever [startTimer] and [loop]
    are. *)
Theorem async_result_reaches_handle q st w :
  call (fn q) (args q) = ReturnsPromise None →
  queue (this w) = [] →
  returnPromises (this w) = [] →
  isTriggering (this w) = false →
  paused (this w) = false →
  timerForFirst (options (this w)) && isFirst (this w) = false →
  awaitLastQueue (options (this w)) = false
    ∨ instanceof_Promise (lastFnResult (this w)) = None →
  microtasks (host w) = [] →
  let h := (add q w).2 in
  let w' := (add q w).1 in
  let p := length (promises (host w)) in
  let w'' := run [ESettle p st; EMicrotask; EMicrotask; EMicrotask] w' in
  handles (host w') !! h = Some None
  ∧ settlements h (since w w') = []
  ∧ invoked (since w w') = [q]
  ∧ lastFnResult (this w') = VPromise p
  ∧ handles (host w'') !! h = Some (Some st)
  ∧ settlements h (since w w'') = [st]
  ∧ microtasks (host w'') = [].
Proof.
  intros Hc Hq Hrp Hflag Hp Hf Ha Hm h w' p w''.
  destruct (add_pending q w Hc Hq Hrp Hflag Hp Hf Ha)
    as (Hh & (fin & Hfin & Hcell) & Hpend & Hmicro & Hlast & tr & Htr & Hsettle & Hinv).
  fold w' in Hcell, Hpend, Hmicro, Hlast, Htr. fold p in Hcell, Hlast.
  fold h in Hh. rewrite Hh in *.
  destruct (deliver p (length (handles (host w))) st fin w' Hfin Hcell Hpend)
    as (Hdone & Hempty & tr' & Htr' & Hsettle').
  { by rewrite Hmicro. }
  fold w'' in Hdone, Hempty, Htr'.
  rewrite (since_app w w' tr) by done.
  rewrite (since_app w w'' (tr ++ tr')) by (by rewrite Htr', Htr, app_assoc).
  rewrite settlements_app, Hsettle, Hsettle'. done.
Qed.

End Async.

(** ** A result promise is settled at most once *)

Section Tokens.
Context `{Behaviour} (h : handle).

Lemma upto_refl w : upto h 0 w w.
Proof. split_and!; [done| |done]. unfold created. lia. Qed.

Lemma upto_trans k1 k2 w1 w2 w3 :
  upto h k1 w1 w2 → upto h k2 w2 w3 → upto h (k1 + k2) w1 w3.
Proof.
  unfold upto, created. intros (Hl1 & Ht1 & Hs1) (Hl2 & Ht2 & Hs2).
  split_and!; [lia| |by auto].
  repeat case_decide; lia.
Qed.

Lemma upto_weaken k k' w w' : k ≤ k' → upto h k w w' → upto h k' w w'.
Proof. intros Hk (Hl & Ht & Hs). split_and!; [done|lia|done]. Qed.

(** An update that leaves the handles, the trace and the holders alone. *)
Lemma upto_same w w' :
  handles (host w') = handles (host w) →
  trace (host w') = trace (host w) →
  returnPromises (this w') = returnPromises (this w) →
  promises (host w') = promises (host w) →
  microtasks (host w') = microtasks (host w) →
  upto h 0 w w'.
Proof.
  intros Hh Ht Hr Hp Hm. unfold upto, created, tokens, sound.
  rewrite Hh, Ht, Hr, Hp, Hm. split_and!; [done|lia|done].
Qed.

Lemma upto_createTimeout w : upto h 0 w (_createTimeout w).
Proof. by apply upto_same. Qed.

Lemma upto_clearTimeout x w : upto h 0 w (clearTimeout x w).
Proof. destruct x; by apply upto_same. Qed.

Lemma upto_clearLoop w : upto h 0 w (clearLoop w).
Proof.
  unfold clearLoop.
  apply (upto_trans 0 0 _ (clearTimeout (_currentTimeout (this w)) w));
    [apply upto_clearTimeout|by apply upto_same].
Qed.

Lemma upto_log o w : (∀ r, o ≠ OSettle h r) → upto h 0 w (log o w).
Proof.
  intros Ho. unfold upto, created, tokens, sound. simpl.
  rewrite settlements_app.
  assert (settlements h [o] = []) as ->.
  { destruct o; simpl; try done. case_decide; [|done]. subst. by destruct (Ho r). }
  rewrite app_nil_r. split_and!; [done|lia|done].
Qed.

Lemma upto_enqueue j w : upto h (job_token h j) w (enqueue j w).
Proof.
  unfold upto, created, tokens, sound. simpl.
  rewrite sum_list_with_app. simpl. split_and!; [done|lia|done].
Qed.

Lemma job_of_token st r : job_token h (job_of st r) = reaction_token h r.
Proof. by destruct r. Qed.

Lemma sum_job_of_token st rs :
  sum_list_with (job_token h) (job_of st <$> rs)
  = sum_list_with (reaction_token h) rs.
Proof.
  induction rs as [|r rs IH]; [done|].
  rewrite fmap_cons. simpl. rewrite job_of_token. by f_equal.
Qed.

Lemma upto_subscribe p r w : upto h (reaction_token h r) w (subscribe p r w).
Proof.
  unfold subscribe. destruct (promises (host w) !! p) as [c|] eqn:Hc.
  - destruct (pstate c) as [st|].
    + rewrite <-(job_of_token st r). apply upto_enqueue.
    + unfold upto, created, tokens, sound. simpl.
      pose proof (sum_list_with_insert
        (λ c, sum_list_with (reaction_token h) (reactions c)) _ _ _
        {| pstate := None; reactions := reactions c ++ [r] |} Hc) as Hs.
      simpl in Hs. rewrite sum_list_with_app in Hs. simpl in Hs.
      split_and!; [done|lia|done].
  - apply (upto_weaken 0); [lia|apply upto_refl].
Qed.

Lemma upto_settle_handle p r w :
  upto h (holds h (Some p)) w (settle_handle p r w).
Proof.
  unfold settle_handle.
  assert (∀ hs, tokens h (on_host (set_handles hs) (log (OSettle p r) w))
                = tokens h w + holds h (Some p)) as Htok.
  { intros hs. unfold tokens. simpl. rewrite settlements_app, length_app. simpl.
    unfold holds. repeat case_decide; simplify_eq; simpl; lia. }
  assert (tokens h (log (OSettle p r) w) = tokens h w + holds h (Some p)) as Htok'.
  { apply (Htok (handles (host w))). }
  assert (∀ r', r' ∈ settlements h (trace (host w)) →
                r' ∈ settlements h (trace (host (log (OSettle p r) w)))) as Hin.
  { intros r' Hr'. simpl. rewrite settlements_app. apply elem_of_app. by left. }
  destruct (handles (host (log (OSettle p r) w)) !! p) as [[r0|]|] eqn:Hp.
  - split_and!; [done|rewrite Htok'; lia|].
    intros Hs r' Hr'. by apply Hin, Hs.
  - split_and!; [simpl; by rewrite length_insert|rewrite Htok; lia|].
    intros Hs r'. simpl. destruct (decide (p = h)) as [->|Hne].
    + rewrite list_lookup_insert_eq by (by eapply lookup_lt_Some).
      intros [= <-]. rewrite settlements_app. apply elem_of_app. right.
      simpl. rewrite decide_True by done. by apply elem_of_cons; left.
    + rewrite list_lookup_insert_ne by done. intros Hr'. by apply Hin, Hs.
  - split_and!; [done|rewrite Htok'; lia|].
    intros Hs r' Hr'. by apply Hin, Hs.
Qed.

Lemma upto_reject_handle p e w :
  upto h (holds h (Some p)) w (reject_handle p e w).
Proof.
  unfold reject_handle. cbv zeta. destruct (_ && _); [|apply upto_settle_handle].
  apply (upto_weaken (holds h (Some p) + 0)); [lia|].
  eapply upto_trans; [apply upto_settle_handle|by apply upto_log].
Qed.

Lemma upto_settle_promise p st w : upto h 0 w (settle_promise p st w).
Proof.
  unfold settle_promise. destruct (promises (host w) !! p) as [c|] eqn:Hc;
    [|apply upto_refl].
  destruct (pstate c); [apply upto_refl|].
  unfold upto, created, tokens, sound. simpl.
  pose proof (sum_list_with_insert
    (λ c, sum_list_with (reaction_token h) (reactions c)) _ _ _
    {| pstate := Some st; reactions := [] |} Hc) as Hs.
  simpl in Hs. rewrite sum_list_with_app.
  rewrite sum_job_of_token. split_and!; [done|lia|done].
Qed.

Lemma upto_push o q w : upto h 0 w (push_entry o q w).1.
Proof.
  unfold upto, created, tokens, sound. simpl.
  rewrite length_app, sum_list_with_app, settlements_app. simpl.
  rewrite app_nil_r. split_and!.
  - lia.
  - unfold holds. repeat case_decide; simplify_eq; lia.
  - intros Hs r [Hr | [_ Hr]]%lookup_app_Some; [by apply Hs|].
    by apply list_lookup_singleton_Some in Hr as [_ ?].
Qed.

(** [shift] takes the token of the promise at the head away. *)
Lemma shift_tokens w :
  handles (host (shift w)) = handles (host w)
  ∧ tokens h (shift w) + holds h (head (returnPromises (this w))) = tokens h w
  ∧ (sound h w → sound h (shift w)).
Proof.
  unfold shift, tokens, sound.
  destruct (head (queue (this w))); simpl; rewrite ?settlements_app; simpl;
    rewrite ?app_nil_r; (split_and!; [done| |done]);
    destruct (returnPromises (this w)) as [|p rp]; simpl; unfold holds;
    repeat case_decide; simplify_eq; lia.
Qed.

Lemma upto_alloc c w :
  reactions c = [] →
  upto h 0 w (on_host (set_promises (promises (host w) ++ [c])) w).
Proof.
  intros Hc. unfold upto, created, tokens, sound. simpl.
  rewrite sum_list_with_app. simpl. rewrite Hc. simpl.
  split_and!; [done|lia|done].
Qed.

Lemma upto_invoke q promise w : upto h (holds h promise) w (invoke q promise w).
Proof.
  unfold invoke. cbv zeta.
  assert (upto h 0 w (log (OInvoke q) w)) as Hlog by (by apply upto_log).
  destruct (call (fn q) (args q)) as [d|e|init].
  - set (w1 := on_this (set_lastFnResult (VData d)) (log (OInvoke q) w)).
    assert (upto h 0 w w1) as Hw1.
    { apply (upto_trans 0 0 _ _ _ Hlog). by apply upto_same. }
    destruct promise as [p|].
    + apply (upto_trans 0 _ _ _ _ Hw1).
      apply (upto_weaken (holds h (Some p) + 0)); [unfold holds; repeat case_decide; lia|].
      eapply upto_trans; [apply upto_settle_handle|apply upto_createTimeout].
    + apply (upto_weaken 0); [unfold holds; repeat case_decide; lia|].
      apply (upto_trans 0 0 _ _ _ Hw1). by apply upto_log.
  - apply (upto_weaken 0); [unfold holds; repeat case_decide; lia|].
    apply (upto_trans 0 0 _ _ _ Hlog). by apply upto_log.
  - set (c := {| pstate := init; reactions := [] |}).
    set (w1 := on_host (set_promises (promises (host (log (OInvoke q) w)) ++ [c]))
                 (log (OInvoke q) w)).
    set (w2 := on_this (set_lastFnResult
                 (VPromise (length (promises (host (log (OInvoke q) w)))))) w1).
    assert (upto h 0 w w2) as Hw2.
    { apply (upto_trans 0 0 _ _ _ Hlog).
      apply (upto_trans 0 0 _ w1); [by apply upto_alloc|by apply upto_same]. }
    apply (upto_trans 0 _ _ _ _ Hw2).
    apply (upto_weaken (holds h promise + 0)); [unfold holds; repeat case_decide; lia|].
    eapply upto_trans; [eapply (upto_subscribe _ (RThen promise))|].
    match goal with |- context [startTimer ?o] => destruct (startTimer o) end.
    + apply upto_createTimeout.
    + eapply (upto_subscribe _ RFinally).
Qed.

Lemma upto_dispatch rec w w' :
  (∀ v v', rec v = Some v' → upto h 0 v v') →
  dispatch_with rec w = Some w' → upto h 0 w w'.
Proof.
  intros Hrec. unfold dispatch_with, add_with.
  destruct (shift_tokens w) as (Hh & Ht & Hs).
  assert (∀ v k, upto h k (shift w) v →
            k ≤ holds h (head (returnPromises (this w))) → upto h 0 w v) as Hvia.
  { intros v k (Hl' & Ht' & Hs') Hk. unfold upto, created in *.
    rewrite Hh in *. split_and!; [done|lia|by auto]. }
  destruct (head (queue (this w))) as [queued|].
  - destruct (loop _).
    + destruct (rec _) as [v'|] eqn:Hv; [|done]. intros [= <-].
      apply Hrec in Hv. apply (Hvia _ (holds h (head (returnPromises (this w))))); [|done].
      eapply (upto_trans 0); [apply (upto_push ByLoop queued)|].
      eapply (upto_trans 0); [exact Hv|]. apply upto_invoke.
    + intros [= <-].
      apply (Hvia _ (holds h (head (returnPromises (this w))))); [|done].
      apply upto_invoke.
  - intros [= <-]. apply (Hvia _ 0); [|lia]. by apply upto_log.
Qed.

Lemma upto_trigger_body rec w w' :
  (∀ v v', rec v = Some v' → upto h 0 v v') →
  trigger_body rec w = Some w' → upto h 0 w w'.
Proof.
  intros Hrec. unfold trigger_body.
  destruct (paused (this w)); [intros [= <-]; apply upto_refl|].
  destruct (isTriggering (this w)); [intros [= <-]; apply upto_refl|].
  destruct (queue (this w)) eqn:Hq.
  { intros [= <-]. by apply upto_same. }
  clear Hq.
  assert (upto h 0 w (on_this (set_isTriggering true) w)) as Hw'
    by (by apply upto_same).
  destruct (_ && _).
  { intros [= <-]. apply (upto_trans 0 0 _ _ _ Hw'), upto_createTimeout. }
  destruct (if awaitLastQueue _ then _ else _) as [p|].
  { intros [= <-]. apply (upto_trans 0 0 _ _ _ Hw'). eapply (upto_subscribe _ RAwaitCatch). }
  intros Hd. apply (upto_trans 0 0 _ _ _ Hw'). by eapply upto_dispatch.
Qed.

Lemma upto_trigger_fuel n w w' : trigger_fuel n w = Some w' → upto h 0 w w'.
Proof.
  revert w w'. induction n as [|n IH]; intros w w'; [done|].
  cbn [trigger_fuel]. by apply upto_trigger_body.
Qed.

Lemma upto_trigger w : upto h 0 w (trigger w).
Proof. eapply upto_trigger_fuel. by apply (trigger_fuel_enough fuel). Qed.

Lemma upto_resume w : upto h 0 w (resume w).
Proof.
  eapply upto_dispatch; [|apply (resume_fuel_enough fuel); done].
  intros v v'. apply upto_trigger_fuel.
Qed.

Lemma upto_run_job j js w :
  microtasks (host w) = j :: js →
  upto h 0 w (run_job j (on_host (set_microtasks js) w)).
Proof.
  intros Hm. set (w1 := on_host (set_microtasks js) w).
  assert (∀ v k, upto h k w1 v → k ≤ job_token h j → upto h 0 w v) as Hvia.
  { intros v k (Hl' & Ht' & Hs') Hk. unfold upto, created, tokens, sound, w1 in *.
    simpl in *. rewrite Hm. simpl. split_and!; [done|lia|by auto]. }
  destruct j as [[p|] [d|e]|[p|] [d|e]| | |st]; simpl.
  - apply (Hvia _ (holds h (Some p) + 0)); [|simpl; lia].
    eapply upto_trans; [apply upto_settle_handle|].
    apply (upto_enqueue (JCatch (Some p) (Fulfilled DUndefined))).
  - apply (Hvia _ (holds h (Some p))); [|done].
    apply (upto_enqueue (JCatch (Some p) (Rejected e))).
  - apply (Hvia _ (holds h None)); [|done].
    apply (upto_enqueue (JCatch None (Rejected DTypeError))).
  - apply (Hvia _ (holds h None)); [|done].
    apply (upto_enqueue (JCatch None (Rejected e))).
  - apply (Hvia _ 0); [|lia]. apply upto_refl.
  - apply (Hvia _ (holds h (Some p))); [|done]. apply upto_reject_handle.
  - apply (Hvia _ 0); [|lia]. apply upto_refl.
  - apply (Hvia _ 0); [|lia]. by apply upto_log.
  - apply (Hvia _ 0); [|lia]. apply (upto_enqueue JResume).
  - apply (Hvia _ 0); [|lia]. apply upto_resume.
  - apply (Hvia _ 0); [|lia].
    destruct st; [apply upto_createTimeout|].
    eapply (upto_trans 0 0); [apply upto_createTimeout|by apply upto_log].
Qed.

Lemma upto_step e w : upto h 0 w (step e w).
Proof.
  destruct e; simpl.
  - rewrite add_eq. cbn [fst].
    eapply (upto_trans 0 0); [apply (upto_push ByCaller q)|apply upto_trigger].
  - eapply (upto_trans 0 0); [|apply upto_trigger].
    eapply (upto_trans 0 0); [|apply upto_clearLoop]. by apply upto_same.
  - apply upto_clearLoop.
  - eapply (upto_trans 0 0); [apply upto_clearLoop|apply upto_trigger].
  - eapply (upto_trans 0 0); [|apply upto_clearLoop]. by apply upto_same.
  - eapply (upto_trans 0 0); [|apply upto_trigger]. by apply upto_same.
  - destruct (microtasks (host w)); [|apply upto_refl].
    destruct (armed t w); [|apply upto_refl].
    eapply (upto_trans 0 0); [|apply upto_trigger].
    eapply (upto_trans 0 0); [apply (upto_clearTimeout (Some t))|by apply upto_same].
  - apply upto_settle_promise.
  - destruct (microtasks (host w)) as [|j js] eqn:Hm; [apply upto_refl|].
    by apply upto_run_job.
Qed.

Lemma upto_run es w : upto h 0 w (run es w).
Proof.
  revert w. induction es as [|e es IH]; intros w; [apply upto_refl|].
  simpl. eapply (upto_trans 0 0); [apply upto_step|apply IH].
Qed.

Lemma holder_counts (l : list handle) :
  h ∈ l → 1 ≤ sum_list_with (λ p, holds h (Some p)) l.
Proof.
  induction l as [|p l IH]; [by intros ?%elem_of_nil|].
  intros [->|Hin]%elem_of_cons; simpl.
  - unfold holds at 1. rewrite decide_True by done. lia.
  - specialize (IH Hin). lia.
Qed.

(** X5. Whatever the caller does and however the operations behave, every
    result promise is resolved or rejected by at most one call; a promise
    that has been settled carries the value of that one call; and the
    promise of an entry still waiting in the queue is pending, with no
    such call made yet. *)
Theorem result_promise_settled_at_most_once t o es :
  let w := run es (new_IntervalQueue t o) in
  length (settlements h (trace (host w))) ≤ 1
  ∧ (∀ r, handles (host w) !! h = Some (Some r) →
          settlements h (trace (host w)) = [r])
  ∧ (h ∈ returnPromises (this w) →
     handles (host w) !! h = Some None ∧ settlements h (trace (host w)) = []).
Proof.
  intros w. destruct (upto_run es (new_IntervalQueue t o)) as (_ & Ht & Hs).
  fold w in Ht, Hs.
  assert (tokens h (new_IntervalQueue t o) = 0) as H0 by done.
  assert (sound h w) as Hsound by (apply Hs; intros r [=]).
  assert (length (settlements h (trace (host w))) ≤ 1) as Hone.
  { unfold tokens, created in *. case_decide; lia. }
  split_and!; [done| |].
  - intros r Hr. apply Hsound in Hr.
    destruct (settlements h (trace (host w))) as [|r0 [|r1 l]]; simpl in Hone;
      [by apply elem_of_nil in Hr| |lia].
    by apply list_elem_of_singleton in Hr as ->.
  - intros Hin%holder_counts.
    assert (settlements h (trace (host w)) = []) as Hnil.
    { apply length_zero_iff_nil. unfold tokens, created in *. case_decide; lia. }
    split; [|done].
    assert (h < length (handles (host w))) as Hlt.
    { unfold tokens, created in *. case_decide; lia. }
    apply lookup_lt_is_Some in Hlt as [[r|] Hh]; [|done].
    apply Hsound in Hh. rewrite Hnil in Hh. by apply elem_of_nil in Hh.
Qed.

End Tokens.

(** ** The further properties on the sample queues *)

Lemma add_while_busy_only_enqueues_witness :
  queue (this (@add demo (op 3) two_sync).1) = queue (this two_sync) ++ [op 3]
  ∧ timers (host (@add demo (op 3) two_sync).1) = timers (host two_sync).
Proof.
  assert (isTriggering (this two_sync) = true ∨ paused (this two_sync) = true) as Hw
    by (left; reflexivity).
  destruct (@add_while_busy_only_enqueues demo (op 3) two_sync Hw)
    as (_ & _ & Hq & _ & _ & Ht & _).
  exact (conj Hq Ht).
Defined.

Lemma sync_result_fulfils_handle_witness :
  handles (host (@add demo (op 3) fresh).1) !! (@add demo (op 3) fresh).2
  = Some (Some (Fulfilled (DVal 3))).
Proof.
  destruct (@sync_result_fulfils_handle demo (op 3) (DVal 3) fresh
              eq_refl eq_refl eq_refl eq_refl eq_refl eq_refl (or_intror eq_refl))
    as (_ & Hh & _).
  exact Hh.
Defined.

Lemma timerForFirst_delays_first_entry_witness :
  since fresh_delayed (@add demo (op 3) fresh_delayed).1 = [OAdd ByCaller (op 3) 0]
  ∧ OInvoke (op 3)
    ∈ since (@add demo (op 3) fresh_delayed).1
        (@step demo (ETimeout 0) (@add demo (op 3) fresh_delayed).1).
Proof.
  destruct (@timerForFirst_delays_first_entry demo (op 3) fresh_delayed
              eq_refl eq_refl eq_refl eq_refl eq_refl)
    as (Hs & _ & _ & _ & _ & _ & Hi).
  split; [exact Hs|]. apply Hi; [reflexivity|right; reflexivity].
Defined.

Lemma async_result_reaches_handle_witness :
  handles (host (@run demo [ESettle 0 (Rejected (DVal 7)); EMicrotask; EMicrotask; EMicrotask]
                   (@add demo (op 1) fresh).1))
    !! (@add demo (op 1) fresh).2
  = Some (Some (Rejected (DVal 7))).
Proof.
  destruct (@async_result_reaches_handle demo (op 1) (Rejected (DVal 7)) fresh
              eq_refl eq_refl eq_refl eq_refl eq_refl eq_refl (or_intror eq_refl) eq_refl)
    as (_ & _ & _ & _ & Hh & _).
  exact Hh.
Defined.

(** ** The timer the queue holds *)

Section Timers.
Context `{Behaviour}.

(** An update that leaves the timers, the held timer and the interval alone. *)
Lemma timely_same w w' :
  timers (host w') = timers (host w) →
  next_timer (host w') = next_timer (host w) →
  _currentTimeout (this w') = _currentTimeout (this w) →
  intervalTime (this w') = intervalTime (this w) →
  timely w → timely w'.
Proof. unfold timely. by intros -> -> -> ->. Qed.

Lemma timely_createTimeout w : timely w → timely (_createTimeout w).
Proof.
  intros [Hfresh Hheld]. split; simpl.
  - apply Forall_app. split; [|by apply Forall_singleton; simpl; lia].
    eapply Forall_impl; [exact Hfresh|]. simpl. lia.
  - intros t d [= <-] [Hold|Hnew%list_elem_of_singleton]%elem_of_app.
    + rewrite Forall_forall in Hfresh. specialize (Hfresh _ Hold). simpl in Hfresh. lia.
    + by injection Hnew as ->.
Qed.

Lemma timely_clearTimeout x w : timely w → timely (clearTimeout x w).
Proof.
  intros [Hfresh Hheld]. destruct x as [t0|]; [|done]. split; simpl.
  - rewrite Forall_forall in Hfresh. apply Forall_forall.
    intros a [_ Ha]%list_elem_of_filter. by apply Hfresh.
  - intros t d Ht [_ Hin]%list_elem_of_filter. by eapply Hheld.
Qed.

Lemma timely_clearLoop w : timely w → timely (clearLoop w).
Proof.
  intros Hw. unfold clearLoop.
  eapply timely_same; [..|by apply (timely_clearTimeout (_currentTimeout (this w)))]; done.
Qed.

(** [setIntervalTime] changes the interval and cancels the timer held. *)
Lemma timely_retime t w :
  timely w → timely (clearLoop (on_this (set_intervalTime t) w)).
Proof.
  intros [Hfresh Hheld]. unfold clearLoop. simpl.
  destruct (_currentTimeout (this w)) as [t0|] eqn:Hcur; split; simpl; try done.
  - rewrite Forall_forall in Hfresh. apply Forall_forall.
    intros a [_ Ha]%list_elem_of_filter. by apply Hfresh.
  - rewrite Hcur. intros t' d [= <-] [Hne _]%list_elem_of_filter. done.
  - by rewrite Hcur.
Qed.

Lemma timely_subscribe p r w : timely w → timely (subscribe p r w).
Proof. unfold subscribe. repeat case_match; by apply timely_same. Qed.

Lemma timely_settle_handle p r w : timely w → timely (settle_handle p r w).
Proof. unfold settle_handle. repeat case_match; by apply timely_same. Qed.

Lemma timely_reject_handle p e w : timely w → timely (reject_handle p e w).
Proof.
  intros Hw. unfold reject_handle. cbv zeta.
  destruct (_ && _); [|by apply timely_settle_handle].
  eapply timely_same; [..|by apply (timely_settle_handle p (Rejected e))]; done.
Qed.

Lemma timely_settle_promise p st w : timely w → timely (settle_promise p st w).
Proof. unfold settle_promise. repeat case_match; by apply timely_same. Qed.

Lemma timely_shift w : timely w → timely (shift w).
Proof. unfold shift. case_match; by apply timely_same. Qed.

Lemma timely_invoke q promise w : timely w → timely (invoke q promise w).
Proof.
  intros Hw. unfold invoke. cbv zeta.
  assert (timely (log (OInvoke q) w)) as Hlog by (by eapply timely_same).
  destruct (call (fn q) (args q)) as [d|e|init].
  - destruct promise as [p|].
    + apply timely_createTimeout, timely_settle_handle. by eapply timely_same.
    + by eapply timely_same.
  - by eapply timely_same.
  - match goal with |- context [subscribe ?p (RThen promise) ?v] =>
      assert (timely (subscribe p (RThen promise) v)) as Hsub
        by (apply timely_subscribe; by eapply timely_same);
      set (w2 := subscribe p (RThen promise) v) in *
    end.
    destruct (startTimer _);
      [by apply timely_createTimeout|by apply timely_subscribe].
Qed.

Lemma timely_dispatch rec w w' :
  (∀ v v', rec v = Some v' → timely v → timely v') →
  dispatch_with rec w = Some w' → timely w → timely w'.
Proof.
  intros Hrec. unfold dispatch_with, add_with.
  destruct (head (queue (this w))) as [queued|].
  - destruct (loop _).
    + destruct (rec _) as [v'|] eqn:Hv; [|done]. intros [= <-] Hw.
      apply timely_invoke. apply (Hrec _ _ Hv).
      eapply timely_same; [..|by apply timely_shift]; done.
    + intros [= <-] Hw. by apply timely_invoke, timely_shift.
  - intros [= <-] Hw. eapply timely_same; [..|by apply timely_shift]; done.
Qed.

Lemma timely_trigger_body rec w w' :
  (∀ v v', rec v = Some v' → timely v → timely v') →
  trigger_body rec w = Some w' → timely w → timely w'.
Proof.
  intros Hrec. unfold trigger_body.
  destruct (paused (this w)); [by intros [= <-]|].
  destruct (isTriggering (this w)); [by intros [= <-]|].
  destruct (queue (this w)) eqn:Hq.
  { intros [= <-] Hw. by eapply timely_same. }
  clear Hq.
  assert (timely w → timely (on_this (set_isTriggering true) w)) as Hw'
    by (intros ?; by eapply timely_same).
  destruct (_ && _).
  { intros [= <-] Hw. by apply timely_createTimeout, Hw'. }
  destruct (if awaitLastQueue _ then _ else _) as [p|].
  { intros [= <-] Hw. by apply timely_subscribe, Hw'. }
  intros Hd Hw. eapply timely_dispatch; [exact Hrec|exact Hd|by apply Hw'].
Qed.

Lemma timely_trigger_fuel n w w' :
  trigger_fuel n w = Some w' → timely w → timely w'.
Proof.
  revert w w'. induction n as [|n IH]; intros w w'; [done|].
  cbn [trigger_fuel]. by apply timely_trigger_body.
Qed.

Lemma timely_trigger w : timely w → timely (trigger w).
Proof. eapply timely_trigger_fuel. by apply (trigger_fuel_enough fuel). Qed.

Lemma timely_resume w : timely w → timely (resume w).
Proof.
  eapply timely_dispatch; [|apply (resume_fuel_enough fuel); done].
  intros v v'. apply timely_trigger_fuel.
Qed.

Lemma timely_run_job j w : timely w → timely (run_job j w).
Proof.
  intros Hw. destruct j as [[p|] [d|e]|[p|] [d|e]| | |st]; simpl;
    try (by eapply timely_same);
    try (by apply timely_resume).
  - eapply timely_same; [..|by apply (timely_settle_handle p (Fulfilled d))]; done.
  - by apply timely_reject_handle.
  - destruct st; [by apply timely_createTimeout|].
    eapply timely_same; [..|by apply timely_createTimeout]; done.
Qed.

Lemma timely_step e w : timely w → timely (step e w).
Proof.
  intros Hw. destruct e; simpl.
  - rewrite add_eq. cbn [fst]. apply timely_trigger. by eapply timely_same.
  - by apply timely_trigger, timely_retime.
  - by apply timely_clearLoop.
  - by apply timely_trigger, timely_clearLoop.
  - apply timely_clearLoop. by eapply timely_same.
  - apply timely_trigger. by eapply timely_same.
  - destruct (microtasks (host w)); [|done].
    destruct (armed t w); [|done].
    apply timely_trigger.
    eapply timely_same; [..|by apply (timely_clearTimeout (Some t))]; done.
  - by apply timely_settle_promise.
  - destruct (microtasks (host w)) as [|j js] eqn:Hm; [done|].
    apply timely_run_job. by eapply timely_same.
Qed.

Lemma timely_run es w : timely w → timely (run es w).
Proof.
  revert w. induction es as [|e es IH]; intros w Hw; [done|].
  simpl. by apply IH, timely_step.
Qed.

(** X6. In every run from a new queue, the timer the queue holds in
    [_currentTimeout], as long as it is armed, runs for the current
    [intervalTime]: [setIntervalTime] cancels the timer armed for the old
    interval, and every timer created afterwards takes the new one. *)
Theorem held_timer_has_current_interval t0 o es t d :
  let w := run es (new_IntervalQueue t0 o) in
  _currentTimeout (this w) = Some t →
  (t, d) ∈ timers (host w) →
  d = intervalTime (this w).
Proof.
  intros w. assert (timely w) as [_ Hheld]; [|by apply Hheld].
  apply timely_run. split; [by apply Forall_nil|]. by intros ? ? _ ?%elem_of_nil.
Qed.

End Timers.

(** ** Two functions are a timer apart *)

Section Spacing.
Context `{Behaviour}.

Lemma paced_refl w : paced 0 w w.
Proof. unfold paced. lia. Qed.

Lemma paced_trans k1 k2 w1 w2 w3 :
  paced k1 w1 w2 → paced k2 w2 w3 → paced (k1 + k2) w1 w3.
Proof. unfold paced. lia. Qed.

Lemma paced_weaken k k' w w' : k ≤ k' → paced k w w' → paced k' w w'.
Proof. unfold paced. lia. Qed.

Lemma paced_same w w' :
  promises (host w') = promises (host w) →
  microtasks (host w') = microtasks (host w) →
  trace (host w') = trace (host w) →
  paced 0 w w'.
Proof. unfold paced, awaiting. intros -> -> ->. lia. Qed.

Lemma paced_log o w : (∀ q, o ≠ OInvoke q) → paced 0 w (log o w).
Proof.
  intros Ho. unfold paced, awaiting. simpl. rewrite invoked_app.
  assert (invoked [o] = []) as -> by (destruct o; try done; by destruct (Ho q)).
  rewrite app_nil_r. lia.
Qed.

Lemma paced_log_invoke q w : paced 1 w (log (OInvoke q) w).
Proof. unfold paced, awaiting. simpl. rewrite invoked_app, length_app. simpl. lia. Qed.

Lemma paced_enqueue j w : paced (await_job j) w (enqueue j w).
Proof. unfold paced, awaiting. simpl. rewrite sum_list_with_app. simpl. lia. Qed.

Lemma job_of_await st r : await_job (job_of st r) = await_reaction r.
Proof. by destruct r. Qed.

Lemma sum_job_of_await st rs :
  sum_list_with await_job (job_of st <$> rs) = sum_list_with await_reaction rs.
Proof.
  induction rs as [|r rs IH]; [done|].
  rewrite fmap_cons. simpl. rewrite job_of_await. by f_equal.
Qed.

Lemma paced_subscribe p r w : paced (await_reaction r) w (subscribe p r w).
Proof.
  unfold subscribe. destruct (promises (host w) !! p) as [c|] eqn:Hc.
  - destruct (pstate c) as [st|].
    + rewrite <-(job_of_await st r). apply paced_enqueue.
    + unfold paced, awaiting. simpl.
      pose proof (sum_list_with_insert
        (λ c, sum_list_with await_reaction (reactions c)) _ _ _
        {| pstate := None; reactions := reactions c ++ [r] |} Hc) as Hs.
      simpl in Hs. rewrite sum_list_with_app in Hs. simpl in Hs. lia.
  - apply (paced_weaken 0); [lia|apply paced_refl].
Qed.

Lemma paced_settle_handle p r w : paced 0 w (settle_handle p r w).
Proof.
  unfold settle_handle.
  assert (paced 0 w (log (OSettle p r) w)) as Hlog by (by apply paced_log).
  by destruct (handles (host (log (OSettle p r) w)) !! p) as [[?|]|].
Qed.

Lemma paced_reject_handle p e w : paced 0 w (reject_handle p e w).
Proof.
  unfold reject_handle. cbv zeta. destruct (_ && _); [|apply paced_settle_handle].
  eapply (paced_trans 0 0); [apply paced_settle_handle|by apply paced_log].
Qed.

Lemma paced_settle_promise p st w : paced 0 w (settle_promise p st w).
Proof.
  unfold settle_promise. destruct (promises (host w) !! p) as [c|] eqn:Hc;
    [|apply paced_refl].
  destruct (pstate c); [apply paced_refl|].
  unfold paced, awaiting. simpl.
  pose proof (sum_list_with_insert
    (λ c, sum_list_with await_reaction (reactions c)) _ _ _
    {| pstate := Some st; reactions := [] |} Hc) as Hs.
  simpl in Hs. rewrite sum_list_with_app.
  rewrite sum_job_of_await. lia.
Qed.

Lemma paced_push o q w : paced 0 w (push_entry o q w).1.
Proof.
  unfold paced, awaiting. simpl. rewrite invoked_app. simpl.
  rewrite app_nil_r. lia.
Qed.

Lemma paced_shift w : paced 0 w (shift w).
Proof.
  unfold shift. destruct (head (queue (this w))).
  - eapply (paced_trans 0 0); [|by apply paced_log]. by apply paced_same.
  - by apply paced_same.
Qed.

Lemma paced_invoke q p w : paced 1 w (invoke q p w).
Proof.
  unfold invoke. cbv zeta.
  pose proof (paced_log_invoke q w) as Hlog.
  destruct (call (fn q) (args q)) as [d|e|init].
  - destruct p as [p|].
    + apply (paced_trans 1 0 _ _ _ Hlog).
      eapply (paced_trans 0 0 _ (settle_handle p (Fulfilled d) _));
        [|by apply paced_same].
      eapply (paced_trans 0 0); [|apply paced_settle_handle]. by apply paced_same.
    + apply (paced_trans 1 0 _ _ _ Hlog).
      eapply (paced_trans 0 0); [|by apply paced_log]. by apply paced_same.
  - apply (paced_trans 1 0 _ _ _ Hlog). by apply paced_log.
  - apply (paced_trans 1 0 _ _ _ Hlog).
    match goal with |- context [subscribe ?p0 (RThen p) ?v] =>
      assert (paced 0 (log (OInvoke q) w) (subscribe p0 (RThen p) v)) as Hsub;
      [|set (w2 := subscribe p0 (RThen p) v) in *]
    end.
    { eapply (paced_trans 0 0); [|eapply (paced_subscribe _ (RThen p))].
      unfold paced, awaiting. simpl. rewrite sum_list_with_app. simpl. lia. }
    apply (paced_trans 0 0 _ _ _ Hsub).
    destruct (startTimer _); [by apply paced_same|eapply (paced_subscribe _ RFinally)].
Qed.

(** A dispatch inside a round runs one function at most. *)
Lemma paced_dispatch w w' : dispatch_with Some w = Some w' → paced 1 w w'.
Proof.
  unfold dispatch_with, add_with.
  pose proof (paced_shift w) as Hshift.
  destruct (head (queue (this w))) as [queued|].
  - destruct (loop _); simpl; intros [= <-];
      apply (paced_trans 0 1 _ _ _ Hshift).
    + eapply (paced_trans 0 1); [apply (paced_push ByLoop queued)|apply paced_invoke].
    + apply paced_invoke.
  - intros [= <-]. apply (paced_weaken 0); [lia|].
    apply (paced_trans 0 0 _ _ _ Hshift). by apply paced_log.
Qed.

Lemma awaiting_pending w : awaiting w ≤ pending_rounds w.
Proof.
  unfold awaiting, pending_rounds.
  assert (∀ rs, sum_list_with await_reaction rs ≤ sum_list_with reaction_round rs) as Hr.
  { induction rs as [|[] rs IH]; simpl; lia. }
  assert (sum_list_with (λ c, sum_list_with await_reaction (reactions c)) (promises (host w))
          ≤ sum_list_with cell_round (promises (host w))) as Hp.
  { induction (promises (host w)) as [|c cs IH]; simpl; [lia|].
    specialize (Hr (reactions c)). unfold cell_round at 1. lia. }
  assert (sum_list_with await_job (microtasks (host w))
          ≤ sum_list_with job_round (microtasks (host w))) as Hj.
  { induction (microtasks (host w)) as [|[] js IH]; simpl; lia. }
  lia.
Qed.

Lemma ready_single w : single w → ready w ≤ 1.
Proof.
  intros [Hone _ _]. unfold ready. pose proof (awaiting_pending w).
  destruct (isTriggering (this w)); lia.
Qed.

(** A step that neither runs a function nor moves the flag. *)
Lemma pace_frame0 w w' :
  isTriggering (this w') = isTriggering (this w) →
  paced 0 w w' →
  extends w w' →
  single w →
  length (invoked (trace (host w'))) + ready w'
  ≤ length (invoked (trace (host w))) + ready w.
Proof.
  intros Hf Hp [tr Ht] [_ Hidle _]. unfold ready, paced in *. rewrite Hf.
  assert (length (invoked (trace (host w))) ≤ length (invoked (trace (host w')))) as Hle.
  { rewrite Ht, invoked_app, length_app. lia. }
  destruct (isTriggering (this w)); [lia|].
  pose proof (awaiting_pending w). specialize (Hidle eq_refl). lia.
Qed.

Lemma pace_dispatch w w' :
  isTriggering (this w) = true →
  pending_rounds w = 0 →
  invoked (trace (host w)) = (dequeued (trace (host w))).*1 →
  dispatch_with Some w = Some w' →
  length (invoked (trace (host w'))) + ready w'
  ≤ length (invoked (trace (host w))) + 1.
Proof.
  intros Hflag Hpend Horder Hr.
  destruct (single_dispatch w w' Hflag Hpend Horder Hr) as [_ Hflag'].
  pose proof (paced_dispatch w w' Hr) as Hp.
  pose proof (awaiting_pending w).
  unfold ready, paced in *. rewrite Hflag'. lia.
Qed.

Lemma pace_trigger w :
  single w →
  length (invoked (trace (host (trigger w)))) + ready (trigger w)
  ≤ length (invoked (trace (host w))) + ready w.
Proof.
  intros Hw. pose proof (trigger_eq w) as Hr. unfold trigger_body in Hr.
  destruct (paused (this w)); [by injection Hr as <-|].
  destruct (isTriggering (this w)) eqn:Hflag; [by injection Hr as <-|].
  destruct Hw as [Hone Hidle Horder]. specialize (Hidle Hflag).
  assert (ready w = 1) as -> by (unfold ready; by rewrite Hflag).
  destruct (queue (this w)) eqn:Hq.
  { injection Hr as <-. unfold ready. simpl. by rewrite Hflag. }
  set (w1 := on_this (set_isTriggering true) w) in *.
  assert (pending_rounds w1 = 0) as Hp1 by done.
  pose proof (awaiting_pending w1) as Ha1.
  destruct (_ && _).
  { injection Hr as <-. unfold ready. simpl.
    change (awaiting (_createTimeout w1)) with (awaiting w1). lia. }
  destruct (if awaitLastQueue _ then _ else _) as [p|].
  { injection Hr as <-. destruct (rounds_subscribe p RAwaitCatch w1) as [Hf _].
    pose proof (paced_subscribe p RAwaitCatch w1) as Hp.
    unfold ready, paced in *. rewrite Hf. simpl in *. lia. }
  by apply (pace_dispatch w1).
Qed.

Lemma pace_resume w :
  isTriggering (this w) = true →
  pending_rounds w = 0 →
  invoked (trace (host w)) = (dequeued (trace (host w))).*1 →
  length (invoked (trace (host (resume w)))) + ready (resume w)
  ≤ length (invoked (trace (host w))) + 1.
Proof.
  intros Hflag Hpend Horder.
  pose proof (resume_fuel_enough fuel w (le_n _)) as Hr.
  rewrite dispatch_with_busy in Hr; try done.
  - by apply pace_dispatch.
  - intros w' Hw'. by apply trigger_fuel_busy.
Qed.

Lemma calm_refl w : calm w w.
Proof. split_and!; [done|apply paced_refl|apply extends_refl]. Qed.

Lemma calm_trans w1 w2 w3 : calm w1 w2 → calm w2 w3 → calm w1 w3.
Proof.
  intros (Hf1 & Hp1 & tr1 & Ht1) (Hf2 & Hp2 & tr2 & Ht2). split_and!.
  - congruence.
  - apply (paced_trans 0 0 _ _ _ Hp1 Hp2).
  - exists (tr1 ++ tr2). by rewrite Ht2, Ht1, app_assoc.
Qed.

Lemma calm_frame w w' : rounds 0 w w' → paced 0 w w' → frame w w' → calm w w'.
Proof.
  intros [Hf _] Hp [_ _ _ _ (tr & Ht & _)]. split_and!; [done..|by exists tr].
Qed.

Lemma calm_enqueue j w : await_job j = 0 → job_round j = 0 → calm w (enqueue j w).
Proof.
  intros Ha Hj. apply calm_frame; [|by rewrite <-Ha; apply paced_enqueue|apply frame_enqueue].
  rewrite <-Hj. apply rounds_enqueue.
Qed.

Lemma calm_settle_handle p r w : calm w (settle_handle p r w).
Proof.
  apply calm_frame;
    [apply rounds_settle_handle|apply paced_settle_handle|apply frame_settle_handle].
Qed.

Lemma calm_reject_handle p e w : calm w (reject_handle p e w).
Proof.
  apply calm_frame;
    [apply rounds_reject_handle|apply paced_reject_handle|apply frame_reject_handle].
Qed.

Lemma calm_settle_promise p st w : calm w (settle_promise p st w).
Proof.
  apply calm_frame;
    [apply rounds_settle_promise|apply paced_settle_promise|apply frame_settle_promise].
Qed.

Lemma calm_uncaught e w : calm w (log (OUncaught e) w).
Proof.
  apply calm_frame; [apply rounds_log|by apply paced_log|by apply frame_log].
Qed.

Lemma calm_createTimeout w : calm w (_createTimeout w).
Proof.
  split_and!; [done|by apply paced_same|].
  destruct (frame_createTimeout w) as [_ _ _ _ (tr & Ht & _)]. by exists tr.
Qed.

Lemma calm_push o q w : calm w (push_entry o q w).1.
Proof. split_and!; [done|apply paced_push|by eexists]. Qed.

Lemma pace_calm w w' :
  calm w w' → single w →
  length (invoked (trace (host w'))) + ready w'
  ≤ length (invoked (trace (host w))) + ready w.
Proof. intros (Hf & Hp & He). by apply pace_frame0. Qed.

Lemma pace_run_job j js w :
  microtasks (host w) = j :: js →
  single w →
  let w' := run_job j (on_host (set_microtasks js) w) in
  length (invoked (trace (host w'))) + ready w'
  ≤ length (invoked (trace (host w))) + ready w.
Proof.
  intros Hm Hw. cbv zeta. set (w1 := on_host (set_microtasks js) w).
  assert (awaiting w = awaiting w1 + await_job j) as Hpop.
  { unfold awaiting, w1. rewrite Hm. simpl. lia. }
  assert (calm w w1) as Hw1.
  { split_and!; [done| |by exists []; rewrite app_nil_r]. unfold paced.
    change (trace (host w1)) with (trace (host w)). lia. }
  assert (∀ v, calm w1 v →
    length (invoked (trace (host v))) + ready v
    ≤ length (invoked (trace (host w))) + ready w) as Hcalm.
  { intros v Hv. apply pace_calm; [by eapply calm_trans|done]. }
  assert (job_round j = 1 → isTriggering (this w1) = true ∧ pending_rounds w1 = 0) as Hround.
  { destruct Hw as [Hone Hidle _]. intros Hj.
    assert (pending_rounds w = pending_rounds w1 + job_round j) as Hpend.
    { unfold pending_rounds, w1. rewrite Hm. simpl. lia. }
    split; [|lia].
    destruct (isTriggering (this w)) eqn:Hflag; [done|]. specialize (Hidle eq_refl). lia. }
  destruct j as [[p|] [d|e]|[p|] [d|e]| | |st]; simpl in Hpop, Hround; cbn [run_job].
  - apply Hcalm. eapply calm_trans; [apply calm_settle_handle|by apply calm_enqueue].
  - apply Hcalm. by apply calm_enqueue.
  - apply Hcalm. by apply calm_enqueue.
  - apply Hcalm. by apply calm_enqueue.
  - apply Hcalm, calm_refl.
  - apply Hcalm, calm_reject_handle.
  - apply Hcalm, calm_refl.
  - apply Hcalm, calm_uncaught.
  - apply pace_calm; [|done]. split_and!; [done| |by exists []; rewrite app_nil_r].
    pose proof (paced_enqueue JResume w1) as Hp. unfold paced in *. simpl in *.
    change (trace (host w1)) with (trace (host w)) in Hp. lia.
  - destruct Hround as [Hflag Hpend]; [done|].
    pose proof (pace_resume w1 Hflag Hpend (sg_order w Hw)) as Hr.
    change (trace (host w1)) with (trace (host w)) in Hr.
    assert (ready w = awaiting w) as -> by (unfold ready; by rewrite Hflag).
    lia.
  - apply Hcalm. destruct st; [apply calm_createTimeout|].
    eapply calm_trans; [apply calm_createTimeout|apply calm_uncaught].
Qed.

Lemma pace_step e w :
  add_only e = true → single w →
  length (invoked (trace (host (step e w)))) + ready (step e w)
  ≤ length (invoked (trace (host w))) + ready w + fires e w.
Proof.
  intros He Hw. destruct e; try done; cbn [step fires].
  - rewrite add_eq. cbn [fst].
    pose proof (pace_trigger _ (single_push ByCaller q w Hw)) as Ht.
    pose proof (pace_calm _ _ (calm_push ByCaller q w) Hw) as Hp. lia.
  - destruct (microtasks (host w)); [|lia].
    destruct (armed t w) eqn:Harmed; [|lia].
    unfold timeout_callback.
    set (w1 := on_this (set_isTriggering false) (clearTimeout (Some t) w)).
    assert (single w1) as Hw1.
    { destruct Hw as [Hone Hidle Horder].
      pose proof (pending_rounds_fired t w Harmed Hone) as Hp.
      split; [change (pending_rounds w1) with (pending_rounds (clearTimeout (Some t) w)); lia
             |intros _; done|done]. }
    pose proof (pace_trigger w1 Hw1) as Ht.
    change (trace (host w1)) with (trace (host w)) in Ht.
    assert (ready w1 = 1) as Hr by done. lia.
  - pose proof (pace_calm _ _ (calm_settle_promise p st w) Hw). lia.
  - destruct (microtasks (host w)) as [|j js] eqn:Hm; [lia|].
    pose proof (pace_run_job j js w Hm Hw) as Hj. simpl in Hj. lia.
Qed.

Lemma pace_run es w :
  forallb add_only es = true → single w →
  length (invoked (trace (host (run es w)))) + ready (run es w)
  ≤ length (invoked (trace (host w))) + ready w + fired es w.
Proof.
  revert w. induction es as [|e es IH]; intros w Hes Hw; [simpl; lia|].
  apply andb_prop in Hes as [He Hes]. simpl.
  pose proof (pace_step e w He Hw) as Hstep.
  pose proof (IH (step e w) Hes (single_step e w He Hw)) as Hrun.
  unfold flip. lia.
Qed.

(** X7. When the caller does nothing but [add], in any stretch of a run
    from a new queue the functions started are at most one more than the
    timer callbacks run in that stretch: two functions are never started
    without a timer of the queue expiring in between, whatever the options
    and however the functions behave. *)
Theorem functions_are_a_timer_apart t o es1 es2 :
  forallb add_only (es1 ++ es2) = true →
  let w1 := run es1 (new_IntervalQueue t o) in
  let w2 := run es2 w1 in
  length (invoked (since w1 w2)) ≤ fired es2 w1 + 1.
Proof.
  rewrite forallb_app. intros [Hes1 Hes2]%andb_prop w1 w2.
  assert (single w1) as Hw1 by (by apply single_run, single_new).
  pose proof (pace_run es2 w1 Hes2 Hw1) as Hrun. fold w2 in Hrun.
  pose proof (ready_single w1 Hw1) as Hready.
  pose proof (closed_run (extends w1) es2 w1 (extends_closed w1) (extends_refl w1))
    as [tr Htr].
  fold w2 in Htr.
  rewrite (since_app w1 w2 tr Htr).
  rewrite Htr, invoked_app, length_app in Hrun. lia.
Qed.

End Spacing.

(** ** A paused queue *)

Section Paused.
Context `{Behaviour}.

Lemma still_refl w : still w w.
Proof. split_and!; [done|apply paced_refl|apply frame_refl]. Qed.

Lemma still_trans w1 w2 w3 : still w1 w2 → still w2 w3 → still w1 w3.
Proof.
  intros (Hp1 & Hc1 & Hf1) (Hp2 & Hc2 & Hf2). split_and!.
  - congruence.
  - apply (paced_trans 0 0 _ _ _ Hc1 Hc2).
  - by eapply frame_trans.
Qed.

Lemma still_enqueue j w : await_job j = 0 → still w (enqueue j w).
Proof.
  intros Ha. split_and!; [done|by rewrite <-Ha; apply paced_enqueue|apply frame_enqueue].
Qed.

Lemma still_settle_handle p r w : still w (settle_handle p r w).
Proof.
  split_and!; [|apply paced_settle_handle|apply frame_settle_handle].
  unfold settle_handle. by repeat case_match.
Qed.

Lemma still_reject_handle p e w : still w (reject_handle p e w).
Proof.
  unfold reject_handle. cbv zeta. destruct (_ && _); [|apply still_settle_handle].
  eapply still_trans; [apply still_settle_handle|].
  split_and!; [done|by apply paced_log|by apply frame_log].
Qed.

Lemma still_settle_promise p st w : still w (settle_promise p st w).
Proof.
  split_and!; [|apply paced_settle_promise|apply frame_settle_promise].
  unfold settle_promise. by repeat case_match.
Qed.

Lemma still_uncaught e w : still w (log (OUncaught e) w).
Proof. split_and!; [done|by apply paced_log|by apply frame_log]. Qed.

Lemma still_createTimeout w : still w (_createTimeout w).
Proof. split_and!; [done|by apply paced_same|apply frame_createTimeout]. Qed.

Lemma still_clearLoop w : still w (clearLoop w).
Proof.
  split_and!; [|apply paced_same|apply frame_clearLoop];
    unfold clearLoop; by destruct (_currentTimeout (this w)).
Qed.

(** What a still step leaves of a paused queue. *)
Lemma still_holds w w' :
  still w w' →
  paused (this w) = true →
  awaiting w = 0 →
  paused (this w') = true
  ∧ awaiting w' = 0
  ∧ queue (this w') = queue (this w)
  ∧ ∃ tr, trace (host w') = trace (host w) ++ tr ∧ invoked tr = [].
Proof.
  intros (Hp & Hc & [Hq _ _ _ (tr & Ht & Hquiet)]) Hpaused Ha.
  destruct (quiet_silent tr Hquiet) as (_ & _ & Hi).
  split_and!; [congruence| |done|by exists tr].
  unfold paced in Hc. rewrite Ht, invoked_app, Hi, app_nil_r in Hc. lia.
Qed.

Lemma hold_job j js w :
  microtasks (host w) = j :: js →
  awaiting w = 0 →
  still w (run_job j (on_host (set_microtasks js) w)).
Proof.
  intros Hm Ha. set (w1 := on_host (set_microtasks js) w).
  assert (await_job j = 0) as Hj.
  { unfold awaiting in Ha. rewrite Hm in Ha. simpl in Ha. lia. }
  assert (still w w1) as Hw1.
  { split_and!; [done| |apply frame_microtasks].
    unfold paced, awaiting, w1. rewrite Hm. simpl. lia. }
  destruct j as [[p|] [d|e]|[p|] [d|e]| | |st]; try discriminate Hj; cbn [run_job];
    apply (still_trans _ _ _ Hw1).
  - eapply still_trans; [apply still_settle_handle|by apply still_enqueue].
  - by apply still_enqueue.
  - by apply still_enqueue.
  - by apply still_enqueue.
  - apply still_refl.
  - apply still_reject_handle.
  - apply still_refl.
  - apply still_uncaught.
  - destruct st; [apply still_createTimeout|].
    eapply still_trans; [apply still_createTimeout|apply still_uncaught].
Qed.

Lemma hold_step e w :
  e ≠ EUnpause →
  paused (this w) = true →
  awaiting w = 0 →
  paused (this (step e w)) = true
  ∧ awaiting (step e w) = 0
  ∧ queue (this (step e w)) = queue (this w) ++ adds [e]
  ∧ ∃ tr, trace (host (step e w)) = trace (host w) ++ tr ∧ invoked tr = [].
Proof.
  intros He Hp Ha.
  assert (∀ v, still w v → trigger v = v) as Hidle.
  { intros v Hv. apply trigger_paused. by destruct (still_holds w v Hv Hp Ha) as (? & _). }
  assert (∀ v, still w v →
    paused (this v) = true ∧ awaiting v = 0
    ∧ queue (this v) = queue (this w) ++ []
    ∧ ∃ tr, trace (host v) = trace (host w) ++ tr ∧ invoked tr = []) as Hstill.
  { intros v Hv. rewrite app_nil_r. by apply still_holds. }
  destruct e; try done; cbn [step adds omap].
  - rewrite add_eq. cbn [fst]. rewrite trigger_paused by done.
    split_and!; [done|done|done|]. by eexists.
  - unfold setIntervalTime, runNext.
    assert (still w (clearLoop (on_this (set_intervalTime t) w))) as Hv.
    { eapply still_trans; [|apply still_clearLoop].
      split_and!; [done|by apply paced_same|apply frame_intervalTime]. }
    rewrite (Hidle _ Hv). by apply Hstill.
  - apply Hstill, still_clearLoop.
  - unfold runNext. rewrite (Hidle _ (still_clearLoop w)). apply Hstill, still_clearLoop.
  - apply Hstill. unfold pause. eapply still_trans; [|apply still_clearLoop].
    split_and!; [by simpl|by apply paced_same|].
    eapply frame_trans; [apply frame_paused|apply frame_isFirst].
  - destruct (microtasks (host w)); [|apply Hstill, still_refl].
    destruct (armed t w); [|apply Hstill, still_refl].
    unfold timeout_callback.
    assert (still w (on_this (set_isTriggering false) (clearTimeout (Some t) w))) as Hv.
    { split_and!; [done|by apply paced_same|].
      eapply frame_trans; [apply frame_clearTimeout|apply frame_isTriggering]. }
    rewrite (Hidle _ Hv). by apply Hstill.
  - apply Hstill, still_settle_promise.
  - destruct (microtasks (host w)) as [|j js] eqn:Hm; [apply Hstill, still_refl|].
    by apply Hstill, hold_job.
Qed.

(** X8. While the queue is paused and no round is suspended at its
    [await], no function is run, whatever else the caller calls and
    whichever timers and promises come in, until [unpause()]; the entries
    added meanwhile are kept at the tail of the queue, in order. *)
Theorem a_paused_queue_runs_nothing es w :
  paused (this w) = true →
  awaiting w = 0 →
  EUnpause ∉ es →
  invoked (since w (run es w)) = []
  ∧ queue (this (run es w)) = queue (this w) ++ adds es
  ∧ paused (this (run es w)) = true.
Proof.
  intros Hp Ha Hes.
  assert (paused (this (run es w)) = true
          ∧ queue (this (run es w)) = queue (this w) ++ adds es
          ∧ ∃ tr, trace (host (run es w)) = trace (host w) ++ tr ∧ invoked tr = [])
    as (Hp' & Hq' & tr & Ht & Hi).
  { revert w Hp Ha. induction es as [|e es IH]; intros w Hp Ha.
    { split_and!; [done|by rewrite app_nil_r|]. exists []. by rewrite app_nil_r. }
    apply not_elem_of_cons in Hes as [He Hes].
    destruct (hold_step e w) as (Hp1 & Ha1 & Hq1 & tr1 & Ht1 & Hi1); [done..|].
    destruct (IH Hes (step e w) Hp1 Ha1) as (Hp2 & Hq2 & tr2 & Ht2 & Hi2).
    change (run (e :: es) w) with (run es (step e w)).
    split_and!; [done| |].
    - rewrite Hq2, Hq1, <-app_assoc. f_equal. by destruct e.
    - exists (tr1 ++ tr2). split; [by rewrite Ht2, Ht1, app_assoc|].
      by rewrite invoked_app, Hi1, Hi2. }
  split_and!; [|done..]. by rewrite (since_app _ _ tr Ht).
Qed.

(** X9. [pause()] followed by [unpause()] starts a round at once, however
    much of the interval was left: without [timerForFirst] the head of the
    queue is run inside [unpause()] (unless the last result has to be
    awaited); with [timerForFirst] nothing is run and a new timer for the
    whole interval is armed and held. *)
Theorem unpause_restarts_at_once q w :
  head (queue (this w)) = Some q →
  let w' := unpause (pause w) in
  (timerForFirst (options (this w)) = false →
   awaitLastQueue (options (this w)) = false
     ∨ instanceof_Promise (lastFnResult (this w)) = None →
   OInvoke q ∈ since w w')
  ∧ (timerForFirst (options (this w)) = true →
     since w w' = []
     ∧ _currentTimeout (this w') = Some (next_timer (host w))
     ∧ (next_timer (host w), intervalTime (this w)) ∈ timers (host w')
     ∧ isTriggering (this w') = true).
Proof.
  intros Hq w'. unfold w', unpause. clear w'.
  set (v := on_this (set_paused false) (pause w)).
  assert (v = on_this (set_paused false) (clearLoop
                (on_this (set_isFirst true) (on_this (set_paused true) w)))) as Hv by done.
  assert (paused (this v) = false) as Hp by done.
  assert (isTriggering (this v) = false) as Hflag by done.
  assert (queue (this v) = queue (this w)) as Hqv
    by (rewrite Hv; unfold clearLoop; simpl; by destruct (_currentTimeout (this w))).
  assert (options (this v) = options (this w)) as Ho
    by (rewrite Hv; unfold clearLoop; simpl; by destruct (_currentTimeout (this w))).
  assert (isFirst (this v) = true) as Hfirst
    by (rewrite Hv; unfold clearLoop; simpl; by destruct (_currentTimeout (this w))).
  assert (lastFnResult (this v) = lastFnResult (this w)) as Hlast
    by (rewrite Hv; unfold clearLoop; simpl; by destruct (_currentTimeout (this w))).
  assert (trace (host v) = trace (host w)) as Htr
    by (rewrite Hv; unfold clearLoop; simpl; by destruct (_currentTimeout (this w))).
  assert (next_timer (host v) = next_timer (host w)) as Hnext
    by (rewrite Hv; unfold clearLoop; simpl; by destruct (_currentTimeout (this w))).
  assert (intervalTime (this v) = intervalTime (this w)) as Hint
    by (rewrite Hv; unfold clearLoop; simpl; by destruct (_currentTimeout (this w))).
  assert (∀ u, since w u = since v u) as Hsince
    by (intros u; unfold since; by rewrite Htr).
  assert (head (queue (this v)) = Some q) as Hhd by (by rewrite Hqv).
  split.
  - intros Hf Ha. rewrite Hsince, trigger_dispatch.
    + destruct (resume_invokes (on_this (set_isTriggering true) v) q Hhd)
        as (mid & post & Hs).
      change (OInvoke q ∈ since (on_this (set_isTriggering true) v)
                (resume (on_this (set_isTriggering true) v))).
      rewrite Hs. apply elem_of_cons. right. apply elem_of_app. right.
      by apply elem_of_cons; left.
    + done.
    + done.
    + by eapply head_Some_nonempty.
    + by rewrite Ho, Hf.
    + by rewrite Ho, Hlast.
  - intros Hf.
    assert (trigger v = _createTimeout (on_this (set_isTriggering true) v)) as ->.
    { pose proof (trigger_eq v) as Hr. unfold trigger_body in Hr.
      rewrite Hp, Hflag in Hr.
      destruct (queue (this v)) as [|q0 rest] eqn:Hqueue; [done|].
      cbn [on_this this options isFirst set_isTriggering] in Hr.
      rewrite Ho, Hfirst, Hf in Hr. by injection Hr as <-. }
    rewrite Hsince, <-Hnext, <-Hint. split_and!.
    + unfold since.
      change (trace (host (_createTimeout (on_this (set_isTriggering true) v))))
        with (trace (host v)).
      by rewrite drop_all.
    + done.
    + change (timers (host (_createTimeout (on_this (set_isTriggering true) v))))
        with (timers (host v) ++ [(next_timer (host v), intervalTime (this v))]).
      apply elem_of_app. right. by apply elem_of_cons; left.
    + done.
Qed.

End Paused.

(** ** The timer, the spacing and the pause on the sample queues *)

Lemma held_timer_has_current_interval_witness :
  50%Z = intervalTime (this (@run demo [EAdd (op 0); EAdd (op 3); ESetIntervalTime 50]
                               (new_IntervalQueue 2000 default_options))).
Proof.
  apply (@held_timer_has_current_interval demo 2000 default_options
           [EAdd (op 0); EAdd (op 3); ESetIntervalTime 50] 1 50%Z).
  - reflexivity.
  - vm_compute. apply elem_of_cons. left. reflexivity.
Defined.

Lemma functions_are_a_timer_apart_witness :
  length (invoked (since (@run demo [EAdd (op 0)] (new_IntervalQueue 2000 default_options))
            (@run demo [EAdd (op 3); ETimeout 0; EAdd (op 0)]
               (@run demo [EAdd (op 0)] (new_IntervalQueue 2000 default_options)))))
  ≤ @fired demo [EAdd (op 3); ETimeout 0; EAdd (op 0)]
      (@run demo [EAdd (op 0)] (new_IntervalQueue 2000 default_options)) + 1.
Proof.
  apply (@functions_are_a_timer_apart demo 2000 default_options
           [EAdd (op 0)] [EAdd (op 3); ETimeout 0; EAdd (op 0)]).
  reflexivity.
Defined.

Lemma a_paused_queue_runs_nothing_witness :
  invoked (since (pause two_sync)
             (@run demo [EAdd (op 0); ETimeout 0; ERunNext; EMicrotask] (pause two_sync)))
  = []
  ∧ queue (this (@run demo [EAdd (op 0); ETimeout 0; ERunNext; EMicrotask] (pause two_sync)))
    = queue (this (pause two_sync)) ++ [op 0].
Proof.
  destruct (@a_paused_queue_runs_nothing demo
              [EAdd (op 0); ETimeout 0; ERunNext; EMicrotask] (pause two_sync))
    as (Hi & Hq & _).
  - reflexivity.
  - reflexivity.
  - rewrite !not_elem_of_cons. split_and!; try discriminate. apply not_elem_of_nil.
  - exact (conj Hi Hq).
Defined.

Lemma unpause_restarts_at_once_witness :
  OInvoke (op 3) ∈ since two_sync (@unpause demo (pause two_sync)).
Proof.
  destruct (@unpause_restarts_at_once demo (op 3) two_sync eq_refl) as [Hrun _].
  apply Hrun; [reflexivity|right; reflexivity].
Defined.

(** ** When the timer starts *)

Section StartTimer.
Context `{Behaviour}.

Ltac world_nf H :=
  cbv beta iota zeta delta
    [on_host on_this set_intervalTime set_isTriggering set_queue set_returnPromises
     set_lastFnResult set_isFirst set_paused set_currentTimeout set_handles
     set_promises set_timers set_next_timer set_microtasks set_trace this host
     intervalTime isTriggering queue returnPromises lastFnResult options isFirst
     paused _currentTimeout handles promises timers next_timer microtasks trace
     pstate reactions log enqueue _createTimeout setTimeout fst snd run_job step
     settle_handle reject_handle settle_promise job_of] in H.

(** The timer that the [finally] of line 140 arms when the promise settles. *)
Lemma deliver_timer p h st fin u :
  fin = [] ∨ fin = [RFinally] →
  promises (host u) !! p = Some {| pstate := None; reactions := RThen (Some h) :: fin |} →
  handles (host u) !! h = Some None →
  microtasks (host u) = [] →
  let u' := run [ESettle p st; EMicrotask; EMicrotask; EMicrotask] u in
  timers (host u')
  = timers (host u) ++ ((λ _, (next_timer (host u), intervalTime (this u))) <$> fin).
Proof.
  intros Hfin Hcell Hh Hm u'.
  destruct u as [[it flag qu rp last opts first pa cur] [hs ps ts nt ms tr]].
  simpl in Hcell, Hh, Hm. subst ms.
  unfold u', run. cbn [foldl flip]. clear u'.
  match goal with |- context [step (ESettle p st) ?v] =>
    remember (step (ESettle p st) v) as u1 eqn:Hu1 end.
  world_nf Hu1. rewrite Hcell in Hu1. world_nf Hu1.
  destruct st as [d|e], Hfin as [-> | ->]; simpl in Hu1; subst u1;
    repeat (match goal with |- context [step EMicrotask {| this := ?a; host := ?b |}] =>
      let v := fresh "v" in let Hv := fresh "Hv" in
      remember (step EMicrotask {| this := a; host := b |}) as v eqn:Hv;
      world_nf Hv; rewrite ?Hh in Hv;
      try (rewrite bool_decide_eq_true_2 in Hv by done);
      cbn [andb] in Hv;
      try (match type of Hv with context [discarded ?a ?b] => destruct (discarded a b) end);
      world_nf Hv; simpl in Hv; subst v end);
    simpl; by rewrite ?app_nil_r.
Qed.

(** The timer and the reactions [add] leaves when the function returns a
    pending promise. *)
Lemma add_pending_timer q w :
  call (fn q) (args q) = ReturnsPromise None →
  queue (this w) = [] →
  returnPromises (this w) = [] →
  isTriggering (this w) = false →
  paused (this w) = false →
  timerForFirst (options (this w)) && isFirst (this w) = false →
  awaitLastQueue (options (this w)) = false
    ∨ instanceof_Promise (lastFnResult (this w)) = None →
  let h := length (handles (host w)) in
  let p := length (promises (host w)) in
  let u := (add q w).1 in
  promises (host u) !! p
  = Some {| pstate := None;
            reactions := RThen (Some h) ::
              match startTimer (options (this w)) with
              | After => [RFinally]
              | Before => []
              end |}
  ∧ timers (host u)
    = timers (host w) ++
        match startTimer (options (this w)) with
        | Before => [(next_timer (host w), intervalTime (this w))]
        | After => []
        end
  ∧ next_timer (host u)
    = match startTimer (options (this w)) with
      | Before => S (next_timer (host w))
      | After => next_timer (host w)
      end
  ∧ intervalTime (this u) = intervalTime (this w).
Proof.
  intros Hc Hq Hrp Hflag Hp Hf Ha h p u.
  unfold u, h, p. rewrite add_idle by done. clear u h p.
  cbv zeta. cbn [push_entry fst returnPromises this on_this set_isTriggering log
    on_host set_returnPromises _createResultPromise snd handles host set_queue
    set_handles].
  rewrite Hrp. cbn [app head]. rewrite invoke_pending by done.
  unfold shift. cbn [queue this on_this set_isTriggering log on_host set_queue
    set_returnPromises push_entry fst snd _createResultPromise returnPromises].
  rewrite Hq. cbn [app head tail].
  destruct (loop (options (this w))), (startTimer (options (this w))) eqn:Hst;
    cbn; rewrite ?Hst; cbn;
    (split_and!; [apply lookup_snoc_here|by rewrite ?app_nil_r|done|done]).
Qed.

(** X10. [startTimer] decides when the spacing timer of a function that
    returns a pending promise starts: with ['before'] it is armed inside
    [add], when the function is called, and nothing is armed when the
    promise settles; with ['after'] nothing is armed until the promise
    settles, fulfilled or rejected, and then the timer is armed for the
    whole interval. *)
Theorem startTimer_decides_when_the_timer_starts q st w :
  call (fn q) (args q) = ReturnsPromise None →
  queue (this w) = [] →
  returnPromises (this w) = [] →
  isTriggering (this w) = false →
  paused (this w) = false →
  timerForFirst (options (this w)) && isFirst (this w) = false →
  awaitLastQueue (options (this w)) = false
    ∨ instanceof_Promise (lastFnResult (this w)) = None →
  microtasks (host w) = [] →
  let w' := (add q w).1 in
  let w'' := run [ESettle (length (promises (host w))) st; EMicrotask; EMicrotask; EMicrotask]
               w' in
  let timer := (next_timer (host w), intervalTime (this w)) in
  match startTimer (options (this w)) with
  | Before => timers (host w') = timers (host w) ++ [timer]
              ∧ timers (host w'') = timers (host w')
  | After => timers (host w') = timers (host w)
             ∧ timers (host w'') = timers (host w) ++ [timer]
  end.
Proof.
  intros Hc Hq Hrp Hflag Hp Hf Ha Hm w' w'' timer.
  destruct (add_pending q w Hc Hq Hrp Hflag Hp Hf Ha)
    as (_ & _ & Hpend & Hmicro & _).
  destruct (add_pending_timer q w Hc Hq Hrp Hflag Hp Hf Ha)
    as (Hcell & Htimers & Hnext & Hint).
  fold w' in Hpend, Hmicro, Hcell, Htimers, Hnext, Hint.
  pose proof (deliver_timer (length (promises (host w))) (length (handles (host w))) st
    match startTimer (options (this w)) with After => [RFinally] | Before => [] end w')
    as Hdel.
  fold w'' in Hdel. cbv zeta in Hdel.
  rewrite Hdel; [|by destruct (startTimer _); auto|done|done|by rewrite Hmicro].
  rewrite Htimers, Hnext, Hint. unfold timer.
  destruct (startTimer (options (this w))); simpl; by rewrite ?app_nil_r.
Qed.

End StartTimer.

(** ** The round suspended at the [await] *)

Section Await.
Context `{Behaviour}.

Lemma sum_list_with_lookup_le {A} (f : A → nat) l i x :
  l !! i = Some x → f x ≤ sum_list_with f l.
Proof.
  revert i. induction l as [|a l IH]; intros [|i] Hi; simplify_eq/=; [lia|].
  specialize (IH i Hi). lia.
Qed.

Lemma steady_same w w' :
  promises (host w') = promises (host w) →
  sum_list_with await_job (microtasks (host w'))
  = sum_list_with await_job (microtasks (host w)) →
  lastFnResult (this w') = lastFnResult (this w) →
  (queue (this w) ≠ [] → queue (this w') ≠ []) →
  steady w → steady w'.
Proof.
  intros Hp Hm Hl Hq [Hlast Hqueue Hon Hjob]. split.
  - unfold valid_last. by rewrite Hl, Hp.
  - unfold awaiting in *. rewrite Hp, Hm. auto.
  - rewrite Hp, Hl. done.
  - rewrite Hm. unfold last_settled. rewrite Hl, Hp. done.
Qed.

Lemma steady_idle w : awaiting w = 0 → valid_last w → steady w.
Proof.
  intros Ha Hlast. unfold awaiting in Ha. split; [done|unfold awaiting; lia| |lia].
  intros i c Hc Hr.
  pose proof (sum_list_with_lookup_le
    (λ c, sum_list_with await_reaction (reactions c)) _ _ _ Hc) as Hle.
  simpl in Hle. lia.
Qed.

Lemma steady_enqueue j w : await_job j = 0 → steady w → steady (enqueue j w).
Proof.
  intros Hj. apply steady_same; try done.
  simpl. rewrite sum_list_with_app. simpl. lia.
Qed.

Lemma steady_settle_handle p r w : steady w → steady (settle_handle p r w).
Proof. unfold settle_handle. repeat case_match; by apply steady_same. Qed.

Lemma steady_reject_handle p e w : steady w → steady (reject_handle p e w).
Proof.
  intros Hw. unfold reject_handle. cbv zeta.
  destruct (_ && _); [|by apply steady_settle_handle].
  apply (steady_same (settle_handle p (Rejected e) w)); try done.
  by apply steady_settle_handle.
Qed.

Lemma last_settled_insert p c c' w :
  promises (host w) !! p = Some c →
  pstate c = None →
  last_settled w →
  ∀ w', lastFnResult (this w') = lastFnResult (this w) →
        promises (host w') = <[p := c']> (promises (host w)) →
        last_settled w'.
Proof.
  intros Hc Hpend Hw w' Hl Hp p0 Hp0. rewrite Hl in Hp0.
  destruct (Hw p0 Hp0) as (c0 & st & Hc0 & Hst).
  destruct (decide (p0 = p)) as [->|Hne]; [congruence|].
  exists c0, st. by rewrite Hp, list_lookup_insert_ne.
Qed.

Lemma steady_subscribe p r w :
  await_reaction r = 0 → steady w → steady (subscribe p r w).
Proof.
  intros Hr Hw. unfold subscribe.
  destruct (promises (host w) !! p) as [c|] eqn:Hc; [|done].
  destruct (pstate c) as [st|] eqn:Hst.
  { apply steady_enqueue; [|done]. by rewrite job_of_await. }
  destruct Hw as [Hlast Hqueue Hon Hjob].
  pose proof (sum_list_with_insert
    (λ c, sum_list_with await_reaction (reactions c)) _ _ _
    {| pstate := None; reactions := reactions c ++ [r] |} Hc) as Hs.
  simpl in Hs. rewrite sum_list_with_app in Hs. simpl in Hs.
  split.
  - unfold valid_last. simpl. rewrite length_insert. done.
  - unfold awaiting in *. simpl. intros Ha. apply Hqueue. lia.
  - simpl. intros i c' Hc' Hr'. destruct (decide (i = p)) as [->|Hne].
    + rewrite list_lookup_insert_eq in Hc' by (by eapply lookup_lt_Some).
      injection Hc' as <-. simpl in Hr'. rewrite sum_list_with_app in Hr'. simpl in Hr'.
      apply (Hon p c Hc). lia.
    + rewrite list_lookup_insert_ne in Hc' by done. by eapply Hon.
  - simpl. intros Hj. by eapply (last_settled_insert p c _ w Hc Hst (Hjob Hj)).
Qed.

(** The [await] of line 123 is on the promise in [lastFnResult]. *)
Lemma steady_subscribe_await p w :
  lastFnResult (this w) = VPromise p →
  queue (this w) ≠ [] →
  steady w → steady (subscribe p RAwaitCatch w).
Proof.
  intros Hl Hq Hw. unfold subscribe.
  destruct (promises (host w) !! p) as [c|] eqn:Hc; [|done].
  destruct Hw as [Hlast Hqueue Hon Hjob].
  destruct (pstate c) as [st|] eqn:Hst.
  { split; try done.
    intros _ p0 Hp0. simpl in Hp0. rewrite Hl in Hp0. injection Hp0 as <-.
    by exists c, st. }
  split.
  - unfold valid_last. simpl. rewrite length_insert. done.
  - done.
  - simpl. intros i c' Hc' Hr'. destruct (decide (i = p)) as [->|Hne]; [done|].
    rewrite list_lookup_insert_ne in Hc' by done. by eapply Hon.
  - simpl. intros Hj. by eapply (last_settled_insert p c _ w Hc Hst (Hjob Hj)).
Qed.

Lemma steady_settle_promise p st w : steady w → steady (settle_promise p st w).
Proof.
  intros Hw. unfold settle_promise.
  destruct (promises (host w) !! p) as [c|] eqn:Hc; [|done].
  destruct (pstate c) as [st0|] eqn:Hst; [done|].
  pose proof (paced_settle_promise p st w) as Hpaced.
  unfold settle_promise in Hpaced. rewrite Hc, Hst in Hpaced.
  cbv zeta in Hpaced |- *.
  match goal with |- steady ?v => set (w' := v) in * end.
  assert (trace (host w') = trace (host w)) as Htr by done.
  assert (promises (host w')
          = <[p := {| pstate := Some st; reactions := [] |}]> (promises (host w)))
    as Hp' by done.
  assert (microtasks (host w') = microtasks (host w) ++ (job_of st <$> reactions c))
    as Hm' by done.
  assert (lastFnResult (this w') = lastFnResult (this w)) as Hl' by done.
  assert (queue (this w') = queue (this w)) as Hq' by done.
  clearbody w'.
  destruct Hw as [Hlast Hqueue Hon Hjob].
  assert (lastFnResult (this w) = VPromise p → last_settled w') as Hnow.
  { intros Hlp p0 Hp0. rewrite Hl', Hlp in Hp0. injection Hp0 as <-.
    exists {| pstate := Some st; reactions := [] |}, st. rewrite Hp'. split; [|done].
    apply list_lookup_insert_eq. by eapply lookup_lt_Some. }
  assert (last_settled w → last_settled w') as Hstay.
  { intros Hs p0 Hp0. rewrite Hl' in Hp0.
    destruct (Hs p0 Hp0) as (c0 & st0 & Hc0 & Hst0).
    destruct (decide (p0 = p)) as [->|Hne]; [congruence|].
    exists c0, st0. by rewrite Hp', list_lookup_insert_ne. }
  split.
  - unfold valid_last. rewrite Hl', Hp', length_insert. done.
  - intros Ha. rewrite Hq'. apply Hqueue. unfold paced in Hpaced.
    rewrite Htr in Hpaced. lia.
  - rewrite Hp', Hl'. intros i c' Hc' Hr'. destruct (decide (i = p)) as [->|Hne].
    + rewrite list_lookup_insert_eq in Hc' by (by eapply lookup_lt_Some).
      injection Hc' as <-. simpl in Hr'. lia.
    + rewrite list_lookup_insert_ne in Hc' by done. by eapply Hon.
  - rewrite Hm', sum_list_with_app, sum_job_of_await. intros Hj.
    destruct (decide (1 ≤ sum_list_with await_reaction (reactions c))) as [Hr|Hr].
    + apply Hnow. by apply (Hon p c).
    + apply Hstay. apply Hjob. lia.
Qed.

Lemma steady_push o q w : steady w → steady (push_entry o q w).1.
Proof.
  apply steady_same; try done. simpl. intros _. by destruct (queue (this w)).
Qed.

Lemma valid_last_same w w' :
  lastFnResult (this w') = lastFnResult (this w) →
  length (promises (host w)) ≤ length (promises (host w')) →
  valid_last w → valid_last w'.
Proof. unfold valid_last. intros -> Hlen Hw p Hp. specialize (Hw p Hp). lia. Qed.

Lemma subscribe_last_length p r w :
  lastFnResult (this (subscribe p r w)) = lastFnResult (this w)
  ∧ length (promises (host (subscribe p r w))) = length (promises (host w)).
Proof.
  unfold subscribe. repeat case_match; simpl; rewrite ?length_insert; done.
Qed.

Lemma settle_handle_last p r w :
  lastFnResult (this (settle_handle p r w)) = lastFnResult (this w)
  ∧ promises (host (settle_handle p r w)) = promises (host w).
Proof. unfold settle_handle. by repeat case_match. Qed.

Lemma valid_last_subscribe p r w : valid_last w → valid_last (subscribe p r w).
Proof.
  destruct (subscribe_last_length p r w) as [Hl Hlen].
  apply valid_last_same; [done|lia].
Qed.

Lemma valid_last_invoke q h w : valid_last w → valid_last (invoke q h w).
Proof.
  intros Hw. unfold invoke. cbv zeta.
  destruct (call (fn q) (args q)) as [d|e|init].
  - destruct h as [p|]; [|by intros p0 Hp0].
    intros p0 Hp0.
    change (lastFnResult (this (settle_handle p (Fulfilled d)
              (on_this (set_lastFnResult (VData d)) (log (OInvoke q) w)))) = VPromise p0)
      in Hp0.
    by rewrite (proj1 (settle_handle_last _ _ _)) in Hp0.
  - by apply (valid_last_same w).
  - match goal with |- context [subscribe ?p0 (RThen h) ?v] =>
      assert (valid_last v) as Hv;
      [|assert (valid_last (subscribe p0 (RThen h) v)) as Hsub
          by (by apply valid_last_subscribe);
        set (w2 := subscribe p0 (RThen h) v) in *]
    end.
    { intros p0 [= <-]. simpl. rewrite length_app. simpl. lia. }
    destruct (startTimer _); [by apply (valid_last_same w2)|by apply valid_last_subscribe].
Qed.

Lemma awaiting_invoke q h w : awaiting (invoke q h w) ≤ awaiting w.
Proof.
  pose proof (paced_invoke q h w) as Hp. destruct (invoke_trace q h w) as [tr Ht].
  unfold paced in Hp. rewrite Ht, invoked_app, length_app in Hp. simpl in Hp. lia.
Qed.

(** After a dispatch no round is suspended. *)
Lemma steady_dispatch w w' :
  dispatch_with Some w = Some w' →
  awaiting w = 0 → valid_last w →
  steady w' ∧ awaiting w' = 0.
Proof.
  unfold dispatch_with, add_with. intros Hr Ha Hlast.
  assert (awaiting (shift w) = 0 ∧ valid_last (shift w)) as [Ha1 Hl1].
  { unfold shift. by destruct (head (queue (this w))). }
  destruct (head (queue (this w))) as [queued|].
  - set (w1 := if loop (options (this (shift w)))
               then (push_entry ByLoop queued (shift w)).1 else shift w).
    assert (awaiting w1 = 0 ∧ valid_last w1) as [Ha2 Hl2].
    { unfold w1. by destruct (loop _). }
    assert (w' = invoke queued (head (returnPromises (this w))) w1) as ->.
    { unfold w1. destruct (loop _); simpl in Hr; by injection Hr as <-. }
    pose proof (awaiting_invoke queued (head (returnPromises (this w))) w1) as Hle.
    assert (awaiting (invoke queued (head (returnPromises (this w))) w1) = 0) as Ha3 by lia.
    split; [|done]. apply steady_idle; [done|by apply valid_last_invoke].
  - injection Hr as <-. split; [|done]. by apply steady_idle.
Qed.

Lemma steady_trigger w : single w → steady w → steady (trigger w).
Proof.
  intros Hs Hw. pose proof (trigger_eq w) as Hr. unfold trigger_body in Hr.
  destruct (paused (this w)); [by injection Hr as <-|].
  destruct (isTriggering (this w)) eqn:Hflag; [by injection Hr as <-|].
  pose proof (awaiting_pending w) as Hle.
  pose proof (sg_idle w Hs Hflag) as Hidle.
  destruct (queue (this w)) as [|q0 rest] eqn:Hq.
  { injection Hr as <-. revert Hw. by apply steady_same. }
  set (w1 := on_this (set_isTriggering true) w) in *.
  assert (steady w1) as Hw1 by (revert Hw; by apply steady_same).
  destruct (_ && _).
  { injection Hr as <-. revert Hw1. by apply steady_same. }
  destruct (if awaitLastQueue _ then _ else _) as [p|] eqn:Hgate.
  { injection Hr as <-. apply steady_subscribe_await; [|by simpl; rewrite Hq|done].
    destruct (awaitLastQueue _); [|done].
    simpl in *. by destruct (lastFnResult (this w)); simplify_eq/=. }
  apply (steady_dispatch w1) in Hr as [? _]; [done| |apply Hw].
  change (awaiting w = 0). lia.
Qed.

Lemma steady_resume w :
  isTriggering (this w) = true → awaiting w = 0 → valid_last w → steady (resume w).
Proof.
  intros Hflag Ha Hlast.
  pose proof (resume_fuel_enough fuel w (le_n _)) as Hr.
  rewrite dispatch_with_busy in Hr; try done.
  - by apply steady_dispatch in Hr as [? _].
  - intros w' Hw'. by apply trigger_fuel_busy.
Qed.

Lemma steady_run_job j js w :
  microtasks (host w) = j :: js →
  single w → steady w →
  steady (run_job j (on_host (set_microtasks js) w)).
Proof.
  intros Hm Hs Hw. set (w1 := on_host (set_microtasks js) w).
  assert (await_job j = 0 → steady w1) as Hw1.
  { intros Hj. revert Hw. apply steady_same; try done.
    unfold w1. rewrite Hm. simpl. lia. }
  destruct j as [[p|] [d|e]|[p|] [d|e]| | |st]; cbn [run_job].
  - apply steady_enqueue; [done|]. apply steady_settle_handle. by apply Hw1.
  - apply steady_enqueue; [done|]. by apply Hw1.
  - apply steady_enqueue; [done|]. by apply Hw1.
  - apply steady_enqueue; [done|]. by apply Hw1.
  - by apply Hw1.
  - apply steady_reject_handle. by apply Hw1.
  - by apply Hw1.
  - apply (steady_same w1); try done. by apply Hw1.
  - revert Hw. apply steady_same; try done.
    simpl. rewrite Hm, sum_list_with_app. simpl. lia.
  - pose proof (awaiting_pending w) as Hle. destruct Hs as [Hone Hidle _].
    assert (pending_rounds w = pending_rounds w1 + 1) as Hpend.
    { unfold pending_rounds, w1. rewrite Hm. simpl. lia. }
    assert (awaiting w = awaiting w1 + 1) as Hpop.
    { unfold awaiting, w1. rewrite Hm. simpl. lia. }
    apply steady_resume; [|lia|apply Hw].
    destruct (isTriggering (this w)) eqn:Hflag; [done|]. specialize (Hidle eq_refl). lia.
  - destruct st; [apply (steady_same w1); try done; by apply Hw1|].
    apply (steady_same w1); try done. by apply Hw1.
Qed.

Lemma steady_step e w :
  add_only e = true → single w → steady w → steady (step e w).
Proof.
  intros He Hs Hw. destruct e; try done; cbn [step].
  - rewrite add_eq. apply steady_trigger; [by apply single_push|by apply steady_push].
  - destruct (microtasks (host w)); [|done].
    destruct (armed t w) eqn:Harmed; [|done].
    unfold timeout_callback.
    set (w1 := on_this (set_isTriggering false) (clearTimeout (Some t) w)).
    assert (single w1) as Hs1.
    { destruct Hs as [Hone Hidle Horder].
      pose proof (pending_rounds_fired t w Harmed Hone) as Hp.
      split; [change (pending_rounds w1) with (pending_rounds (clearTimeout (Some t) w)); lia
             |intros _; done|done]. }
    apply steady_trigger; [done|]. revert Hw. by apply steady_same.
  - by apply steady_settle_promise.
  - destruct (microtasks (host w)) as [|j js] eqn:Hm; [done|].
    by apply steady_run_job.
Qed.

Lemma steady_run es w :
  forallb add_only es = true → single w → steady w → steady (run es w).
Proof.
  revert w. induction es as [|e es IH]; intros w Hes Hs Hw; [done|].
  apply andb_prop in Hes as [He Hes]. simpl.
  apply IH; [done|by apply single_step|by apply steady_step].
Qed.

Lemma steady_new t o : steady (new_IntervalQueue t o).
Proof. by apply steady_idle. Qed.

(** While the last result is a promise, [awaitLastQueue] keeps [trigger]
    from running anything. *)
Lemma trigger_awaits w p :
  awaitLastQueue (options (this w)) = true →
  lastFnResult (this w) = VPromise p →
  frame w (trigger w).
Proof.
  intros Ha Hl. pose proof (trigger_eq w) as Hr. unfold trigger_body in Hr.
  destruct (paused (this w)); [injection Hr as <-; apply frame_refl|].
  destruct (isTriggering (this w)); [injection Hr as <-; apply frame_refl|].
  destruct (queue (this w)); [injection Hr as <-; apply frame_isFirst|].
  cbn [on_this this options lastFnResult set_isTriggering] in Hr.
  rewrite Ha, Hl in Hr. cbn [instanceof_Promise] in Hr.
  destruct (_ && _); injection Hr as <-.
  - eapply frame_trans; [apply (frame_isTriggering true)|apply frame_createTimeout].
  - eapply frame_trans; [apply (frame_isTriggering true)|apply frame_subscribe].
Qed.

Lemma frame_invoked w w' : frame w w' → invoked (since w w') = [].
Proof.
  intros [_ _ _ _ (tr & Ht & Hquiet)]. rewrite (since_app w w' tr Ht).
  by destruct (quiet_silent tr Hquiet) as (_ & _ & ?).
Qed.

Lemma frame_run_job j w : j ≠ JResume → frame w (run_job j w).
Proof.
  intros Hj. destruct j as [[p|] [d|e]|[p|] [d|e]| | |st]; try done; cbn [run_job].
  - eapply frame_trans; [apply frame_settle_handle|apply frame_enqueue].
  - apply frame_enqueue.
  - apply frame_enqueue.
  - apply frame_enqueue.
  - apply frame_refl.
  - apply frame_reject_handle.
  - apply frame_refl.
  - by apply frame_log.
  - apply frame_enqueue.
  - destruct st; [apply frame_createTimeout|].
    eapply frame_trans; [apply frame_createTimeout|by apply frame_log].
Qed.

Lemma overlap_step e w :
  add_only e = true → steady w →
  awaitLastQueue (options (this w)) = true →
  invoked (since w (step e w)) ≠ [] →
  last_settled w.
Proof.
  intros He Hw Ha Hinv.
  destruct (lastFnResult (this w)) as [d|p] eqn:Hl; [intros p0 Hp0; congruence|].
  destruct e; try done; cbn [step] in Hinv.
  - destruct Hinv. rewrite add_eq. cbn [fst].
    set (v := (push_entry ByCaller q w).1).
    destruct (trigger_awaits v p Ha Hl) as [_ _ _ _ (tr & Ht & Hquiet)].
    destruct (quiet_silent tr Hquiet) as (_ & _ & Hi).
    rewrite (since_app w (trigger v) (OAdd ByCaller q (length (handles (host w))) :: tr)).
    + done.
    + rewrite Ht. simpl. by rewrite <-app_assoc.
  - destruct Hinv.
    destruct (microtasks (host w)); [|by apply frame_invoked, frame_refl].
    destruct (armed t w); [|by apply frame_invoked, frame_refl].
    unfold timeout_callback.
    set (v := on_this (set_isTriggering false) (clearTimeout (Some t) w)).
    apply frame_invoked. apply (frame_trans w v).
    + eapply frame_trans; [apply frame_clearTimeout|apply frame_isTriggering].
    + by apply (trigger_awaits v p).
  - destruct Hinv. apply frame_invoked, frame_settle_promise.
  - destruct (microtasks (host w)) as [|j js] eqn:Hm.
    { destruct Hinv. apply frame_invoked, frame_refl. }
    assert (j = JResume ∨ j ≠ JResume) as [->|Hj] by (destruct j; auto).
    + apply (sd_job w Hw). rewrite Hm. simpl. lia.
    + destruct Hinv. apply frame_invoked.
      eapply frame_trans; [apply (frame_microtasks js)|by apply frame_run_job].
Qed.

(** X11. With [awaitLastQueue], when the caller does nothing but [add],
    functions do not overlap: an event that starts a function finds the
    promise returned by the function started before it settled (if that one
    returned a promise at all). *)
Theorem functions_do_not_overlap t o es e :
  awaitLastQueue o = true →
  forallb add_only (es ++ [e]) = true →
  let w := run es (new_IntervalQueue t o) in
  invoked (since w (step e w)) ≠ [] →
  ∀ p, lastFnResult (this w) = VPromise p →
       ∃ c st, promises (host w) !! p = Some c ∧ pstate c = Some st.
Proof.
  rewrite forallb_app. intros Ha [Hes He]%andb_prop w Hinv.
  apply andb_prop in He as [He _].
  apply (overlap_step e w); try done.
  - apply steady_run; [done|apply single_new|apply steady_new].
  - unfold w. by rewrite options_run.
Qed.

End Await.

(** ** A round in progress has a continuation *)

Section Live.
Context `{Behaviour}.
Hypothesis polite_calls : ∀ f a e, call f a ≠ Throws e.

Lemma pending_createTimeout w : pending_rounds (_createTimeout w) = pending_rounds w + 1.
Proof. unfold pending_rounds. simpl. rewrite length_app. simpl. lia. Qed.

Lemma pending_settle_handle p r w : pending_rounds (settle_handle p r w) = pending_rounds w.
Proof. unfold settle_handle. by repeat case_match. Qed.

Lemma settle_handle_flag p r w :
  isTriggering (this (settle_handle p r w)) = isTriggering (this w).
Proof. unfold settle_handle. by repeat case_match. Qed.

Lemma reject_handle_flag p e w :
  isTriggering (this (reject_handle p e w)) = isTriggering (this w).
Proof. by destruct (rounds_reject_handle p e w). Qed.

Lemma pending_reject_handle p e w : pending_rounds (reject_handle p e w) = pending_rounds w.
Proof.
  unfold reject_handle. cbv zeta. destruct (_ && _); [|apply pending_settle_handle].
  change (pending_rounds (log (OUncaught e) (settle_handle p (Rejected e) w)))
    with (pending_rounds (settle_handle p (Rejected e) w)).
  apply pending_settle_handle.
Qed.

Lemma pending_enqueue j w : pending_rounds (enqueue j w) = pending_rounds w + job_round j.
Proof. unfold pending_rounds. simpl. rewrite sum_list_with_app. simpl. lia. Qed.

Lemma pending_subscribe p r w :
  p < length (promises (host w)) →
  pending_rounds (subscribe p r w) = pending_rounds w + reaction_round r.
Proof.
  intros [c Hc]%lookup_lt_is_Some. unfold subscribe. rewrite Hc.
  destruct (pstate c) as [st|].
  - by rewrite pending_enqueue, job_of_round.
  - unfold pending_rounds. simpl.
    pose proof (sum_list_with_insert cell_round _ _ _
      {| pstate := None; reactions := reactions c ++ [r] |} Hc) as Hs.
    assert (cell_round {| pstate := None; reactions := reactions c ++ [r] |}
            = cell_round c + reaction_round r) as Hcell.
    { unfold cell_round. simpl. rewrite sum_list_with_app. simpl. lia. }
    lia.
Qed.

Lemma pending_settle_promise p st w :
  pending_rounds (settle_promise p st w) = pending_rounds w.
Proof.
  unfold settle_promise. destruct (promises (host w) !! p) as [c|] eqn:Hc; [|done].
  destruct (pstate c); [done|].
  unfold pending_rounds. simpl.
  pose proof (sum_list_with_insert cell_round _ _ _
    {| pstate := Some st; reactions := [] |} Hc) as Hs.
  assert (cell_round {| pstate := Some st; reactions := [] |} = 0) as Hcell by done.
  rewrite sum_list_with_app.
  assert (sum_list_with job_round (job_of st <$> reactions c) = cell_round c) as ->.
  { unfold cell_round. clear Hs. induction (reactions c) as [|r rs IH]; [done|].
    rewrite fmap_cons. simpl. rewrite job_of_round. by f_equal. }
  lia.
Qed.

Lemma pending_shift w : pending_rounds (shift w) = pending_rounds w.
Proof. unfold shift. by destruct (head (queue (this w))). Qed.

(** A function that returns arms the timer or leaves the [finally] that
    will. *)
Lemma pending_invoke q h w :
  pending_rounds (invoke q (Some h) w) = pending_rounds w + 1.
Proof.
  unfold invoke. cbv zeta.
  destruct (call (fn q) (args q)) as [d|e|init] eqn:Hcall.
  - by rewrite pending_createTimeout, pending_settle_handle.
  - by destruct (polite_calls _ _ _ Hcall).
  - match goal with |- context [subscribe ?p0 (RThen (Some h)) ?v] =>
      assert (pending_rounds v = pending_rounds w) as Hv;
      [|assert (p0 < length (promises (host v))) as Hlt;
        [|pose proof (pending_subscribe p0 (RThen (Some h)) v Hlt) as Hsub;
          destruct (subscribe_last_length p0 (RThen (Some h)) v) as [_ Hlen];
          set (w2 := subscribe p0 (RThen (Some h)) v) in *]]
    end.
    { unfold pending_rounds. simpl. rewrite sum_list_with_app. simpl. lia. }
    { simpl. rewrite length_app. simpl. lia. }
    cbn [reaction_round] in Hsub.
    destruct (startTimer _).
    + rewrite pending_createTimeout. lia.
    + rewrite pending_subscribe by lia. cbn [reaction_round]. lia.
Qed.

Lemma live_dispatch w w' :
  dispatch_with Some w = Some w' →
  queue (this w) ≠ [] → aligned w →
  pending_rounds w' = pending_rounds w + 1.
Proof.
  unfold dispatch_with, add_with, aligned. intros Hr Hq Hal.
  destruct (queue (this w)) as [|queued rest] eqn:Hqueue; [done|].
  destruct (returnPromises (this w)) as [|h hs] eqn:Hrp; [done|].
  cbn [head] in Hr.
  set (w1 := if loop (options (this (shift w)))
             then (push_entry ByLoop queued (shift w)).1 else shift w).
  assert (pending_rounds w1 = pending_rounds w) as Hw1.
  { rewrite <-(pending_shift w). unfold w1. by destruct (loop _). }
  assert (w' = invoke queued (Some h) w1) as ->.
  { unfold w1. destruct (loop _); simpl in Hr; by injection Hr as <-. }
  rewrite pending_invoke. lia.
Qed.

Lemma live_trigger w :
  single w → steady w → aligned w → live w → live (trigger w).
Proof.
  intros Hs Hw Hal Hlive. pose proof (trigger_eq w) as Hr. unfold trigger_body in Hr.
  destruct (paused (this w)); [by injection Hr as <-|].
  destruct (isTriggering (this w)) eqn:Hflag; [by injection Hr as <-|].
  destruct (queue (this w)) as [|q0 rest] eqn:Hq.
  { injection Hr as <-. intros Hf. simpl in Hf. congruence. }
  set (w1 := on_this (set_isTriggering true) w) in *.
  destruct (_ && _).
  { injection Hr as <-. intros _. rewrite pending_createTimeout. lia. }
  destruct (if awaitLastQueue _ then _ else _) as [p|] eqn:Hgate.
  { injection Hr as <-. intros _. rewrite pending_subscribe; [simpl; lia|].
    apply (sd_last w Hw). destruct (awaitLastQueue _); [|done].
    simpl in *. by destruct (lastFnResult (this w)); simplify_eq/=. }
  intros _. rewrite (live_dispatch w1 _ Hr); [lia| |done].
  simpl. by rewrite Hq.
Qed.

Lemma live_resume w :
  isTriggering (this w) = true →
  queue (this w) ≠ [] → aligned w →
  1 ≤ pending_rounds (resume w).
Proof.
  intros Hflag Hq Hal.
  pose proof (resume_fuel_enough fuel w (le_n _)) as Hr.
  rewrite dispatch_with_busy in Hr; try done.
  - rewrite (live_dispatch w _ Hr); [lia|done..].
  - intros w' Hw'. by apply trigger_fuel_busy.
Qed.

Lemma live_run_job j js w :
  microtasks (host w) = j :: js →
  single w → steady w → aligned w → live w →
  live (run_job j (on_host (set_microtasks js) w)).
Proof.
  intros Hm Hs Hw Hal Hlive. set (w1 := on_host (set_microtasks js) w).
  assert (pending_rounds w = pending_rounds w1 + job_round j) as Hpend.
  { unfold pending_rounds, w1. rewrite Hm. simpl. lia. }
  assert (isTriggering (this w1) = isTriggering (this w)) as Hflag by done.
  destruct j as [[p|] [d|e]|[p|] [d|e]| | |st]; cbn [run_job]; simpl in Hpend.
  - intros Hf. rewrite pending_enqueue, pending_settle_handle. simpl.
    assert (isTriggering (this w) = true) as Hf'
      by (rewrite <-Hf; symmetry; apply (settle_handle_flag p (Fulfilled d) w1)).
    specialize (Hlive Hf'). lia.
  - intros Hf. rewrite pending_enqueue. simpl. specialize (Hlive Hf). lia.
  - intros Hf. rewrite pending_enqueue. simpl. specialize (Hlive Hf). lia.
  - intros Hf. rewrite pending_enqueue. simpl. specialize (Hlive Hf). lia.
  - intros Hf. specialize (Hlive Hf). lia.
  - intros Hf. rewrite pending_reject_handle.
    assert (isTriggering (this w) = true) as Hf'
      by (rewrite <-Hf; symmetry; apply (reject_handle_flag p e w1)).
    specialize (Hlive Hf'). lia.
  - intros Hf. specialize (Hlive Hf). lia.
  - intros Hf. specialize (Hlive Hf).
    change (pending_rounds (log (OUncaught DTypeError) w1)) with (pending_rounds w1). lia.
  - intros Hf. rewrite pending_enqueue. simpl. lia.
  - intros _. apply live_resume.
    + destruct Hs as [_ Hidle _].
      destruct (isTriggering (this w)) eqn:Hf; [done|]. specialize (Hidle eq_refl). lia.
    + apply (sd_queue w Hw). unfold awaiting. rewrite Hm. simpl. lia.
    + done.
  - intros _. destruct st as [d|e].
    + rewrite pending_createTimeout. lia.
    + change (pending_rounds (log (OUncaught e) (_createTimeout w1)))
        with (pending_rounds (_createTimeout w1)).
      rewrite pending_createTimeout. lia.
Qed.

Lemma live_step e w :
  add_only e = true →
  single w → steady w → aligned w → live w →
  live (step e w).
Proof.
  intros He Hs Hw Hal Hlive. destruct e; try done; cbn [step].
  - rewrite add_eq. cbn [fst]. apply live_trigger.
    + by apply single_push.
    + by apply steady_push.
    + by apply (cl_push aligned aligned_closed).
    + done.
  - destruct (microtasks (host w)); [|done].
    destruct (armed t w) eqn:Harmed; [|done].
    unfold timeout_callback.
    set (w1 := on_this (set_isTriggering false) (clearTimeout (Some t) w)).
    assert (single w1) as Hs1.
    { destruct Hs as [Hone Hidle Horder].
      pose proof (pending_rounds_fired t w Harmed Hone) as Hp.
      split; [change (pending_rounds w1) with (pending_rounds (clearTimeout (Some t) w)); lia
             |intros _; done|done]. }
    apply live_trigger; [done| |done|by intros ?].
    revert Hw. by apply steady_same.
  - destruct (rounds_settle_promise p st w) as [Hf _].
    intros Hflag. rewrite pending_settle_promise. apply Hlive. congruence.
  - destruct (microtasks (host w)) as [|j js] eqn:Hm; [done|].
    by apply live_run_job.
Qed.

Lemma live_run es w :
  forallb add_only es = true →
  single w → steady w → aligned w → live w →
  live (run es w).
Proof.
  revert w. induction es as [|e es IH]; intros w Hes Hs Hw Hal Hlive; [done|].
  apply andb_prop in Hes as [He Hes]. simpl. apply IH; try done.
  - by apply single_step.
  - by apply steady_step.
  - by apply closed_step; [apply aligned_closed|].
  - by apply live_step.
Qed.

(** X12. When the caller does nothing but [add] and no function throws,
    a round in progress never stalls: whenever [isTriggering] is set,
    exactly one continuation of the round is pending: an armed timer, a
    reaction of the round on the promise of a function ([await] or
    [finally]), or a microtask of the round. *)
Theorem a_round_in_progress_has_a_continuation t o es :
  forallb add_only es = true →
  let w := run es (new_IntervalQueue t o) in
  isTriggering (this w) = true →
  pending_rounds w = 1.
Proof.
  intros Hes w Hflag.
  assert (single w) as [Hone _ _] by (by apply single_run, single_new).
  assert (live w) as Hlive.
  { apply live_run; [done|apply single_new|apply steady_new|done|by intros ?]. }
  specialize (Hlive Hflag). lia.
Qed.

End Live.

(** ** The suspended round and the continuation on the sample queues *)

Lemma startTimer_decides_when_the_timer_starts_witness :
  timers (host (@add demo (op 1) fresh_after).1) = []
  ∧ timers (host (@run demo [ESettle 0 (Rejected (DVal 7)); EMicrotask; EMicrotask; EMicrotask]
                    (@add demo (op 1) fresh_after).1))
    = [(0, 2000%Z)].
Proof.
  exact (@startTimer_decides_when_the_timer_starts demo (op 1) (Rejected (DVal 7)) fresh_after
           eq_refl eq_refl eq_refl eq_refl eq_refl eq_refl (or_intror eq_refl) eq_refl).
Defined.

Lemma functions_do_not_overlap_witness :
  ∃ c st,
    promises (host (@run demo
      [EAdd (op 1); EAdd (op 3); ETimeout 0; ESettle 0 (Fulfilled (DVal 1));
       EMicrotask; EMicrotask; EMicrotask] (new_IntervalQueue 2000 default_options)))
      !! 0 = Some c
    ∧ pstate c = Some st.
Proof.
  apply (@functions_do_not_overlap demo 2000 default_options
           [EAdd (op 1); EAdd (op 3); ETimeout 0; ESettle 0 (Fulfilled (DVal 1));
            EMicrotask; EMicrotask; EMicrotask] EMicrotask).
  - reflexivity.
  - reflexivity.
  - vm_compute. discriminate.
  - reflexivity.
Defined.

Lemma a_round_in_progress_has_a_continuation_witness :
  pending_rounds (@run polite [EAdd (op 1); EAdd (op 2); ETimeout 0]
                    (new_IntervalQueue 2000 default_options)) = 1.
Proof.
  apply (@a_round_in_progress_has_a_continuation polite).
  - intros f a e. unfold call, polite. destruct f as [|[|f]]; discriminate.
  - reflexivity.
  - reflexivity.
Defined.

(** ** [loop] keeps every entry *)

Section Loop.
Context `{Behaviour}.

Lemma kept_frame w w' :
  frame w w' →
  options (this w') = options (this w) ∧ queue (this w') ≡ₚ queue (this w).
Proof. intros [Hq _ Ho _ _]. by rewrite Hq, Ho. Qed.

Lemma kept_dispatch rec w w' :
  loop (options (this w)) = true →
  (∀ v v', loop (options (this v)) = true → rec v = Some v' →
           options (this v') = options (this v) ∧ queue (this v') ≡ₚ queue (this v)) →
  dispatch_with rec w = Some w' →
  options (this w') = options (this w) ∧ queue (this w') ≡ₚ queue (this w).
Proof.
  intros Hloop Hrec. unfold dispatch_with, add_with.
  destruct (queue (this w)) as [|queued rest] eqn:Hq; cbn [head].
  - intros [= <-]. unfold shift. rewrite Hq. simpl. by rewrite ?Hq.
  - rewrite shift_options, Hloop.
    set (v := (push_entry ByLoop queued (shift w)).1).
    assert (options (this v) = options (this w)) as Ho by apply shift_options.
    assert (queue (this v) = rest ++ [queued]) as Hv.
    { unfold v, shift. rewrite Hq. simpl. by rewrite ?Hq. }
    destruct (rec v) as [v'|] eqn:Hr; [|done]. simpl. intros [= <-].
    destruct (Hrec v v') as [Ho' Hq']; [by rewrite Ho|done|].
    destruct (kept_frame _ _ (frame_invoke queued (head (returnPromises (this w))) v'))
      as [Ho'' Hq''].
    split; [by rewrite Ho'', <-Ho, <-Ho'|].
    rewrite Hq''. simpl. rewrite Hq', Hv. symmetry. apply Permutation_cons_append.
Qed.

Lemma kept_trigger_body rec w w' :
  loop (options (this w)) = true →
  (∀ v v', loop (options (this v)) = true → rec v = Some v' →
           options (this v') = options (this v) ∧ queue (this v') ≡ₚ queue (this v)) →
  trigger_body rec w = Some w' →
  options (this w') = options (this w) ∧ queue (this w') ≡ₚ queue (this w).
Proof.
  intros Hloop Hrec. unfold trigger_body.
  destruct (paused (this w)); [by intros [= <-]|].
  destruct (isTriggering (this w)); [by intros [= <-]|].
  destruct (queue (this w)) eqn:Hq.
  { intros [= <-]. simpl. by rewrite Hq. }
  rewrite <-Hq. clear Hq.
  destruct (_ && _); [by intros [= <-]|].
  destruct (if awaitLastQueue _ then _ else _) as [p|].
  { intros [= <-]. apply (kept_frame (on_this (set_isTriggering true) w)), frame_subscribe. }
  intros Hd. by apply (kept_dispatch rec (on_this (set_isTriggering true) w)).
Qed.

Lemma kept_trigger_fuel n w w' :
  loop (options (this w)) = true →
  trigger_fuel n w = Some w' →
  options (this w') = options (this w) ∧ queue (this w') ≡ₚ queue (this w).
Proof.
  revert w w'. induction n as [|n IH]; intros w w' Hloop; [done|].
  cbn [trigger_fuel]. apply kept_trigger_body; [done|]. intros v v'. apply IH.
Qed.

Lemma kept_trigger w :
  loop (options (this w)) = true →
  options (this (trigger w)) = options (this w) ∧ queue (this (trigger w)) ≡ₚ queue (this w).
Proof. intros Hloop. by apply (kept_trigger_fuel fuel), trigger_fuel_enough. Qed.

Lemma kept_resume w :
  loop (options (this w)) = true →
  options (this (resume w)) = options (this w) ∧ queue (this (resume w)) ≡ₚ queue (this w).
Proof.
  intros Hloop. apply (kept_dispatch (trigger_fuel fuel)); [done| |].
  - intros v v'. apply kept_trigger_fuel.
  - by apply resume_fuel_enough.
Qed.

Lemma kept_step e w :
  loop (options (this w)) = true →
  options (this (step e w)) = options (this w)
  ∧ queue (this (step e w)) ≡ₚ queue (this w) ++ adds [e].
Proof.
  intros Hloop.
  assert (∀ v, frame w v →
    options (this (trigger v)) = options (this w)
    ∧ queue (this (trigger v)) ≡ₚ queue (this w) ++ []) as Hvia.
  { intros v [Hq _ Ho _ _]. destruct (kept_trigger v) as [Ho' Hq']; [by rewrite Ho|].
    by rewrite Ho', Hq', Ho, Hq, app_nil_r. }
  assert (∀ v, frame w v →
    options (this v) = options (this w) ∧ queue (this v) ≡ₚ queue (this w) ++ []) as Hfr.
  { intros v Hv. rewrite app_nil_r. by apply kept_frame. }
  destruct e; cbn [step adds omap].
  - rewrite add_eq. cbn [fst].
    destruct (kept_trigger (push_entry ByCaller q w).1) as [Ho Hq]; [done|].
    by rewrite Ho, Hq.
  - unfold setIntervalTime, runNext. apply Hvia.
    eapply frame_trans; [apply frame_intervalTime|apply frame_clearLoop].
  - apply Hfr, frame_clearLoop.
  - unfold runNext. apply Hvia, frame_clearLoop.
  - apply Hfr. unfold pause.
    eapply frame_trans; [|apply frame_clearLoop].
    eapply frame_trans; [apply frame_paused|apply frame_isFirst].
  - unfold unpause. apply Hvia, frame_paused.
  - destruct (microtasks (host w)); [|apply Hfr, frame_refl].
    destruct (armed t w); [|apply Hfr, frame_refl].
    unfold timeout_callback. apply Hvia.
    eapply frame_trans; [apply frame_clearTimeout|apply frame_isTriggering].
  - apply Hfr, frame_settle_promise.
  - destruct (microtasks (host w)) as [|j js] eqn:Hm; [apply Hfr, frame_refl|].
    assert (j = JResume ∨ j ≠ JResume) as [->|Hj] by (destruct j; auto).
    + cbn [run_job]. rewrite app_nil_r. by apply (kept_resume (on_host (set_microtasks js) w)).
    + apply Hfr. eapply frame_trans; [apply (frame_microtasks js)|by apply frame_run_job].
Qed.

(** X13. With [loop] no entry ever leaves the queue, whatever the caller
    calls and however the functions behave: the queue holds exactly the
    functions that were added, each as often as it was added. *)
Theorem loop_keeps_every_entry t o es :
  loop o = true →
  queue (this (run es (new_IntervalQueue t o))) ≡ₚ adds es.
Proof.
  intros Hloop.
  assert (∀ w, loop (options (this w)) = true →
               queue (this (run es w)) ≡ₚ queue (this w) ++ adds es) as Hrun.
  { induction es as [|e es IH]; intros w Hw; [by rewrite app_nil_r|].
    destruct (kept_step e w Hw) as [Ho Hq].
    change (run (e :: es) w) with (run es (step e w)).
    rewrite IH by (by rewrite Ho). rewrite Hq, <-app_assoc.
    apply Permutation_app_head. by destruct e. }
  by rewrite Hrun.
Qed.

End Loop.

(** ** [timerForFirst] *)

Section First.
Context `{Behaviour}.

Lemma first_same w w' :
  paused (this w') = paused (this w) →
  isTriggering (this w') = isTriggering (this w) →
  isFirst (this w') = isFirst (this w) →
  first_when_idle w → first_when_idle w'.
Proof. unfold first_when_idle. by intros -> -> ->. Qed.

Lemma first_busy w : isTriggering (this w) = true → first_when_idle w.
Proof. unfold first_when_idle. congruence. Qed.

Lemma first_trigger w : single w → first_when_idle w → first_when_idle (trigger w).
Proof.
  intros Hs Hw. pose proof (trigger_eq w) as Hr. unfold trigger_body in Hr.
  destruct (paused (this w)) eqn:Hp; [by injection Hr as <-|].
  destruct (isTriggering (this w)) eqn:Hflag; [by injection Hr as <-|].
  destruct (queue (this w)) eqn:Hq.
  { injection Hr as <-. by intros _ _. }
  set (w1 := on_this (set_isTriggering true) w) in *.
  destruct (_ && _); [injection Hr as <-; by apply first_busy|].
  destruct (if awaitLastQueue _ then _ else _) as [p|].
  { injection Hr as <-. apply first_busy.
    by destruct (rounds_subscribe p RAwaitCatch w1) as [-> _]. }
  apply first_busy. apply (single_dispatch w1) in Hr as [_ ?]; [done..| |].
  - by apply (sg_idle w Hs).
  - apply (sg_order w Hs).
Qed.

Lemma first_run_job j js w :
  microtasks (host w) = j :: js →
  single w → first_when_idle w →
  first_when_idle (run_job j (on_host (set_microtasks js) w)).
Proof.
  intros Hm Hs Hw. set (w1 := on_host (set_microtasks js) w).
  assert (first_when_idle w1) as Hw1 by (revert Hw; by apply first_same).
  assert (job_round j = 1 → isTriggering (this w1) = true) as Hround.
  { destruct Hs as [Hone Hidle _]. intros Hj.
    assert (pending_rounds w = pending_rounds w1 + job_round j) as Hpend.
    { unfold pending_rounds, w1. rewrite Hm. simpl. lia. }
    destruct (isTriggering (this w)) eqn:Hflag; [done|]. specialize (Hidle eq_refl). lia. }
  assert (∀ p r, first_when_idle (settle_handle p r w1)) as Hsettle.
  { intros p r. revert Hw1. unfold settle_handle. by repeat case_match. }
  destruct j as [[p|] [d|e]|[p|] [d|e]| | |st]; cbn [run_job]; try done.
  - apply (first_same (settle_handle p (Fulfilled d) w1)); done.
  - unfold reject_handle. cbv zeta. destruct (_ && _); [|done].
    apply (first_same (settle_handle p (Rejected e) w1)); done.
  - apply first_busy.
    pose proof (resume_fuel_enough fuel w1 (le_n _)) as Hr.
    rewrite dispatch_with_busy in Hr; [| |by apply Hround].
    + apply (single_dispatch w1) in Hr as [_ ?]; [done|by apply Hround| |apply (sg_order w Hs)].
      destruct Hs as [Hone _ _].
      assert (pending_rounds w = pending_rounds w1 + 1) as Hpend.
      { unfold pending_rounds, w1. rewrite Hm. simpl. lia. }
      lia.
    + intros w' Hw'. by apply trigger_fuel_busy.
  - apply first_busy. destruct st; by apply Hround.
Qed.

Lemma first_step e w :
  add_only e = true → single w → first_when_idle w → first_when_idle (step e w).
Proof.
  intros He Hs Hw. destruct e; try done; cbn [step].
  - rewrite add_eq. cbn [fst]. apply first_trigger; [by apply single_push|done].
  - destruct (microtasks (host w)); [|done].
    destruct (armed t w) eqn:Harmed; [|done].
    unfold timeout_callback.
    set (w1 := on_this (set_isTriggering false) (clearTimeout (Some t) w)).
    assert (single w1) as Hs1.
    { destruct Hs as [Hone Hidle Horder].
      pose proof (pending_rounds_fired t w Harmed Hone) as Hp.
      split; [change (pending_rounds w1) with (pending_rounds (clearTimeout (Some t) w)); lia
             |intros _; done|done]. }
    pose proof (trigger_eq w1) as Hr. unfold trigger_body in Hr.
    destruct (paused (this w1)) eqn:Hp.
    { injection Hr as <-. intros Hp'. congruence. }
    change (isTriggering (this w1)) with false in Hr. cbv iota in Hr.
    destruct (queue (this w1)) eqn:Hq.
    { injection Hr as <-. by intros _ _. }
    set (w2 := on_this (set_isTriggering true) w1) in *.
    destruct (_ && _); [injection Hr as <-; by apply first_busy|].
    destruct (if awaitLastQueue _ then _ else _) as [p|].
    { injection Hr as <-. apply first_busy.
      by destruct (rounds_subscribe p RAwaitCatch w2) as [-> _]. }
    apply first_busy. apply (single_dispatch w2) in Hr as [_ ?]; [done..| |].
    + by apply (sg_idle w1 Hs1).
    + apply (sg_order w1 Hs1).
  - revert Hw. unfold settle_promise. by repeat case_match.
  - destruct (microtasks (host w)) as [|j js] eqn:Hm; [done|].
    by apply first_run_job.
Qed.

(** X14. With [timerForFirst], when the caller does nothing but [add],
    [add] never runs a function itself: the entry is only queued (and a
    timer armed if the queue was idle), so every function is started by a
    timer callback or by a round resumed after its [await]. *)
Theorem timerForFirst_add_never_runs t o es q :
  timerForFirst o = true →
  forallb add_only es = true →
  let w := run es (new_IntervalQueue t o) in
  since w (add q w).1 = [OAdd ByCaller q (length (handles (host w)))]
  ∧ (add q w).2 = length (handles (host w)).
Proof.
  intros Hf Hes w.
  assert (first_when_idle w) as Hw.
  { unfold w. clear w.
    assert (∀ w, single w → first_when_idle w → first_when_idle (run es w)) as Hrun.
    { induction es as [|e es IH]; intros w Hs Hw; [done|].
      apply andb_prop in Hes as [He Hes]. simpl.
      apply IH; [done|by apply single_step|by apply first_step]. }
    apply Hrun; [apply single_new|by intros _ _]. }
  assert (options (this w) = o) as Ho by (unfold w; by rewrite options_run).
  rewrite add_eq. cbn [fst snd]. split; [|done].
  set (v := (push_entry ByCaller q w).1).
  assert (trace (host (trigger v)) = trace (host v)) as Htr.
  { pose proof (trigger_eq v) as Hr. unfold trigger_body in Hr.
    destruct (paused (this v)) eqn:Hp; [by injection Hr as <-|].
    destruct (isTriggering (this v)) eqn:Hflag; [by injection Hr as <-|].
    destruct (queue (this v)) eqn:Hq; [by injection Hr as <-|].
    cbn [on_this this options isFirst set_isTriggering] in Hr.
    change (options (this v)) with (options (this w)) in Hr.
    change (isFirst (this v)) with (isFirst (this w)) in Hr.
    rewrite Ho, Hf, (Hw Hp Hflag) in Hr. by injection Hr as <-. }
  apply since_app. by rewrite Htr.
Qed.

End First.

(** ** [loop] and [timerForFirst] on the sample queues *)

Lemma loop_keeps_every_entry_witness :
  queue (this (@run demo [EAdd (op 0); EAdd (op 3); ETimeout 0; ERunNext; EPause; EUnpause]
                 (new_IntervalQueue 2000
                    {| awaitLastQueue := false; startTimer := Before; loop := true;
                       timerForFirst := false |})))
  ≡ₚ adds [EAdd (op 0); EAdd (op 3); ETimeout 0; ERunNext; EPause; EUnpause].
Proof.
  apply (@loop_keeps_every_entry demo 2000
           {| awaitLastQueue := false; startTimer := Before; loop := true;
              timerForFirst := false |}
           [EAdd (op 0); EAdd (op 3); ETimeout 0; ERunNext; EPause; EUnpause]).
  reflexivity.
Defined.

Lemma timerForFirst_add_never_runs_witness :
  invoked (since (@run demo [EAdd (op 0); ETimeout 0; ETimeout 1] fresh_delayed)
             (@add demo (op 3)
                (@run demo [EAdd (op 0); ETimeout 0; ETimeout 1] fresh_delayed)).1)
  = [].
Proof.
  destruct (@timerForFirst_add_never_runs demo 2000
              {| awaitLastQueue := true; startTimer := Before; loop := false;
                 timerForFirst := true |}
              [EAdd (op 0); ETimeout 0; ETimeout 1] (op 3) eq_refl eq_refl) as [Hs _].
  unfold fresh_delayed. rewrite Hs. reflexivity.
Defined.

(** ** The result promises of the re-[add] *)

Section Requeued.
Context `{Behaviour}.















End Requeued.

